(** * Solar site suitability: the MCDA engine, job admission and the worker task

    A shallow embedding of
    - [backend/workers/geoprocessing/mcda_engine.py]  ([normalize_array],
      [process_mcda_job]),
    - [backend/api/services/analysis_service.py]      ([create_and_queue_job],
      [get_job_status], [get_job_results], [delete_job]),
    - [backend/workers/tasks.py]                      ([run_mcda_analysis]),
    - [backend/models/project.py]                     ([JobStatus], [AnalysisJob]).

    Numbers.  The engine is embedded twice.
    - Over exact rationals [Q], with [Qeq] ([==]) as equality of numbers:
      the arithmetic the code is written for, without rounding, NaN or
      infinities.  Pixels, weights of a stored job and statistics are
      rationals; a standard deviation is kept as the exact root of its
      variance.
    - Over binary floating point (module [fp]): binary64 for Python floats
      and float64 arrays, with the rounding to binary32 where the engine
      accumulates into its float32 map.  The test of the weights in
      [create_and_queue_job] is the binary64 one; the properties that
      rounding breaks are refuted in this embedding, and what holds in their
      place is proved in it.

    Rasters.  A raster band is the list of its pixels in row-major order;
    its shape is its length.  An in-place operation on bands of different
    lengths is the error NumPy raises for shapes that do not broadcast
    (NumPy would stretch a band of one row, one column or one pixel; such
    bands are not modelled).

    Storage.  Reading a band is total ([clip_raster_to_aoi] answers with a
    band), and the result file is written and uploaded whenever the grid has
    a pixel; an empty grid makes [rasterio.open(..., "w")] fail. *)

From Stdlib Require Import QArith Qminmax Qabs Qpower Lqa.
From Stdlib Require Import Floats.
From stdpp Require Import gmap strings list fin_maps pretty.

Local Open Scope string_scope.

(** ** Exceptions and the error monad *)

Inductive PyExc : Type :=
  | ValueError_weights (total_weight : float)
                                 (* "Weights must sum to 100, got ..." *)
  | ValueError_aoi (aoi_id : Z)  (* "AOI ... not found" *)
  | TypeError_format             (* unsupported format string passed to
                                    NoneType.__format__ *)
  | ValueError_broadcast         (* operands could not be broadcast together *)
  | IndexError_mask              (* boolean index did not match indexed array *)
  | RasterioIOError.             (* the result file could not be created *)

Inductive res (A : Type) : Type :=
  | Ok (a : A)
  | Raise (e : PyExc).
Arguments Ok {A} a.
Arguments Raise {A} e.

(** Sequencing: an exception raised by the first statement skips the rest.
    The instance gives the notation [x ← m; k]. *)
#[global] Instance res_bind : MBind res := fun A B k m =>
  match m with
  | Ok a => k a
  | Raise e => Raise e
  end.

(** ** NumPy primitives used by the engine *)

Module np.

(** [np.clip(a, lo, hi)] is [minimum(maximum(a, lo), hi)]. *)
Definition clip (a lo hi : Q) : Q := Qmin (Qmax a lo) hi.

(** [np.zeros(shape, dtype=bool)] and [np.zeros(shape, dtype=float32)]. *)
Definition zeros_bool (n : nat) : list bool := replicate n false.
Definition zeros (n : nat) : list Q := replicate n 0%Q.

(** [arr > v], element-wise. *)
Definition gt (arr : list Q) (v : Q) : list bool :=
  map (fun a => negb (Qle_bool a v)) arr.

(** [np.isin(arr, values)], element-wise membership. *)
Definition isin (arr : list Q) (values : list Q) : list bool :=
  map (fun a => existsb (Qeq_bool a) values) arr.

(** [m |= b]: in-place or; shapes must agree. *)
Definition ior (m b : list bool) : res (list bool) :=
  if decide (length m = length b)
  then Ok (zip_with orb m b)
  else Raise ValueError_broadcast.

(** [arr * s], array times scalar. *)
Definition scale (arr : list Q) (s : Q) : list Q :=
  map (fun a => (a * s)%Q) arr.

(** [a += b]: in-place addition; shapes must agree. *)
Definition iadd (a b : list Q) : res (list Q) :=
  if decide (length a = length b)
  then Ok (zip_with Qplus a b)
  else Raise ValueError_broadcast.

(** [a[m] = v]: assignment through a boolean index; shapes must agree. *)
Definition setmask (a : list Q) (m : list bool) (v : Q) : res (list Q) :=
  if decide (length a = length m)
  then Ok (zip_with (fun x (b : bool) => if b then v else x) a m)
  else Raise IndexError_mask.

(** [a[a != v]]: the elements different from [v], in order. *)
Definition select_ne (a : list Q) (v : Q) : list Q :=
  List.filter (fun x => negb (Qeq_bool x v)) a.

(** [np.sum(m)] of a boolean array: the number of [True] entries. *)
Definition count_true (m : list bool) : nat :=
  length (List.filter (fun b : bool => b) m).

Definition sum (a : list Q) : Q := fold_right Qplus 0%Q a.

(** [np.mean], [np.max], [np.min] of a non-empty array. *)
Definition mean (a : list Q) : Q := (sum a / inject_Z (Z.of_nat (length a)))%Q.
Definition max (a : list Q) : Q :=
  match a with [] => 0%Q | x :: t => fold_left Qmax t x end.
Definition min (a : list Q) : Q :=
  match a with [] => 0%Q | x :: t => fold_left Qmin t x end.

(** [np.sqrt], exactly: a root is kept by its radicand. *)
Inductive root : Type := sqrt (radicand : Q).

Definition radicand (r : root) : Q := let '(sqrt x) := r in x.

(** [np.var] and [np.std] of a non-empty array:
    [std = sqrt(mean(abs(a - a.mean()) ** 2))]. *)
Definition var (a : list Q) : Q :=
  mean (map (fun x => (Qabs (x - mean a) * Qabs (x - mean a))%Q) a).
Definition std (a : list Q) : root := sqrt (var a).

End np.

(** ** [normalize_array]  (mcda_engine.py, lines 39-66) *)

(** The quotient is a true quotient when [max_val] differs from [min_val],
    as in every call of the engine; for equal bounds NumPy yields NaN or an
    infinity, which [Q] does not have. *)

Definition normalize_array (arr : list Q) (min_val max_val : Q) (invert : bool)
  : list Q :=
  (* arr = arr.astype(float): the values are unchanged *)
  (* arr = np.clip(arr, min_val, max_val) *)
  let arr := map (fun a => np.clip a min_val max_val) arr in
  (* norm_arr = (arr - min_val) / (max_val - min_val) *)
  let norm_arr := map (fun a => ((a - min_val) / (max_val - min_val))%Q) arr in
  (* if invert: norm_arr = 1 - norm_arr *)
  let norm_arr := if invert then map (fun t => (1 - t)%Q) norm_arr else norm_arr in
  (* return norm_arr * 100 *)
  map (fun t => (t * 100)%Q) norm_arr.

(** ** Data model  (models/project.py, api/schemas/analysis.py) *)

Inductive JobStatus : Type := PENDING | RUNNING | COMPLETE | FAILED.

#[global] Instance JobStatus_eq_dec : EqDecision JobStatus.
Proof. solve_decision. Defined.

(** A polygon in WGS84, as its ring of (lon, lat) vertices. *)
Definition Geometry : Type := list (Q * Q).

Module AreaOfInterest.
Record t : Type := mk {
  id : Z;
  project_id : Z;
  geom : Geometry;
  area_km2 : option Q
}.
End AreaOfInterest.

(** [constraints_json]: the three keys the engine reads, [None] when the key
    is absent, with the value types of the schema's example
    ([{"slope_gt": 10, "lulc_exclude": [50, 80], "grid_dist_gt": 10000}]).
    No other key of the mapping is ever read. *)
Record Constraints : Type := {
  slope_gt : option Q;
  lulc_exclude : option (list Q);
  grid_dist_gt : option Q
}.

(** The statistics dictionary. *)
Record Statistics : Type := {
  total_pixels : nat;
  valid_pixels : nat;
  excluded_pixels : nat;
  mean_suitability : Q;
  max_suitability : Q;
  min_suitability : Q;
  std_suitability : np.root
}.

Module AnalysisJob.
(** [weights_json] is the dict's items in iteration order. [error_log]
    holds the exception whose [str] the code stores. *)
Record t : Type := mk {
  id : Z;
  project_id : Z;
  aoi_id : Z;
  status : JobStatus;
  weights_json : list (string * Q);
  constraints_json : Constraints;
  result_url : option string;
  result_tiles_url : option string;
  error_log : option PyExc;
  stats_json : option Statistics
}.
End AnalysisJob.

(** The request body: [weights_json: Dict[str, float]], binary64 numbers. *)
Record AnalysisJobCreate : Type := {
  new_weights_json : list (string * float);
  new_constraints_json : Constraints
}.

(** The committed content of the metadata store, as one session sees it.
    [analysis_jobs_id_seq] is the next primary key of [analysis_jobs]. *)
Record Session : Type := {
  analysis_jobs : gmap Z AnalysisJob.t;
  analysis_jobs_id_seq : Z;
  areas_of_interest : gmap Z AreaOfInterest.t
}.

(** [key in d] for a dict given by its items. *)
Definition dict_contains {V : Type} (key : string) (d : list (string * V))
  : bool :=
  existsb (fun kv => String.eqb key (fst kv)) d.

(** Python's [sum]: a left fold from 0. *)
Definition py_sum (values : list Q) : Q := fold_left Qplus values 0%Q.

(** ** Configuration and the layer catalog  (api/config.py, mcda_engine.py) *)

Definition S3_DATA_LAKE_BUCKET : string := "solar-platform-data-lake".
Definition S3_RESULTS_BUCKET : string := "solar-platform-results".

Definition DATA_LAYER_CATALOG (layer : string) : string :=
  "s3://" ++ S3_DATA_LAKE_BUCKET ++ "/" ++ layer ++ ".tif".

(** The engine's no-data value, [nodata_val = -9999]. *)
Definition nodata_val : Q := (-9999)%Q.

(** ** The engine  (mcda_engine.py, lines 126-299) *)

(** The result file and the returned dictionary. [final_map] is band 1 of
    the GeoTIFF uploaded under [geotiff_url]. *)
Record McdaOutput : Type := {
  final_map : list Q;
  geotiff_url : string;
  tiles_url : option string;
  statistics : Statistics
}.

(** Step 4: the three constraint tests, each guarded by [key in constraints]. *)
Definition constraint_step (declared : option (list bool))
    (constraint_mask : list bool) : res (list bool) :=
  match declared with
  | Some excluded => np.ior constraint_mask excluded
  | None => Ok constraint_mask
  end.

Definition compile_constraints (constraints : Constraints)
    (ghi_data slope_data lulc_data grid_dist_data : list Q) : res (list bool) :=
  let constraint_mask := np.zeros_bool (length ghi_data) in
  (* if "slope_gt" in constraints: constraint_mask |= (slope_data > ...) *)
  constraint_mask ←
    constraint_step (np.gt slope_data <$> slope_gt constraints) constraint_mask;
  (* if "lulc_exclude" in constraints: constraint_mask |= np.isin(lulc_data, ...) *)
  constraint_mask ←
    constraint_step (np.isin lulc_data <$> lulc_exclude constraints) constraint_mask;
  (* if "grid_dist_gt" in constraints: constraint_mask |= (grid_dist_data > ...) *)
  constraint_step (np.gt grid_dist_data <$> grid_dist_gt constraints) constraint_mask.

(** Step 5: [normalized_layers], one entry per recognised key of [weights]. *)
Definition normalize_step (key : string) (weights : list (string * Q))
    (layer : list Q) (normalized_layers : gmap string (list Q))
  : gmap string (list Q) :=
  if dict_contains key weights
  then <[key := layer]> normalized_layers
  else normalized_layers.

Definition normalize_factors (weights : list (string * Q))
    (ghi_data slope_data grid_dist_data road_dist_data : list Q)
  : gmap string (list Q) :=
  let normalized_layers : gmap string (list Q) := ∅ in
  let normalized_layers :=
    normalize_step "ghi" weights
      (normalize_array ghi_data 1000 2500 false) normalized_layers in
  let normalized_layers :=
    normalize_step "slope" weights
      (normalize_array slope_data 0 10 true) normalized_layers in
  let normalized_layers :=
    normalize_step "grid_dist" weights
      (normalize_array grid_dist_data 0 10000 true) normalized_layers in
  normalize_step "road_dist" weights
    (normalize_array road_dist_data 0 5000 true) normalized_layers.

(** Step 6: the loop [for layer_name, weight in weights.items()]. *)
Fixpoint weighted_overlay (items : list (string * Q))
    (normalized_layers : gmap string (list Q)) (final_map : list Q)
  : res (list Q) :=
  match items with
  | [] => Ok final_map
  | (layer_name, weight) :: rest =>
      match normalized_layers !! layer_name with
      | Some layer =>
          (* final_map += normalized_layers[layer_name] * (weight / 100.0) *)
          final_map ← np.iadd final_map (np.scale layer (weight / 100));
          weighted_overlay rest normalized_layers final_map
      | None => weighted_overlay rest normalized_layers final_map
      end
  end.

(** Step 9: the statistics of the masked map. *)
Definition calculate_statistics (ghi_data final_map : list Q)
    (constraint_mask : list bool) : Statistics :=
  let valid_data := np.select_ne final_map nodata_val in
  let nonempty := negb (Nat.eqb (length valid_data) 0) in
  {| total_pixels := length ghi_data;
     valid_pixels := length valid_data;
     excluded_pixels := np.count_true constraint_mask;
     mean_suitability := if nonempty then np.mean valid_data else 0%Q;
     max_suitability := if nonempty then np.max valid_data else 0%Q;
     min_suitability := if nonempty then np.min valid_data else 0%Q;
     std_suitability := if nonempty then np.std valid_data else np.sqrt 0 |}.

(** Step 8, [rasterio.open(result_path, "w", **meta)]: a file of the grid's
    width and height is created; no file of zero width or height can be. *)
Definition rasterio_open_w (size : nat) : res unit :=
  if decide (size = 0) then Raise RasterioIOError else Ok ().

(** The clipped bands the steps 4-9 work on. *)
Record Rasters : Type := {
  ghi_data : list Q;
  slope_data : list Q;
  grid_dist_data : list Q;
  road_dist_data : list Q;
  lulc_data : list Q
}.

(** Steps 4-9 of [process_mcda_job], on the clipped bands. *)
Definition overlay_and_score (job : AnalysisJob.t) (r : Rasters)
  : res McdaOutput :=
  (* 4. Create constraint mask *)
  constraint_mask ←
    compile_constraints (AnalysisJob.constraints_json job)
      (ghi_data r) (slope_data r) (lulc_data r) (grid_dist_data r);
  (* 5. Normalize factors to 0-100 scale *)
  let weights := AnalysisJob.weights_json job in
  let normalized_layers :=
    normalize_factors weights (ghi_data r) (slope_data r) (grid_dist_data r)
      (road_dist_data r) in
  (* 6. Run weighted overlay *)
  final_map ←
    weighted_overlay weights normalized_layers
      (np.zeros (length (ghi_data r)));
  (* 7. Apply constraints *)
  final_map ← np.setmask final_map constraint_mask nodata_val;
  (* 8. Save result to S3 *)
  _ ← rasterio_open_w (length (ghi_data r));
  let result_url :=
    "s3://" ++ S3_RESULTS_BUCKET ++ "/results/mcda_result_"
      ++ pretty (AnalysisJob.id job) ++ ".tif" in
  (* 9. Calculate statistics *)
  Ok {| final_map := final_map;
        geotiff_url := result_url;
        tiles_url := None;
        statistics :=
          calculate_statistics (ghi_data r) final_map constraint_mask |}.

Section Engine.

(** The two library calls the engine rests on: [clip_raster_to_aoi]
    (rasterio: band 1 of the COG at an S3 path, cropped to the AOI) and
    [calculate_slope_from_dem] (richdem: slope in degrees). *)
Variable clip_raster_to_aoi : string -> Geometry -> list Q.
Variable calculate_slope_from_dem : list Q -> list Q.

(** Steps 2-3: clip the source rasters, derive the slope. *)
Definition load_rasters (aoi_geom : Geometry) : Rasters :=
  let ghi_data := clip_raster_to_aoi (DATA_LAYER_CATALOG "ghi") aoi_geom in
  let dem_data := clip_raster_to_aoi (DATA_LAYER_CATALOG "dem") aoi_geom in
  let grid_dist_data :=
    clip_raster_to_aoi (DATA_LAYER_CATALOG "distance_to_grid") aoi_geom in
  let road_dist_data :=
    clip_raster_to_aoi (DATA_LAYER_CATALOG "distance_to_roads") aoi_geom in
  let lulc_data := clip_raster_to_aoi (DATA_LAYER_CATALOG "lulc") aoi_geom in
  let slope_data := calculate_slope_from_dem dem_data in
  {| ghi_data := ghi_data; slope_data := slope_data;
     grid_dist_data := grid_dist_data; road_dist_data := road_dist_data;
     lulc_data := lulc_data |}.

Definition process_mcda_job (db : Session) (job : AnalysisJob.t)
  : res McdaOutput :=
  (* 1. Load AOI geometry *)
  match areas_of_interest db !! AnalysisJob.aoi_id job with
  | None => Raise (ValueError_aoi (AnalysisJob.aoi_id job))
  | Some aoi =>
      let aoi_geom := AreaOfInterest.geom aoi in
      (* logger.info(f"AOI area: {aoi.area_km2:.2f} ...") *)
      match AreaOfInterest.area_km2 aoi with
      | None => Raise TypeError_format
      | Some _ => overlay_and_score job (load_rasters aoi_geom)
      end
  end.

End Engine.

(** ** Binary floating-point numbers and their values *)

(** Powers of two, and the number [m * 2^e]. *)
Definition pow2 (e : Z) : Q := (2 ^ e)%Q.
Definition scaled (m e : Z) : Q := (inject_Z m * pow2 e)%Q.

(** The exact value of a finite number, [(-1)^s * m * 2^e]; 0 for a NaN
    and for the infinities. *)
Definition SF_value (f : spec_float) : Q :=
  match f with
  | S754_finite s m e => scaled (if s then Z.neg m else Z.pos m) e
  | _ => 0%Q
  end.

(** A number: neither a NaN nor an infinity. *)
Definition SF_finite (f : spec_float) : bool :=
  match f with
  | S754_zero _ | S754_finite _ _ _ => true
  | _ => false
  end.

(** ** The engine's arithmetic in binary floating point

    The same statements of [normalize_array] (lines 53-66) and of the
    overlay loop and the masking (lines 233-242), over the numbers NumPy
    computes with: float64 arrays and Python floats are binary64, and
    [final_map] is a float32 array. *)

Module fp.

(** The exact value of a binary64 number, and the test that it is one. *)
Definition value (x : float) : Q := SF_value (Prim2SF x).
Definition finite (x : float) : bool := SF_finite (Prim2SF x).

(** The literal [0.01] of line 22 of analysis_service.py: the binary64
    number nearest to 1/100. *)
Definition tolerance : float := 0x1.47ae147ae147bp-7%float.

(** Python's [sum]: a left fold from 0. *)
Definition py_sum (values : list float) : float :=
  fold_left PrimFloat.add values 0%float.

(** A float32 number as the binary64 number of the same value. *)
Definition widen (f : spec_float) : spec_float :=
  match f with
  | S754_finite s m e => binary_round prec emax s m e
  | _ => f
  end.

(** The conversion of a float64 value to float32: rounding to the nearest
    binary32 number, ties to even, an overflow giving an infinity.  The
    float32 number is kept as the binary64 number of the same value. *)
Definition float32 (x : float) : float :=
  match Prim2SF x with
  | S754_finite s m e => SF2Prim (widen (binary_round 24 128 s m e))
  | _ => x
  end.

(** [np.clip(a, lo, hi)]: a NaN stays, another value goes through
    [minimum(maximum(a, lo), hi)]. *)
Definition maximum (a b : float) : float :=
  if PrimFloat.is_nan a then a else if (b <? a)%float then a else b.
Definition minimum (a b : float) : float :=
  if PrimFloat.is_nan a then a else if (a <? b)%float then a else b.
Definition clip (a lo hi : float) : float := minimum (maximum a lo) hi.

Definition normalize_array (arr : list float) (min_val max_val : float)
    (invert : bool) : list float :=
  (* arr = arr.astype(float) *)
  (* arr = np.clip(arr, min_val, max_val) *)
  let arr := map (fun a => clip a min_val max_val) arr in
  (* norm_arr = (arr - min_val) / (max_val - min_val) *)
  let norm_arr :=
    map (fun a => ((a - min_val) / (max_val - min_val))%float) arr in
  (* if invert: norm_arr = 1 - norm_arr *)
  let norm_arr :=
    if invert then map (fun t => (1 - t)%float) norm_arr else norm_arr in
  (* return norm_arr * 100 *)
  map (fun t => (t * 100)%float) norm_arr.

(** [normalize(normalize(x, 0, 100, invert=False), 0, 100, invert=False)],
    as the specification writes it. *)
Definition normalize_twice (x : float) : list float :=
  normalize_array (normalize_array [x] 0 100 false) 0 100 false.

(** A whole number as a binary64 number. *)
Definition of_Z (k : Z) : float := PrimFloat.of_uint63 (Uint63.of_Z k).

(** Step 5. *)
Definition normalize_step (key : string) (weights : list (string * float))
    (layer : list float) (normalized_layers : gmap string (list float))
  : gmap string (list float) :=
  if dict_contains key weights
  then <[key := layer]> normalized_layers
  else normalized_layers.

Definition normalize_factors (weights : list (string * float))
    (ghi_data slope_data grid_dist_data road_dist_data : list float)
  : gmap string (list float) :=
  let normalized_layers : gmap string (list float) := ∅ in
  let normalized_layers :=
    normalize_step "ghi" weights
      (normalize_array ghi_data 1000 2500 false) normalized_layers in
  let normalized_layers :=
    normalize_step "slope" weights
      (normalize_array slope_data 0 10 true) normalized_layers in
  let normalized_layers :=
    normalize_step "grid_dist" weights
      (normalize_array grid_dist_data 0 10000 true) normalized_layers in
  normalize_step "road_dist" weights
    (normalize_array road_dist_data 0 5000 true) normalized_layers.

(** [np.zeros(shape, dtype=np.float32)]. *)
Definition zeros (n : nat) : list float := replicate n 0%float.

(** [arr * s]: a float64 array times a Python float. *)
Definition scale (arr : list float) (s : float) : list float :=
  map (fun a => (a * s)%float) arr.

(** [a += b] for a float32 array [a] and a float64 array [b]: the sum is
    taken in binary64 and stored as float32. *)
Definition iadd_float32 (a b : list float) : res (list float) :=
  if decide (length a = length b)
  then Ok (zip_with (fun x y => float32 (x + y)%float) a b)
  else Raise ValueError_broadcast.

(** Step 6. *)
Fixpoint weighted_overlay (items : list (string * float))
    (normalized_layers : gmap string (list float)) (final_map : list float)
  : res (list float) :=
  match items with
  | [] => Ok final_map
  | (layer_name, weight) :: rest =>
      match normalized_layers !! layer_name with
      | Some layer =>
          (* final_map += normalized_layers[layer_name] * (weight / 100.0) *)
          final_map ←
            iadd_float32 final_map (scale layer (weight / 100)%float);
          weighted_overlay rest normalized_layers final_map
      | None => weighted_overlay rest normalized_layers final_map
      end
  end.

(** Step 7: [final_map[constraint_mask] = nodata_val]. *)
Definition setmask (a : list float) (m : list bool) (v : float)
  : res (list float) :=
  if decide (length a = length m)
  then Ok (zip_with (fun x (b : bool) => if b then v else x) a m)
  else Raise IndexError_mask.

(** Steps 5-7 on the clipped bands, under a compiled exclusion mask. *)
Definition final_map (weights : list (string * float))
    (ghi_data slope_data grid_dist_data road_dist_data : list float)
    (constraint_mask : list bool) : res (list float) :=
  let normalized_layers :=
    normalize_factors weights ghi_data slope_data grid_dist_data
      road_dist_data in
  final_map ←
    weighted_overlay weights normalized_layers (zeros (length ghi_data));
  setmask final_map constraint_mask (-9999)%float.

End fp.

(** ** Admission  (analysis_service.py, lines 12-42) *)

(** What one call leaves behind: the committed store, the broker queue
    (job ids sent with [run_mcda_analysis.delay]) and the value returned or
    the exception raised. *)
Record Admission : Type := {
  adm_db : Session;
  adm_queue : list Z;
  adm_result : res AnalysisJob.t
}.

(** The weights as the job row holds them: the same numbers, by their
    exact values.  (A NaN or an infinity has no rational value; [fp.value]
    answers 0 for them.) *)
Definition stored_weights (weights : list (string * float))
  : list (string * Q) :=
  map (fun kv => (fst kv, fp.value (snd kv))) weights.

Definition create_and_queue_job (db : Session) (queue : list Z)
    (project_id aoi_id : Z) (data : AnalysisJobCreate) : Admission :=
  (* total_weight = sum(data.weights_json.values()) *)
  let total_weight := fp.py_sum (map snd (new_weights_json data)) in
  (* if abs(total_weight - 100) > 0.01: raise ValueError(...) *)
  if (fp.tolerance <? PrimFloat.abs (total_weight - 100))%float then
    {| adm_db := db; adm_queue := queue;
       adm_result := Raise (ValueError_weights total_weight) |}
  else
    (* db.add(job); db.commit(); db.refresh(job) *)
    let job :=
      AnalysisJob.mk (analysis_jobs_id_seq db) project_id aoi_id PENDING
        (stored_weights (new_weights_json data)) (new_constraints_json data)
        None None None None in
    let db' :=
      {| analysis_jobs := <[AnalysisJob.id job := job]> (analysis_jobs db);
         analysis_jobs_id_seq := (analysis_jobs_id_seq db + 1)%Z;
         areas_of_interest := areas_of_interest db |} in
    (* run_mcda_analysis.delay(job.id) *)
    {| adm_db := db'; adm_queue := queue ++ [AnalysisJob.id job];
       adm_result := Ok job |}.

(** ** The worker task  (tasks.py, lines 32-77) *)

Definition set_running (job : AnalysisJob.t) : AnalysisJob.t :=
  let '(AnalysisJob.mk i p a _ w c ru rt e s) := job in
  AnalysisJob.mk i p a RUNNING w c ru rt e s.

Definition set_complete (job : AnalysisJob.t) (result : McdaOutput)
  : AnalysisJob.t :=
  let '(AnalysisJob.mk i p a _ w c _ _ e _) := job in
  AnalysisJob.mk i p a COMPLETE w c
    (Some (geotiff_url result)) (tiles_url result) e
    (Some (statistics result)).

Definition set_failed (job : AnalysisJob.t) (exc : PyExc) : AnalysisJob.t :=
  let '(AnalysisJob.mk i p a _ w c ru rt _ s) := job in
  AnalysisJob.mk i p a FAILED w c ru rt (Some exc) s.

(** [db.commit()] with [job], the row fetched under primary key [job_id],
    the one modified row. *)
Definition commit (db : Session) (job_id : Z) (job : AnalysisJob.t) : Session :=
  {| analysis_jobs := <[job_id := job]> (analysis_jobs db);
     analysis_jobs_id_seq := analysis_jobs_id_seq db;
     areas_of_interest := areas_of_interest db |}.

(** One delivery of a job id: the store after each commit, oldest first,
    and how the task ended. *)
Record Delivery : Type := {
  commits : list Session;
  outcome : res unit
}.

Section Worker.

Variable clip_raster_to_aoi : string -> Geometry -> list Q.
Variable calculate_slope_from_dem : list Q -> list Q.

Definition run_mcda_analysis (db : Session) (job_id : Z) : Delivery :=
  (* job = db.query(AnalysisJob).filter(AnalysisJob.id == job_id).first() *)
  match analysis_jobs db !! job_id with
  | None => {| commits := []; outcome := Ok () |}
  | Some job =>
      (* job.status = JobStatus.RUNNING; db.commit() *)
      let job := set_running job in
      let db1 := commit db job_id job in
      match
        process_mcda_job clip_raster_to_aoi calculate_slope_from_dem db1 job
      with
      | Ok result =>
          (* job.status = JobStatus.COMPLETE; ...; db.commit() *)
          let job := set_complete job result in
          {| commits := [db1; commit db1 job_id job]; outcome := Ok () |}
      | Raise e =>
          (* job.status = JobStatus.FAILED; job.error_log = str(e);
             db.commit(); raise *)
          let job := set_failed job e in
          {| commits := [db1; commit db1 job_id job]; outcome := Raise e |}
      end
  end.

End Worker.

(** The store a later delivery starts from. *)
Definition store_after (db : Session) (d : Delivery) : Session :=
  List.last (commits d) db.

(** The status of a job in a store. *)
Definition status_in (db : Session) (job_id : Z) : option JobStatus :=
  AnalysisJob.status <$> analysis_jobs db !! job_id.

(** ** Job queries and deletion  (analysis_service.py, lines 45-93) *)

(** The dictionary returned by [get_job_status]. *)
Module JobStatusDict.
Record t : Type := mk {
  job_id : Z;
  status : JobStatus;
  progress_percent : option Z;
  message : option PyExc
}.
End JobStatusDict.

Definition get_job_status (db : Session) (job_id : Z)
  : option JobStatusDict.t :=
  match analysis_jobs db !! job_id with
  | None => None
  | Some job =>
      Some (JobStatusDict.mk (AnalysisJob.id job) (AnalysisJob.status job)
              None
              (* job.error_log if job.status == JobStatus.FAILED else None *)
              (if decide (AnalysisJob.status job = FAILED)
               then AnalysisJob.error_log job else None))
  end.

(** The dictionary returned by [get_job_results]. *)
Module JobResultsDict.
Record t : Type := mk {
  job_id : Z;
  status : JobStatus;
  result_geotiff_url : option string;
  result_tiles_url : option string;
  statistics : option Statistics;
  report_pdf_url : option string
}.
End JobResultsDict.

Definition get_job_results (db : Session) (job_id : Z)
  : option JobResultsDict.t :=
  match analysis_jobs db !! job_id with
  | None => None
  | Some job =>
      (* if not job or job.status != JobStatus.COMPLETE: return None *)
      if decide (AnalysisJob.status job = COMPLETE)
      then Some (JobResultsDict.mk (AnalysisJob.id job) (AnalysisJob.status job)
                   (AnalysisJob.result_url job)
                   (AnalysisJob.result_tiles_url job)
                   (AnalysisJob.stats_json job) None)
      else None
  end.

(** [delete_job]: the store after the call and the returned flag. *)
Definition delete_job (db : Session) (job_id : Z) : Session * bool :=
  match analysis_jobs db !! job_id with
  | None => (db, false)
  | Some _ =>
      (* db.delete(job); db.commit() *)
      ({| analysis_jobs := delete job_id (analysis_jobs db);
          analysis_jobs_id_seq := analysis_jobs_id_seq db;
          areas_of_interest := areas_of_interest db |}, true)
  end.

(** * Vocabulary of the properties *)

(** ** The normalizer, pixel by pixel *)


(** What the code computes for one pixel. *)
Definition normalize_pixel (min_val max_val : Q) (invert : bool) (a : Q) : Q :=
  let t := ((np.clip a min_val max_val - min_val) / (max_val - min_val))%Q in
  ((if invert then (1 - t)%Q else t) * 100)%Q.

(** ** The constraint mask, pixel by pixel *)

(** The exclusion test of one pixel, from its slope, land-cover class and
    grid distance: the disjunction of the declared predicates. *)
Definition constraint_fires (c : Constraints) (slope lulc grid_dist : Q) : bool :=
  from_option (fun v => negb (Qle_bool slope v)) false (slope_gt c)
  || from_option (fun classes => existsb (Qeq_bool lulc) classes) false
       (lulc_exclude c)
  || from_option (fun v => negb (Qle_bool grid_dist v)) false (grid_dist_gt c).

(** ** The overlay contract *)

(** The contract's sum at pixel [i]: over the items of [weights] whose name
    is also a key of [normalized_layers], of (weight / 100) * normalized. *)
Definition overlay_score (weights : list (string * Q))
    (normalized_layers : gmap string (list Q)) (i : nat) : Q :=
  np.sum
    (omap (fun kv : string * Q =>
             (fun layer => (snd kv / 100 * nth i layer 0)%Q)
               <$> normalized_layers !! fst kv)
          weights).

(** ** The valid pixels *)


(** ** The claims that fail, as the specification states them *)

(** C7 as the specification states it: a pixel that is no-data (-9999) in
    the input band of a declared constraint is excluded. *)
Definition nodata_is_excluded (c : Constraints)
    (ghi slope lulc grid_dist : list Q) : Prop :=
  forall mask, compile_constraints c ghi slope lulc grid_dist = Ok mask ->
  forall i, i < length ghi ->
    (is_Some (slope_gt c) -> (nth i slope 0 == nodata_val)%Q ->
     nth i mask false = true)
    /\ (is_Some (lulc_exclude c) -> (nth i lulc 0 == nodata_val)%Q ->
        nth i mask false = true)
    /\ (is_Some (grid_dist_gt c) -> (nth i grid_dist 0 == nodata_val)%Q ->
        nth i mask false = true).

(** The weights sum to 100 within a tolerance of 0.01. *)
Definition within_tolerance (weights : list (string * Q)) : Prop :=
  (Qabs (py_sum (map snd weights) - 100) <= 1 # 100)%Q.

(** The factor names the engine knows. *)
Definition recognized_factors : list string :=
  ["ghi"; "slope"; "grid_dist"; "road_dist"].






(** ** Rounding *)

(** The float with sign [s] and mantissa [m >= 0] at exponent [e]. *)
Definition SF_of (s : bool) (m e : Z) : spec_float :=
  match m with
  | Z0 => S754_zero s
  | Z.pos p => S754_finite s p e
  | Z.neg _ => S754_nan
  end.

(** [v] is [p] rounded: within [2^k] of it, and of the same sign. *)
Definition rounds_to (v p : Q) (k : Z) : Prop :=
  (Qabs (v - p) <= pow2 k)%Q
  /\ ((0 <= p)%Q -> (0 <= v)%Q) /\ ((p <= 0)%Q -> (v <= 0)%Q).

(** A finite binary64 number with a value in [0, hi]. *)
Definition within (x : float) (hi : Q) : Prop :=
  fp.finite x = true /\ (0 <= fp.value x)%Q /\ (fp.value x <= hi)%Q.

(** The items of [weights.items()] that line 236 lets through. *)
Definition contributing (items : list (string * float))
    (normalized_layers : gmap string (list float)) : list (string * float) :=
  List.filter
    (fun kv => match normalized_layers !! fst kv with
               | Some _ => true
               | None => false
               end)
    items.

(** C6 as the specification states it, for the numbers the engine stores:
    with non-negative weights that sum to 100, every score that the mask
    leaves alone lies in [0, 100]. *)
Definition scores_within_0_100 (weights : list (string * float))
    (ghi_data slope_data grid_dist_data road_dist_data : list float)
    (constraint_mask : list bool) : Prop :=
  Forall (fun kv : string * float => (0 <=? snd kv)%float = true) weights ->
  (py_sum (map snd (stored_weights weights)) == 100)%Q ->
  forall final_map,
    fp.final_map weights ghi_data slope_data grid_dist_data road_dist_data
      constraint_mask = Ok final_map ->
    forall i, i < length final_map -> nth i constraint_mask false = false ->
      (0 <=? nth i final_map 0%float)%float = true
      /\ (nth i final_map 0%float <=? 100)%float = true.


(** C3 as the specification states it: a delivery that finds the job in a
    status other than PENDING commits nothing. *)
Definition pending_guarded (clip_raster_to_aoi : string -> Geometry -> list Q)
    (calculate_slope_from_dem : list Q -> list Q) (db : Session) (job_id : Z)
  : Prop :=
  forall job, analysis_jobs db !! job_id = Some job ->
    AnalysisJob.status job <> PENDING ->
    commits (run_mcda_analysis clip_raster_to_aoi calculate_slope_from_dem
               db job_id) = [].

(** The statuses a delivery commits for the job, oldest first. *)
Definition status_history (d : Delivery) (job_id : Z) : list (option JobStatus) :=
  map (fun db => status_in db job_id) (commits d).

(** ** Vocabulary of the further properties *)

(** The same job with other weights. *)
Definition with_weights (job : AnalysisJob.t) (weights : list (string * Q))
  : AnalysisJob.t :=
  let '(AnalysisJob.mk i p a st _ c ru rt e s) := job in
  AnalysisJob.mk i p a st weights c ru rt e s.

(** [name in recognized_factors], as a test. *)
Definition is_recognized (name : string) : bool :=
  bool_decide (name ∈ recognized_factors).

(** The items of a weights mapping whose name the engine knows. *)
Definition recognized_items (weights : list (string * Q)) : list (string * Q) :=
  List.filter (fun kv => is_recognized (fst kv)) weights.

(** Every constraint that [c] declares, [c'] declares with the same value. *)
Definition declares_at_least (c c' : Constraints) : Prop :=
  (forall v, slope_gt c = Some v -> slope_gt c' = Some v)
  /\ (forall classes, lulc_exclude c = Some classes ->
                      lulc_exclude c' = Some classes)
  /\ (forall v, grid_dist_gt c = Some v -> grid_dist_gt c' = Some v).

(** Every primary key in use lies below the next key of the sequence. *)
Definition ids_below_seq (db : Session) : Prop :=
  forall k job, analysis_jobs db !! k = Some job ->
                (k < analysis_jobs_id_seq db)%Z.

(** The parameters of a job that no operation of the worker may touch. *)
Definition job_parameters (job : AnalysisJob.t)
  : Z * Z * Z * list (string * Q) * Constraints :=
  (AnalysisJob.id job, AnalysisJob.project_id job, AnalysisJob.aoi_id job,
   AnalysisJob.weights_json job, AnalysisJob.constraints_json job).

(** ** Concrete jobs *)

Module Demo.

Definition square : Geometry := [(0, 0); (1, 0); (1, 1); (0, 1)]%Q.

Definition aoi : AreaOfInterest.t := AreaOfInterest.mk 1 1 square (Some 1%Q).

(** A data lake given by its five bands after clipping. *)
Definition lake (ghi dem grid_dist road_dist lulc : list Q)
    (s3_path : string) (_ : Geometry) : list Q :=
  if String.eqb s3_path (DATA_LAYER_CATALOG "ghi") then ghi
  else if String.eqb s3_path (DATA_LAYER_CATALOG "dem") then dem
  else if String.eqb s3_path (DATA_LAYER_CATALOG "distance_to_grid") then grid_dist
  else if String.eqb s3_path (DATA_LAYER_CATALOG "distance_to_roads") then road_dist
  else if String.eqb s3_path (DATA_LAYER_CATALOG "lulc") then lulc
  else [].

(** A slope derivation that answers with a fixed slope band. *)
Definition slope_is (slope : list Q) (_ : list Q) : list Q := slope.

Definition no_constraints : Constraints :=
  {| slope_gt := None; lulc_exclude := None; grid_dist_gt := None |}.

Definition job (weights : list (string * Q)) (c : Constraints) (st : JobStatus)
  : AnalysisJob.t :=
  AnalysisJob.mk 1 1 1 st weights c None None None None.

Definition store (j : AnalysisJob.t) : Session :=
  {| analysis_jobs := {[ 1%Z := j ]};
     analysis_jobs_id_seq := 2;
     areas_of_interest := {[ 1%Z := aoi ]} |}.

(** Four pixels: a perfect one, a middling one, a steep one, and one
    outside the AOI polygon (no-data in every band, built-up class). *)
Definition clip4 : string -> Geometry -> list Q :=
  lake [2500; 1750; 1000; -9999]%Q [100; 100; 100; -9999]%Q
       [0; 5000; 0; -9999]%Q [0; 0; 0; -9999]%Q [30; 30; 30; 50]%Q.
Definition slope4 : list Q -> list Q := slope_is [0; 5; 15; -9999]%Q.

Definition weights4 : list (string * Q) :=
  [("ghi", 40); ("slope", 25); ("grid_dist", 20); ("road_dist", 15)]%Q.
Definition constraints4 : Constraints :=
  {| slope_gt := Some 10%Q; lulc_exclude := Some [50; 80]%Q;
     grid_dist_gt := Some 10000%Q |}.

Definition job4 : AnalysisJob.t := job weights4 constraints4 PENDING.

(** One pixel that is no-data in the solar band, a single factor and no
    constraint. *)
Definition clip1 : string -> Geometry -> list Q :=
  lake [-9999]%Q [100]%Q [0]%Q [0]%Q [30]%Q.
Definition slope1 : list Q -> list Q := slope_is [0]%Q.
Definition job1 : AnalysisJob.t := job [("ghi", 100%Q)] no_constraints PENDING.

(** The store after the first delivery of [job4]'s id. *)
Definition delivered_once : Session :=
  store_after (store job4) (run_mcda_analysis clip4 slope4 (store job4) 1).

End Demo.

Definition final_scores (r : res McdaOutput) : option (list Q) :=
  match r with
  | Ok out => Some (map Qred (final_map out))
  | Raise _ => None
  end.

(** Inputs on which rounding shows. *)
Module DemoRounding.

(** Three weights, each a multiple of 2^-18, that sum to 100 exactly:
    77.24633407592773, 17.355632781982422 and 5.398033142089844. *)
Definition weights : list (string * float) :=
  [("ghi", 0x1.34fc3fp+6%float); ("slope", 0x1.15b0acp+4%float);
   ("grid_dist", 0x1.59796p+2%float)].

(** One pixel where the three factors are at their best. *)
Definition ghi_data : list float := [2500%float].
Definition slope_data : list float := [0%float].
Definition grid_dist_data : list float := [0%float].
Definition road_dist_data : list float := [0%float].

End DemoRounding.

Module DemoAdmission.

Definition empty_store : Session :=
  {| analysis_jobs := ∅; analysis_jobs_id_seq := 1; areas_of_interest := ∅ |}.

(** The whole weight on a factor the engine does not know. *)
Definition unknown : AnalysisJobCreate :=
  {| new_weights_json := [("albedo", 100%float)];
     new_constraints_json := Demo.no_constraints |}.

(** Known factors whose weights sum to 99. *)
Definition short : AnalysisJobCreate :=
  {| new_weights_json := [("ghi", 40%float); ("slope", 59%float)];
     new_constraints_json := Demo.no_constraints |}.


(** [{"ghi": 56.87, "slope": 23.69, "grid_dist": 19.43}]: the three
    binary64 numbers sum, exactly, to 99.99 less 1.6e-15; their binary64 sum
    is 99.99000000000001. *)
Definition below : AnalysisJobCreate :=
  {| new_weights_json :=
       [("ghi", 0x1.c6f5c28f5c28fp+5%float);
        ("slope", 0x1.7b0a3d70a3d71p+4%float);
        ("grid_dist", 0x1.36e147ae147aep+4%float)];
     new_constraints_json := Demo.no_constraints |}.


End DemoAdmission.

(** * Properties *)

(** ** The normalizer *)

Lemma normalize_array_map arr min_val max_val invert :
  normalize_array arr min_val max_val invert
  = map (normalize_pixel min_val max_val invert) arr.
Proof.
  unfold normalize_array, normalize_pixel.
  destruct invert; rewrite ?map_map; reflexivity.
Qed.

Lemma normalize_array_length arr min_val max_val invert :
  length (normalize_array arr min_val max_val invert) = length arr.
Proof. rewrite normalize_array_map. apply length_map. Qed.


Lemma clip_range (a lo hi : Q) :
  (lo <= hi)%Q -> (lo <= np.clip a lo hi)%Q /\ (np.clip a lo hi <= hi)%Q.
Proof.
  intros Hle. unfold np.clip. split.
  - apply Q.min_glb; [apply Q.le_max_r | exact Hle].
  - apply Q.le_min_r.
Qed.

Lemma clip_inside (a lo hi : Q) :
  (lo <= a)%Q -> (a <= hi)%Q -> (np.clip a lo hi == a)%Q.
Proof.
  intros Hlo Hhi. unfold np.clip.
  rewrite (Q.max_l a lo Hlo). apply Q.min_l. exact Hhi.
Qed.


Lemma quotient_range (x d : Q) :
  (0 < d)%Q -> (0 <= x)%Q -> (x <= d)%Q -> (0 <= x / d)%Q /\ (x / d <= 1)%Q.
Proof.
  intros Hd H0 H1. split.
  - apply Qle_shift_div_l; lra.
  - apply Qle_shift_div_r; lra.
Qed.

Lemma normalize_pixel_range (min_val max_val : Q) (invert : bool) (a : Q) :
  (min_val < max_val)%Q ->
  (0 <= normalize_pixel min_val max_val invert a)%Q
  /\ (normalize_pixel min_val max_val invert a <= 100)%Q.
Proof.
  intros Hlt. unfold normalize_pixel.
  destruct (clip_range a min_val max_val) as [Hlo Hhi]; [lra |].
  destruct (quotient_range (np.clip a min_val max_val - min_val)
              (max_val - min_val)) as [Ht0 Ht1]; [lra | lra | lra |].
  destruct invert; lra.
Qed.


(** ** Array primitives, pixel by pixel *)

Lemma bind_Ok {A B : Type} (m : res A) (k : A -> res B) (b : B) :
  (m ≫= k) = Ok b -> exists a, m = Ok a /\ k a = Ok b.
Proof. destruct m as [a | e]; simpl; [eauto | discriminate]. Qed.

Lemma nth_zip_with {A B C : Type} (f : A -> B -> C) (a : list A) (b : list B)
    (da : A) (db : B) (dc : C) (i : nat) :
  length a = length b -> i < length a ->
  nth i (zip_with f a b) dc = f (nth i a da) (nth i b db).
Proof.
  revert b i. induction a as [| x a IH]; intros [| y b] i Hlen Hi;
    simpl in *; try lia.
  destruct i as [| i]; [reflexivity |]. apply IH; lia.
Qed.

Lemma nth_map_in {A B : Type} (f : A -> B) (l : list A) (d : A) (d' : B)
    (i : nat) :
  i < length l -> nth i (map f l) d' = f (nth i l d).
Proof.
  intros Hi. rewrite (nth_indep (map f l) d' (f d)).
  - apply map_nth.
  - rewrite length_map. exact Hi.
Qed.

Lemma ior_Ok (m b m' : list bool) :
  np.ior m b = Ok m' -> length m = length b /\ m' = zip_with orb m b.
Proof. unfold np.ior. case_decide; intros Hm; [by inversion Hm | discriminate]. Qed.

Lemma iadd_Ok (a b a' : list Q) :
  np.iadd a b = Ok a' -> length a = length b /\ a' = zip_with Qplus a b.
Proof. unfold np.iadd. case_decide; intros Hm; [by inversion Hm | discriminate]. Qed.

Lemma setmask_Ok (a : list Q) (m : list bool) (v : Q) (a' : list Q) :
  np.setmask a m v = Ok a' ->
  length a = length m
  /\ a' = zip_with (fun x (b : bool) => if b then v else x) a m.
Proof.
  unfold np.setmask. case_decide; intros Hm; [by inversion Hm | discriminate].
Qed.

Lemma length_zip_with_same {A B C : Type} (f : A -> B -> C) (a : list A)
    (b : list B) :
  length a = length b -> length (zip_with f a b) = length a.
Proof. intros H. rewrite length_zip_with. lia. Qed.

(** ** The constraint mask *)

Lemma constraint_step_Ok {V : Type} (test : V -> Q -> bool) (declared : option V)
    (layer : list Q) (m m' : list bool) :
  constraint_step ((fun v => map (test v) layer) <$> declared) m = Ok m' ->
  length m' = length m
  /\ (is_Some declared -> length layer = length m)
  /\ forall i, i < length m ->
       nth i m' false
       = nth i m false
         || from_option (fun v => test v (nth i layer 0%Q)) false declared.
Proof.
  destruct declared as [v |]; simpl.
  - intros H. apply ior_Ok in H as [Hlen ->].
    rewrite length_map in Hlen.
    split; [by apply length_zip_with_same; rewrite length_map |].
    split; [done |].
    intros i Hi. rewrite (nth_zip_with _ _ _ false false) by (rewrite ?length_map; lia).
    f_equal. apply nth_map_in. lia.
  - intros H. inversion H; subst. split; [done |]. split.
    + intros [? ?]; discriminate.
    + intros i _. by rewrite orb_false_r.
Qed.

Lemma nth_zeros_bool (n i : nat) : nth i (np.zeros_bool n) false = false.
Proof.
  unfold np.zeros_bool. revert i. induction n as [| n IH]; intros [| i]; simpl; auto.
Qed.

Lemma nth_zeros (n i : nat) : nth i (np.zeros n) 0%Q = 0%Q.
Proof.
  unfold np.zeros. revert i. induction n as [| n IH]; intros [| i]; simpl; auto.
Qed.

Lemma compile_constraints_Ok (c : Constraints)
    (ghi slope lulc grid_dist : list Q) (mask : list bool) :
  compile_constraints c ghi slope lulc grid_dist = Ok mask ->
  length mask = length ghi
  /\ forall i, i < length ghi ->
       nth i mask false
       = constraint_fires c (nth i slope 0%Q) (nth i lulc 0%Q)
           (nth i grid_dist 0%Q).
Proof.
  unfold compile_constraints. intros H.
  apply bind_Ok in H as (m1 & H1 & H).
  apply bind_Ok in H as (m2 & H2 & H3).
  apply (constraint_step_Ok (fun v a => negb (Qle_bool a v))) in H1
    as (L1 & _ & P1).
  apply (constraint_step_Ok (fun classes a => existsb (Qeq_bool a) classes)) in H2
    as (L2 & _ & P2).
  apply (constraint_step_Ok (fun v a => negb (Qle_bool a v))) in H3
    as (L3 & _ & P3).
  unfold np.zeros_bool in L1. rewrite length_replicate in L1.
  split; [lia |].
  intros i Hi. unfold constraint_fires.
  rewrite P3, P2, P1 by (unfold np.zeros_bool; rewrite ?length_replicate; lia).
  rewrite nth_zeros_bool. reflexivity.
Qed.

Lemma constraint_step_total (declared : option (list bool)) (m : list bool) :
  (forall excluded, declared = Some excluded -> length excluded = length m) ->
  exists m', constraint_step declared m = Ok m' /\ length m' = length m.
Proof.
  intros Hlen. destruct declared as [excluded |]; simpl; [| eauto].
  specialize (Hlen excluded eq_refl). unfold np.ior.
  rewrite decide_True by lia.
  eexists; split; [reflexivity |]. apply length_zip_with_same. lia.
Qed.

Lemma compile_constraints_total (c : Constraints)
    (ghi slope lulc grid_dist : list Q) :
  length slope = length ghi -> length lulc = length ghi ->
  length grid_dist = length ghi ->
  exists mask, compile_constraints c ghi slope lulc grid_dist = Ok mask.
Proof.
  intros Hs Hl Hg. unfold compile_constraints.
  destruct (constraint_step_total (np.gt slope <$> slope_gt c)
              (np.zeros_bool (length ghi))) as (m1 & -> & L1).
  { intros ex Hex. apply fmap_Some in Hex as (v & _ & ->).
    unfold np.gt, np.zeros_bool. rewrite length_map, length_replicate. lia. }
  unfold np.zeros_bool in L1. rewrite length_replicate in L1.
  destruct (constraint_step_total (np.isin lulc <$> lulc_exclude c) m1)
    as (m2 & E2 & L2).
  { intros ex Hex. apply fmap_Some in Hex as (v & _ & ->).
    unfold np.isin. rewrite length_map. lia. }
  destruct (constraint_step_total (np.gt grid_dist <$> grid_dist_gt c) m2)
    as (m3 & E3 & L3).
  { intros ex Hex. apply fmap_Some in Hex as (v & _ & ->).
    unfold np.gt. rewrite length_map. lia. }
  exists m3. simpl. rewrite E2. simpl. exact E3.
Qed.

(** ** The weighted overlay *)

Lemma overlay_score_cons (k : string) (w : Q) (rest : list (string * Q))
    (normalized_layers : gmap string (list Q)) (i : nat) :
  overlay_score ((k, w) :: rest) normalized_layers i
  = match normalized_layers !! k with
    | Some layer =>
        (w / 100 * nth i layer 0 + overlay_score rest normalized_layers i)%Q
    | None => overlay_score rest normalized_layers i
    end.
Proof.
  unfold overlay_score. simpl. destruct (normalized_layers !! k); reflexivity.
Qed.

Lemma weighted_overlay_Ok (items : list (string * Q))
    (normalized_layers : gmap string (list Q)) (final_map out : list Q) :
  weighted_overlay items normalized_layers final_map = Ok out ->
  length out = length final_map
  /\ forall i, i < length final_map ->
       (nth i out 0 == nth i final_map 0
                       + overlay_score items normalized_layers i)%Q.
Proof.
  revert final_map. induction items as [| [k w] rest IH]; intros fm; simpl.
  - intros H. inversion H; subst. split; [done |].
    intros i _. unfold overlay_score. simpl. ring.
  - destruct (normalized_layers !! k) as [layer |] eqn:Hk; simpl.
    + intros H. apply bind_Ok in H as (fm' & Hadd & H).
      apply iadd_Ok in Hadd as [Hlen ->].
      unfold np.scale in Hlen. rewrite length_map in Hlen.
      apply IH in H as [L P].
      rewrite length_zip_with_same in L, P
        by (unfold np.scale; rewrite length_map; lia).
      split; [exact L |].
      intros i Hi. rewrite (P i Hi), overlay_score_cons, Hk.
      rewrite (nth_zip_with _ _ _ 0%Q 0%Q)
        by (unfold np.scale; rewrite ?length_map; lia).
      unfold np.scale. rewrite (nth_map_in _ _ 0%Q) by lia.
      ring.
    + intros H. apply IH in H as [L P]. split; [exact L |].
      intros i Hi. rewrite (P i Hi), overlay_score_cons, Hk. reflexivity.
Qed.

Lemma weighted_overlay_total (items : list (string * Q))
    (normalized_layers : gmap string (list Q)) (final_map : list Q) :
  (forall k layer, normalized_layers !! k = Some layer ->
                   length layer = length final_map) ->
  exists out, weighted_overlay items normalized_layers final_map = Ok out.
Proof.
  revert final_map. induction items as [| [k w] rest IH]; intros fm Hshape;
    simpl; [eauto |].
  destruct (normalized_layers !! k) as [layer |] eqn:Hk; [| by apply IH].
  unfold np.iadd. rewrite decide_True
    by (unfold np.scale; rewrite length_map; symmetry; eauto).
  simpl. apply IH. intros k' layer' Hk'.
  rewrite length_zip_with_same
    by (unfold np.scale; rewrite length_map; symmetry; eauto).
  eauto.
Qed.

(** The keys and values of [normalized_layers]. *)
Lemma normalize_factors_lookup (weights : list (string * Q))
    (ghi slope grid_dist road_dist : list Q) (k : string) (layer : list Q) :
  normalize_factors weights ghi slope grid_dist road_dist !! k = Some layer ->
  dict_contains k weights = true
  /\ ((k = "ghi" /\ layer = normalize_array ghi 1000 2500 false)
      \/ (k = "slope" /\ layer = normalize_array slope 0 10 true)
      \/ (k = "grid_dist" /\ layer = normalize_array grid_dist 0 10000 true)
      \/ (k = "road_dist" /\ layer = normalize_array road_dist 0 5000 true)).
Proof.
  unfold normalize_factors, normalize_step.
  destruct (dict_contains "ghi" weights) eqn:E1;
    destruct (dict_contains "slope" weights) eqn:E2;
    destruct (dict_contains "grid_dist" weights) eqn:E3;
    destruct (dict_contains "road_dist" weights) eqn:E4;
    intros H;
    repeat (apply lookup_insert_Some in H as [[<- <-] | [_ H]]; [by eauto 10 |]);
    by rewrite lookup_empty in H.
Qed.

Lemma normalized_pixel_range (src : list Q) (lo hi : Q) (invert : bool) (i : nat) :
  (lo < hi)%Q ->
  (0 <= nth i (normalize_array src lo hi invert) 0)%Q
  /\ (nth i (normalize_array src lo hi invert) 0 <= 100)%Q.
Proof.
  intros Hlt. rewrite normalize_array_map.
  destruct (decide (i < length src)) as [Hi | Hi].
  - rewrite (nth_map_in _ _ 0%Q) by exact Hi.
    by apply normalize_pixel_range.
  - rewrite nth_overflow by (rewrite length_map; lia). lra.
Qed.

Lemma normalize_factors_range (weights : list (string * Q))
    (ghi slope grid_dist road_dist : list Q) (k : string) (layer : list Q)
    (i : nat) :
  normalize_factors weights ghi slope grid_dist road_dist !! k = Some layer ->
  (0 <= nth i layer 0)%Q /\ (nth i layer 0 <= 100)%Q.
Proof.
  intros H. apply normalize_factors_lookup in H
    as [_ [[_ ->] | [[_ ->] | [[_ ->] | [_ ->]]]]];
    apply normalized_pixel_range; reflexivity.
Qed.

Lemma normalize_factors_shape (weights : list (string * Q))
    (ghi slope grid_dist road_dist : list Q) (k : string) (layer : list Q)
    (n : nat) :
  length ghi = n -> length slope = n -> length grid_dist = n ->
  length road_dist = n ->
  normalize_factors weights ghi slope grid_dist road_dist !! k = Some layer ->
  length layer = n.
Proof.
  intros H1 H2 H3 H4 H. apply normalize_factors_lookup in H
    as [_ [[_ ->] | [[_ ->] | [[_ ->] | [_ ->]]]]];
    by rewrite normalize_array_length.
Qed.

Lemma py_sum_from (values : list Q) (a : Q) :
  (fold_left Qplus values a == a + np.sum values)%Q.
Proof.
  revert a. induction values as [| v values IH]; intros a; simpl.
  - ring.
  - rewrite IH. ring.
Qed.

Lemma py_sum_np_sum (values : list Q) : (py_sum values == np.sum values)%Q.
Proof. unfold py_sum. rewrite py_sum_from. ring. Qed.

Lemma weighted_term_range (w x : Q) :
  (0 <= w)%Q -> (0 <= x)%Q -> (x <= 100)%Q ->
  (0 <= w / 100 * x)%Q /\ (w / 100 * x <= w)%Q.
Proof.
  intros Hw H0 H1.
  assert (Hd : (0 <= w / 100)%Q) by (apply Qle_shift_div_l; lra).
  split.
  - apply Qmult_le_0_compat; assumption.
  - assert (E : (w / 100 * 100 == w)%Q) by field.
    apply Qle_trans with (w / 100 * 100)%Q; [| rewrite E; apply Qle_refl].
    rewrite (Qmult_comm (w / 100) x), (Qmult_comm (w / 100) 100).
    apply Qmult_le_compat_r; assumption.
Qed.

Lemma overlay_score_range (weights : list (string * Q))
    (normalized_layers : gmap string (list Q)) (i : nat) :
  Forall (fun kv : string * Q => (0 <= snd kv)%Q) weights ->
  (forall k layer, normalized_layers !! k = Some layer ->
     (0 <= nth i layer 0)%Q /\ (nth i layer 0 <= 100)%Q) ->
  (0 <= overlay_score weights normalized_layers i)%Q
  /\ (overlay_score weights normalized_layers i <= np.sum (map snd weights))%Q.
Proof.
  intros Hw Hr. induction Hw as [| [k w] rest Hk Hrest IH]; simpl in *.
  - unfold overlay_score. simpl. lra.
  - rewrite overlay_score_cons.
    destruct (normalized_layers !! k) as [layer |] eqn:E.
    + destruct (Hr k layer E) as [H0 H1].
      destruct (weighted_term_range w (nth i layer 0%Q) Hk H0 H1).
      destruct IH. simpl. lra.
    + destruct IH. simpl. lra.
Qed.

(** ** Steps 4-9 together *)

Lemma overlay_and_score_Ok (job : AnalysisJob.t) (r : Rasters) (out : McdaOutput) :
  overlay_and_score job r = Ok out ->
  exists mask,
    compile_constraints (AnalysisJob.constraints_json job)
      (ghi_data r) (slope_data r) (lulc_data r) (grid_dist_data r) = Ok mask
    /\ length mask = length (ghi_data r)
    /\ length (final_map out) = length (ghi_data r)
    /\ statistics out
       = calculate_statistics (ghi_data r) (final_map out) mask
    /\ forall i, i < length (ghi_data r) ->
         if nth i mask false
         then nth i (final_map out) 0%Q = nodata_val
         else (nth i (final_map out) 0
               == overlay_score (AnalysisJob.weights_json job)
                    (normalize_factors (AnalysisJob.weights_json job)
                       (ghi_data r) (slope_data r) (grid_dist_data r)
                       (road_dist_data r)) i)%Q.
Proof.
  unfold overlay_and_score. intros H.
  apply bind_Ok in H as (mask & Hmask & H).
  apply bind_Ok in H as (fm & Hfm & H).
  apply bind_Ok in H as (fm' & Hset & H).
  apply bind_Ok in H as (u & _ & H).
  inversion H; subst; clear H. simpl.
  exists mask. split; [exact Hmask |].
  destruct (compile_constraints_Ok _ _ _ _ _ _ Hmask) as [Lmask _].
  apply weighted_overlay_Ok in Hfm as [Lfm Pfm].
  unfold np.zeros in Lfm, Pfm. rewrite length_replicate in Lfm, Pfm.
  apply setmask_Ok in Hset as [Lset ->].
  rewrite length_zip_with_same by exact Lset.
  repeat split; [exact Lmask | exact Lfm |].
  intros i Hi.
  rewrite (nth_zip_with _ _ _ 0%Q false) by lia.
  destruct (nth i mask false); [reflexivity |].
  rewrite (Pfm i Hi). fold (np.zeros (length (ghi_data r))).
  rewrite nth_zeros. ring.
Qed.

(** A run that succeeds worked on a grid with a pixel. *)
Lemma overlay_and_score_nonempty (job : AnalysisJob.t) (r : Rasters)
    (out : McdaOutput) :
  overlay_and_score job r = Ok out -> length (ghi_data r) <> 0.
Proof.
  unfold overlay_and_score. intros H.
  apply bind_Ok in H as (mask & _ & H).
  apply bind_Ok in H as (fm & _ & H).
  apply bind_Ok in H as (fm' & _ & H).
  apply bind_Ok in H as (u & Hopen & _).
  unfold rasterio_open_w in Hopen.
  destruct (decide (length (ghi_data r) = 0)); [discriminate | assumption].
Qed.

Lemma overlay_and_score_total (job : AnalysisJob.t) (r : Rasters) :
  length (ghi_data r) <> 0 ->
  length (slope_data r) = length (ghi_data r) ->
  length (grid_dist_data r) = length (ghi_data r) ->
  length (road_dist_data r) = length (ghi_data r) ->
  length (lulc_data r) = length (ghi_data r) ->
  exists out, overlay_and_score job r = Ok out.
Proof.
  intros Hne Hs Hg Hr Hl. unfold overlay_and_score.
  destruct (compile_constraints_total (AnalysisJob.constraints_json job)
              (ghi_data r) (slope_data r) (lulc_data r) (grid_dist_data r)
              Hs Hl Hg) as [mask Hmask].
  rewrite Hmask. simpl.
  destruct (compile_constraints_Ok _ _ _ _ _ _ Hmask) as [Lmask _].
  destruct (weighted_overlay_total (AnalysisJob.weights_json job)
              (normalize_factors (AnalysisJob.weights_json job)
                 (ghi_data r) (slope_data r) (grid_dist_data r)
                 (road_dist_data r))
              (np.zeros (length (ghi_data r)))) as [fm Hfm].
  { intros k layer Hk. unfold np.zeros. rewrite length_replicate.
    eapply (normalize_factors_shape _ _ _ _ _ _ _ _ eq_refl Hs Hg Hr Hk). }
  rewrite Hfm. simpl.
  apply weighted_overlay_Ok in Hfm as [Lfm _].
  unfold np.zeros in Lfm. rewrite length_replicate in Lfm.
  unfold np.setmask. rewrite decide_True by lia. simpl.
  unfold rasterio_open_w. rewrite decide_False by exact Hne. simpl. eauto.
Qed.

Section EngineFacts.

Variable clip_raster_to_aoi : string -> Geometry -> list Q.
Variable calculate_slope_from_dem : list Q -> list Q.

Lemma process_mcda_job_Ok (db : Session) (job : AnalysisJob.t)
    (out : McdaOutput) :
  process_mcda_job clip_raster_to_aoi calculate_slope_from_dem db job = Ok out ->
  exists aoi,
    areas_of_interest db !! AnalysisJob.aoi_id job = Some aoi
    /\ overlay_and_score job
         (load_rasters clip_raster_to_aoi calculate_slope_from_dem
            (AreaOfInterest.geom aoi)) = Ok out.
Proof.
  unfold process_mcda_job.
  destruct (areas_of_interest db !! AnalysisJob.aoi_id job) as [aoi |];
    [| discriminate].
  cbv zeta. destruct (AreaOfInterest.area_km2 aoi); [eauto | discriminate].
Qed.

(** The run succeeds when the AOI exists with its area recorded and the
    five bands have one shape, with a pixel at least. *)
Lemma process_mcda_job_total (db : Session) (job : AnalysisJob.t)
    (aoi : AreaOfInterest.t) :
  areas_of_interest db !! AnalysisJob.aoi_id job = Some aoi ->
  is_Some (AreaOfInterest.area_km2 aoi) ->
  length (clip_raster_to_aoi (DATA_LAYER_CATALOG "ghi")
            (AreaOfInterest.geom aoi)) <> 0 ->
  (forall layer,
     layer ∈ ["dem"; "distance_to_grid"; "distance_to_roads"; "lulc"] ->
     length (clip_raster_to_aoi (DATA_LAYER_CATALOG layer)
               (AreaOfInterest.geom aoi))
     = length (clip_raster_to_aoi (DATA_LAYER_CATALOG "ghi")
                 (AreaOfInterest.geom aoi))) ->
  (forall dem, length (calculate_slope_from_dem dem) = length dem) ->
  exists out,
    process_mcda_job clip_raster_to_aoi calculate_slope_from_dem db job
    = Ok out.
Proof.
  intros Haoi [area Harea] Hne Hshape Hslope.
  unfold process_mcda_job. rewrite Haoi. cbv zeta. rewrite Harea.
  apply overlay_and_score_total; simpl.
  - exact Hne.
  - rewrite Hslope. apply Hshape. set_solver.
  - apply Hshape. set_solver.
  - apply Hshape. set_solver.
  - apply Hshape. set_solver.
Qed.

End EngineFacts.

(** ** Counting valid and excluded pixels *)


Lemma count_true_complement (m : list bool) :
  length (List.filter negb m) + np.count_true m = length m.
Proof.
  unfold np.count_true. induction m as [| [|] m IH]; simpl; lia.
Qed.

Example demo_job4_scores :
  final_scores (process_mcda_job Demo.clip4 Demo.slope4 (Demo.store Demo.job4) Demo.job4)
  = Some [100; 115 # 2; -9999; -9999]%Q.
Proof. vm_compute. reflexivity. Qed.

Example demo_job4_statistics :
  (fun st => (total_pixels st, valid_pixels st, excluded_pixels st))
    <$> (match process_mcda_job Demo.clip4 Demo.slope4 (Demo.store Demo.job4) Demo.job4
         with Ok out => Some (statistics out) | Raise _ => None end)
  = Some (4, 2, 2).
Proof. vm_compute. reflexivity. Qed.

(** ** Claims about the normalizer *)



(** Over exact numbers, normalizing twice with bounds (0, 100) gives the
    values of [0, 100] back. *)
Lemma normalize_twice_exact (arr : list Q) :
  Forall (fun x => (0 <= x)%Q /\ (x <= 100)%Q) arr ->
  Forall2 Qeq
    (normalize_array (normalize_array arr 0 100 false) 0 100 false) arr.
Proof.
  intros Hr. rewrite !normalize_array_map, map_map.
  induction Hr as [| x arr [H0 H1] _ IH]; simpl; constructor; [| exact IH].
  assert (E : (normalize_pixel 0 100 false x == x)%Q).
  { unfold normalize_pixel. rewrite (clip_inside x 0 100 H0 H1). field. }
  unfold normalize_pixel at 1.
  rewrite (clip_inside (normalize_pixel 0 100 false x) 0 100)
    by (rewrite E; assumption).
  rewrite E. field.
Qed.

(** C2 (as the code behaves).  A no-data pixel of a factor band is clipped
    like any other value: the normalizer turns -9999 into the score of the
    lower clip bound (0, or 100 for an inverted factor), and the job's output
    at that pixel is a number, not -9999. *)
Theorem nodata_becomes_a_score :
  map Qred (normalize_array [nodata_val] 1000 2500 false) = [0%Q]
  /\ map Qred (normalize_array [nodata_val] 0 10 true) = [100%Q]
  /\ final_scores
       (process_mcda_job Demo.clip1 Demo.slope1 (Demo.store Demo.job1) Demo.job1)
     = Some [0%Q].
Proof. repeat split; vm_compute; reflexivity. Qed.

(** ** Claims about the engine *)






Section EngineClaims.

Variable clip_raster_to_aoi : string -> Geometry -> list Q.
Variable calculate_slope_from_dem : list Q -> list Q.

Local Abbreviation run :=
  (process_mcda_job clip_raster_to_aoi calculate_slope_from_dem).
Local Abbreviation rasters :=
  (load_rasters clip_raster_to_aoi calculate_slope_from_dem).



End EngineClaims.



(** ** Claims about the constraint mask *)

Lemma constraint_fires_iff (c : Constraints) (slope lulc grid_dist : Q) :
  constraint_fires c slope lulc grid_dist = true
  <-> (exists v, slope_gt c = Some v /\ (v < slope)%Q)
      \/ (exists classes x,
            lulc_exclude c = Some classes /\ In x classes /\ (lulc == x)%Q)
      \/ (exists v, grid_dist_gt c = Some v /\ (v < grid_dist)%Q).
Proof.
  assert (Hgt : forall a v : Q, negb (Qle_bool a v) = true <-> (v < a)%Q).
  { intros a v. rewrite negb_true_iff, <- not_true_iff_false, Qle_bool_iff.
    split; [apply Qnot_le_lt | apply Qlt_not_le]. }
  unfold constraint_fires. rewrite !orb_true_iff. split.
  - intros [[H | H] | H].
    + destruct (slope_gt c) as [v |]; simpl in H; [| discriminate].
      left. exists v. split; [reflexivity | by apply Hgt].
    + destruct (lulc_exclude c) as [cs |]; simpl in H; [| discriminate].
      apply existsb_exists in H as (x & Hin & Hx). apply Qeq_bool_iff in Hx.
      right; left. exists cs, x. auto.
    + destruct (grid_dist_gt c) as [v |]; simpl in H; [| discriminate].
      right; right. exists v. split; [reflexivity | by apply Hgt].
  - intros [(v & -> & Hv) | [(cs & x & -> & Hin & Hx) | (v & -> & Hv)]]; simpl.
    + left; left. by apply Hgt.
    + left; right. apply existsb_exists. exists x.
      split; [exact Hin | by apply Qeq_bool_iff].
    + right. by apply Hgt.
Qed.

(** C7 (amended).  The compiled mask has the shape of the analysis grid and
    marks a pixel exactly when a declared predicate holds of the pixel's own
    value: slope above [slope_gt], land-cover class in [lulc_exclude], grid
    distance above [grid_dist_gt].  No test for no-data is made. *)
Theorem exclusion_mask_predicates (c : Constraints)
    (ghi slope lulc grid_dist : list Q) (mask : list bool) :
  compile_constraints c ghi slope lulc grid_dist = Ok mask ->
  length mask = length ghi
  /\ forall i, i < length ghi ->
       (nth i mask false = true
        <-> (exists v, slope_gt c = Some v /\ (v < nth i slope 0)%Q)
            \/ (exists classes x,
                  lulc_exclude c = Some classes /\ In x classes
                  /\ (nth i lulc 0 == x)%Q)
            \/ (exists v, grid_dist_gt c = Some v
                          /\ (v < nth i grid_dist 0)%Q)).
Proof.
  intros H. apply compile_constraints_Ok in H as [L P].
  split; [exact L |]. intros i Hi. rewrite (P i Hi).
  apply constraint_fires_iff.
Qed.

Lemma exclusion_mask_predicates_witness :
  compile_constraints Demo.constraints4 [2500; 1750; 1000; -9999]%Q
    [0; 5; 15; -9999]%Q [30; 30; 30; 50]%Q [0; 5000; 0; -9999]%Q
  = Ok [false; false; true; true]
  /\ (nth 2 [false; false; true; true] false = true
      <-> (exists v, slope_gt Demo.constraints4 = Some v
                     /\ (v < nth 2 [0; 5; 15; -9999]%Q 0)%Q)
          \/ (exists classes x,
                lulc_exclude Demo.constraints4 = Some classes /\ In x classes
                /\ (nth 2 [30; 30; 30; 50]%Q 0 == x)%Q)
          \/ (exists v, grid_dist_gt Demo.constraints4 = Some v
                        /\ (v < nth 2 [0; 5000; 0; -9999]%Q 0)%Q)).
Proof.
  assert (E : compile_constraints Demo.constraints4 [2500; 1750; 1000; -9999]%Q
                [0; 5; 15; -9999]%Q [30; 30; 30; 50]%Q [0; 5000; 0; -9999]%Q
              = Ok [false; false; true; true]) by (vm_compute; reflexivity).
  split; [exact E |].
  apply (proj2 (exclusion_mask_predicates _ _ _ _ _ _ E) 2%nat).
  simpl. lia.
Defined.

(** C7 fails as stated: with [{"slope_gt": 10}], a pixel whose slope is
    no-data (-9999) is not excluded, since -9999 > 10 is false; with the
    whole weight on slope that pixel even scores 100. *)
Lemma nodata_is_excluded_counterexample :
  ~ nodata_is_excluded
      {| slope_gt := Some 10%Q; lulc_exclude := None; grid_dist_gt := None |}
      [2000%Q] [nodata_val] [30%Q] [0%Q].
Proof.
  intros Hclaim.
  specialize (Hclaim [false] eq_refl 0%nat (Nat.lt_0_succ 0)) as [Hslope _].
  specialize (Hslope (ex_intro _ 10%Q eq_refl) (Qeq_refl nodata_val)).
  discriminate Hslope.
Qed.

(** * Binary floating point *)

(** ** Powers of two and binary digits *)

Lemma pow2_pos (e : Z) : (0 < pow2 e)%Q.
Proof. apply Qpower_0_lt. reflexivity. Qed.

Lemma pow2_add (a b : Z) : (pow2 (a + b) == pow2 a * pow2 b)%Q.
Proof. apply Qpower_plus. discriminate. Qed.

Lemma pow2_le (a b : Z) : (a <= b)%Z -> (pow2 a <= pow2 b)%Q.
Proof. intros H. apply Qpower_le_compat_l; [exact H | discriminate]. Qed.

Lemma pow2_lt (a b : Z) : (a < b)%Z -> (pow2 a < pow2 b)%Q.
Proof. intros H. apply Qpower_lt_compat_l; [exact H | reflexivity]. Qed.

Lemma pow2_lt_inv (a b : Z) : (pow2 a < pow2 b)%Q -> (a < b)%Z.
Proof.
  intros H. destruct (Z_lt_le_dec a b) as [L | L]; [exact L |].
  apply pow2_le in L. lra.
Qed.

Lemma pow2_Z (n : Z) : (0 <= n)%Z -> (pow2 n == inject_Z (2 ^ n))%Q.
Proof. intros H. unfold pow2. by rewrite Zpower_Qpower. Qed.

Lemma pow2_succ (e : Z) : (pow2 (e + 1) == 2 * pow2 e)%Q.
Proof. rewrite pow2_add. change (pow2 1) with 2%Q. ring. Qed.

Lemma scaled_shift (m e n : Z) :
  (0 <= n)%Z -> (scaled (m * 2 ^ n) e == scaled m (e + n))%Q.
Proof.
  intros H. unfold scaled. rewrite inject_Z_mult, pow2_add, (pow2_Z n H). ring.
Qed.

Lemma scaled_le (m m' e : Z) : (m <= m')%Z -> (scaled m e <= scaled m' e)%Q.
Proof.
  intros H. unfold scaled. apply Qmult_le_compat_r.
  - by rewrite <- Zle_Qle.
  - apply Qlt_le_weak, pow2_pos.
Qed.

Lemma scaled_lt (m m' e : Z) : (m < m')%Z -> (scaled m e < scaled m' e)%Q.
Proof.
  intros H. unfold scaled. apply Qmult_lt_compat_r.
  - apply pow2_pos.
  - by rewrite <- Zlt_Qlt.
Qed.

Lemma scaled_succ (m e : Z) : (scaled (m + 1) e == scaled m e + pow2 e)%Q.
Proof. unfold scaled. rewrite inject_Z_plus. change (inject_Z 1) with 1%Q. ring. Qed.

(** Number of binary digits *)
Lemma digits2_pos_bounds (p : positive) :
  (2 ^ (Z.pos (digits2_pos p) - 1) <= Z.pos p < 2 ^ Z.pos (digits2_pos p))%Z.
Proof.
  induction p as [p IH | p IH |]; simpl digits2_pos.
  - rewrite Pos2Z.inj_succ.
    replace (Z.succ (Z.pos (digits2_pos p)) - 1)%Z
      with (Z.succ (Z.pos (digits2_pos p) - 1))%Z by lia.
    rewrite !Z.pow_succ_r by lia. lia.
  - rewrite Pos2Z.inj_succ.
    replace (Z.succ (Z.pos (digits2_pos p)) - 1)%Z
      with (Z.succ (Z.pos (digits2_pos p) - 1))%Z by lia.
    rewrite !Z.pow_succ_r by lia. lia.
  - simpl. lia.
Qed.

Lemma Zdigits2_bounds (m : Z) :
  (0 < m)%Z -> (2 ^ (Zdigits2 m - 1) <= m < 2 ^ Zdigits2 m)%Z.
Proof. destruct m as [| p | p]; try lia. intros _. apply digits2_pos_bounds. Qed.

Lemma Zdigits2_nonneg (m : Z) : (0 <= Zdigits2 m)%Z.
Proof. destruct m; simpl; lia. Qed.

(** A number below [2^b] with mantissa [m > 0] at exponent [e] has
    [digits m + e <= b]. *)
Lemma digits_le_of_lt (m e b : Z) :
  (0 < m)%Z -> (scaled m e < pow2 b)%Q -> (Zdigits2 m + e <= b)%Z.
Proof.
  intros Hm H. destruct (Zdigits2_bounds m Hm) as [Hlo _].
  assert (Hd : (0 <= Zdigits2 m - 1)%Z)
    by (destruct m; simpl in *; lia).
  assert (L : (pow2 (Zdigits2 m - 1 + e) <= scaled m e)%Q).
  { rewrite pow2_add, (pow2_Z _ Hd). unfold scaled.
    apply Qmult_le_compat_r; [by rewrite <- Zle_Qle |].
    apply Qlt_le_weak, pow2_pos. }
  assert (Hlt : (pow2 (Zdigits2 m - 1 + e) < pow2 b)%Q) by lra.
  apply pow2_lt_inv in Hlt. lia.
Qed.

(** Shifting right *)
Lemma shr_1_m (mrs : shr_record) :
  (0 <= shr_m mrs)%Z -> shr_m (shr_1 mrs) = (shr_m mrs / 2)%Z.
Proof.
  destruct mrs as [m r s]. destruct m as [| [p | p |] | p];
    cbn [shr_1 shr_m]; try lia; intros _; try reflexivity.
  - apply Z.div_unique with 1%Z; lia.
  - apply Z.div_unique with 0%Z; lia.
Qed.

Lemma shr_1_nonneg (mrs : shr_record) :
  (0 <= shr_m mrs)%Z -> (0 <= shr_m (shr_1 mrs))%Z.
Proof.
  destruct mrs as [m r s]. simpl. destruct m as [| [p | p |] | p]; simpl; lia.
Qed.

Lemma iter_shr_1_m (p : positive) : forall mrs,
  (0 <= shr_m mrs)%Z ->
  (0 <= shr_m (SpecFloat.iter_pos shr_1 p mrs))%Z
  /\ shr_m (SpecFloat.iter_pos shr_1 p mrs) = (shr_m mrs / 2 ^ Z.pos p)%Z.
Proof.
  induction p as [p IH | p IH |]; intros mrs H; simpl.
  - destruct (IH (shr_1 mrs) (shr_1_nonneg _ H)) as [N1 E1].
    destruct (IH _ N1) as [N2 E2].
    split; [exact N2 |].
    rewrite E2, E1, shr_1_m by exact H.
    rewrite !Z.div_div by lia. f_equal.
    rewrite Pos2Z.pos_xI, Z.pow_add_r, Z.pow_mul_r by lia.
    change (2 ^ 2)%Z with 4%Z. change (2 ^ 1)%Z with 2%Z.
    rewrite <- Z.pow_add_r by lia.
    replace (Z.pos p + Z.pos p)%Z with (2 * Z.pos p)%Z by lia.
    rewrite Z.pow_mul_r by lia. change (2 ^ 2)%Z with 4%Z. lia.
  - destruct (IH mrs H) as [N1 E1].
    destruct (IH _ N1) as [N2 E2].
    split; [exact N2 |].
    rewrite E2, E1. rewrite Z.div_div by lia. f_equal.
    rewrite Pos2Z.pos_xO, <- Z.pow_add_r by lia. f_equal. lia.
  - split; [by apply shr_1_nonneg |]. rewrite shr_1_m by exact H.
    reflexivity.
Qed.

Lemma shr_spec (mrs : shr_record) (e n : Z) :
  (0 <= shr_m mrs)%Z ->
  snd (shr mrs e n) = (e + Z.max n 0)%Z
  /\ shr_m (fst (shr mrs e n)) = (shr_m mrs / 2 ^ Z.max n 0)%Z.
Proof.
  intros H. destruct n as [| p | p]; simpl.
  - split; [lia | by rewrite Z.div_1_r].
  - destruct (iter_shr_1_m p mrs H) as [_ E]. split; [lia | exact E].
  - split; [lia | by rewrite Z.div_1_r].
Qed.

Lemma scaled_inj (m m' e : Z) : (scaled m e == scaled m' e)%Q -> m = m'.
Proof.
  intros H. destruct (Z.lt_trichotomy m m') as [L | [E | L]]; [| exact E |].
  - apply (scaled_lt _ _ e) in L. lra.
  - apply (scaled_lt _ _ e) in L. lra.
Qed.

(** Shifting out zeros loses nothing. *)
Lemma shr_1_exact (c : Z) :
  (0 <= c)%Z ->
  shr_1 {| shr_m := c * 2; shr_r := false; shr_s := false |}
  = {| shr_m := c; shr_r := false; shr_s := false |}.
Proof.
  intros H. rewrite Z.mul_comm. destruct c as [| p | p]; try lia; reflexivity.
Qed.

Lemma iter_shr_1_exact (p : positive) : forall c : Z,
  (0 <= c)%Z ->
  SpecFloat.iter_pos shr_1 p
    {| shr_m := c * 2 ^ Z.pos p; shr_r := false; shr_s := false |}
  = {| shr_m := c; shr_r := false; shr_s := false |}.
Proof.
  induction p as [p IH | p IH |]; intros c H; cbn [SpecFloat.iter_pos].
  - replace (c * 2 ^ Z.pos p~1)%Z with (c * 2 ^ Z.pos p * 2 ^ Z.pos p * 2)%Z.
    + rewrite shr_1_exact, IH, IH; [reflexivity | lia | |].
      * apply Z.mul_nonneg_nonneg; [lia | apply Z.pow_nonneg; lia].
      * repeat apply Z.mul_nonneg_nonneg; try lia; apply Z.pow_nonneg; lia.
    + rewrite Pos2Z.pos_xI, Z.pow_add_r, Z.pow_mul_r by lia.
      change (2 ^ 2)%Z with 4%Z. change (2 ^ 1)%Z with 2%Z.
      rewrite <- !Z.mul_assoc. f_equal.
      rewrite Z.mul_assoc, <- Z.pow_add_r by lia.
      replace (Z.pos p + Z.pos p)%Z with (2 * Z.pos p)%Z by lia.
      rewrite Z.pow_mul_r by lia. reflexivity.
  - replace (c * 2 ^ Z.pos p~0)%Z with (c * 2 ^ Z.pos p * 2 ^ Z.pos p)%Z.
    + rewrite IH, IH; [reflexivity | lia |].
      apply Z.mul_nonneg_nonneg; [lia | apply Z.pow_nonneg; lia].
    + rewrite Pos2Z.pos_xO, <- Z.mul_assoc, <- Z.pow_add_r by lia.
      f_equal. f_equal. lia.
  - change (2 ^ 1)%Z with 2%Z. by apply shr_1_exact.
Qed.

(** ** Rounding a mantissa *)

Lemma floor_scaled (m e n : Z) :
  (0 <= n)%Z ->
  (scaled (m / 2 ^ n) (e + n) <= scaled m e)%Q
  /\ (scaled (m + 1) e <= scaled (m / 2 ^ n + 1) (e + n))%Q.
Proof.
  intros Hn. rewrite <- !scaled_shift by exact Hn.
  assert (Hp : (0 < 2 ^ n)%Z) by (apply Z.pow_pos_nonneg; lia).
  pose proof (Z.mul_div_le m (2 ^ n) Hp).
  pose proof (Z.mul_succ_div_gt m (2 ^ n) Hp).
  split; apply scaled_le; lia.
Qed.

Lemma round_nearest_even_cases (m : Z) (l : location) :
  round_nearest_even m l = m \/ round_nearest_even m l = (m + 1)%Z.
Proof.
  destruct l as [| []]; simpl; auto. destruct (Z.even m); auto.
Qed.

Section Rounding.

Variables prec emax : Z.
Hypothesis prec_pos : (0 < prec)%Z.

Local Abbreviation emin := (SpecFloat.emin prec emax).
Local Abbreviation fexp := (SpecFloat.fexp prec emax).

(** The exponent that [shr_fexp] settles on, for a mantissa below [2^b]. *)
Lemma shr_fexp_spec (m e : Z) (l : location) (b : Z) :
  (0 <= m)%Z -> (scaled m e < pow2 b)%Q ->
  exists m' e',
    shr_m (fst (shr_fexp prec emax m e l)) = m'
    /\ snd (shr_fexp prec emax m e l) = e'
    /\ (0 <= m')%Z /\ (e <= e')%Z
    /\ (e' <= Z.max e (Z.max (b - prec) emin))%Z
    /\ (scaled m' e' <= scaled m e)%Q
    /\ (scaled (m + 1) e <= scaled (m' + 1) e')%Q
    /\ (m' < 2 ^ prec)%Z /\ (emin <= e')%Z
    /\ (l = loc_Exact -> (scaled m' e' == scaled m e)%Q ->
        loc_of_shr_record (fst (shr_fexp prec emax m e l)) = loc_Exact).
Proof.
  intros Hm Hb. unfold shr_fexp.
  set (n := (fexp (Zdigits2 m + e) - e)%Z).
  assert (Hrec : shr_m (shr_record_of_loc m l) = m) by (by destruct l as [| []]).
  destruct (shr_spec (shr_record_of_loc m l) e n) as [He Hm'];
    [by rewrite Hrec |].
  rewrite Hrec in Hm'. exists (m / 2 ^ Z.max n 0%Z)%Z, (e + Z.max n 0%Z)%Z.
  assert (Hp : (0 < 2 ^ Z.max n 0)%Z) by (apply Z.pow_pos_nonneg; lia).
  split; [exact Hm' |]. split; [exact He |].
  split; [apply Z.div_pos; [exact Hm | exact Hp] |].
  split; [lia |].
  assert (Hd : (m = 0 \/ 0 < m /\ Zdigits2 m + e <= b)%Z).
  { destruct (Z.eq_dec m 0%Z) as [-> | Hne]; [by left | right].
    split; [lia |]. apply digits_le_of_lt; [lia | exact Hb]. }
  split.
  { unfold n, SpecFloat.fexp.
    destruct Hd as [-> | [_ Hd]]; [simpl Zdigits2 |]; lia. }
  split; [apply floor_scaled; lia |]. split; [apply floor_scaled; lia |].
  split.
  { destruct Hd as [-> | [Hpos _]].
    - rewrite Z.div_0_l by lia. apply Z.pow_pos_nonneg; lia.
    - destruct (Zdigits2_bounds m Hpos) as [_ Hhi].
      pose proof (Zdigits2_nonneg m) as Hdn.
      apply Z.div_lt_upper_bound; [exact Hp |].
      rewrite <- Z.pow_add_r by lia.
      apply Z.lt_le_trans with (2 ^ Zdigits2 m)%Z; [exact Hhi |].
      apply Z.pow_le_mono_r; [lia |].
      unfold n, SpecFloat.fexp. lia. }
  split; [unfold n, SpecFloat.fexp; lia |].
  intros -> Hex. cbn [shr_record_of_loc].
  destruct n as [| p | p] eqn:En; cbn [shr fst]; try reflexivity.
  change (Z.max (Z.pos p) 0) with (Z.pos p) in *.
  rewrite <- scaled_shift in Hex by lia. apply scaled_inj in Hex.
  rewrite <- Hex at 1.
  rewrite iter_shr_1_exact; [reflexivity |].
  apply Z.div_pos; [exact Hm | exact Hp].
Qed.

(** [binary_round_aux] on a number [y] of [[m * 2^e, (m + 1) * 2^e)],
    below [2^b]: the result is a zero or a fp.finite number, at an exponent
    of at most [E], within [2^(E + 1)] of [y]; and it does not exceed a
    power of two that [y] does not exceed. *)
Lemma binary_round_aux_error (sx : bool) (mx ex : Z) (lx : location)
    (y : Q) (b : Z) :
  (0 <= mx)%Z ->
  (scaled mx ex <= y)%Q -> (y < scaled (mx + 1) ex)%Q -> (y < pow2 b)%Q ->
  (ex <= b)%Z -> (emin <= b)%Z ->
  (Z.max ex (Z.max (b + 1 - prec) emin) <= emax - prec)%Z ->
  exists m e,
    binary_round_aux prec emax sx mx ex lx = SF_of sx m e
    /\ (0 <= m < 2 ^ prec)%Z
    /\ (emin <= e <= Z.max ex (Z.max (b + 1 - prec) emin))%Z
    /\ (Qabs (scaled m e - y)
        <= pow2 (Z.max ex (Z.max (b + 1 - prec) emin) + 1))%Q
    /\ (forall k : Z,
          (y <= pow2 k)%Q ->
          ((y == scaled mx ex)%Q -> lx = loc_Exact) ->
          (Z.max ex (Z.max (b - prec) emin) <= k)%Z ->
          (scaled m e <= pow2 k)%Q).
Proof.
  intros Hm Hlo Hhi Hb Hex Hemin Hno.
  set (E := Z.max ex (Z.max (b + 1 - prec) emin)) in *.
  unfold binary_round_aux.
  destruct (shr_fexp_spec mx ex lx b Hm)
    as (m1 & e1 & Em1 & Ee1 & N1 & L1 & U1 & F1 & C1 & B1 & M1 & X1);
    [lra |].
  destruct (shr_fexp prec emax mx ex lx) as [mrs1 e1'] eqn:S1.
  simpl in Em1, Ee1, X1. subst e1'.
  set (mr := round_nearest_even (shr_m mrs1) (loc_of_shr_record mrs1)).
  assert (Hmr : mr = m1 \/ mr = (m1 + 1)%Z)
    by (unfold mr; rewrite Em1; apply round_nearest_even_cases).
  assert (Nr : (0 <= mr)%Z) by lia.
  assert (Hr1 : (scaled m1 e1 <= scaled mr e1)%Q) by (apply scaled_le; lia).
  assert (Hr2 : (scaled mr e1 <= scaled (m1 + 1) e1)%Q) by (apply scaled_le; lia).
  assert (He1b : (e1 <= b)%Z) by lia.
  assert (Hrb : (scaled mr e1 < pow2 (b + 1))%Q).
  { rewrite pow2_succ. pose proof (scaled_succ m1 e1).
    pose proof (pow2_le e1 b He1b). lra. }
  destruct (shr_fexp_spec mr e1 loc_Exact (b + 1) Nr Hrb)
    as (m2 & e2 & Em2 & Ee2 & N2 & L2 & U2 & F2 & C2 & B2 & M2 & _).
  destruct (shr_fexp prec emax mr e1 loc_Exact) as [mrs2 e2'] eqn:S2.
  simpl in Em2, Ee2. subst e2'.
  assert (He2 : (e2 <= E)%Z) by (unfold E; lia).
  exists m2, e2. rewrite Em2.
  split.
  { destruct m2 as [| p | p]; simpl; try reflexivity.
    rewrite (proj2 (Z.leb_le e2 (emax - prec))) by lia. reflexivity. }
  split; [lia |]. split; [lia |].
  pose proof (scaled_succ mx ex). pose proof (scaled_succ m1 e1).
  pose proof (scaled_succ mr e1). pose proof (scaled_succ m2 e2).
  pose proof (pow2_le e1 E ltac:(unfold E; lia)).
  pose proof (pow2_le e2 E He2).
  split.
  { rewrite pow2_succ. apply Qabs_Qle_condition. split; lra. }
  intros k Hk Hexact Hek.
  assert (Ek : (pow2 k == scaled (2 ^ (k - e1)) e1)%Q).
  { unfold scaled. rewrite <- pow2_Z, <- pow2_add by lia.
    by replace (k - e1 + e1)%Z with k by lia. }
  apply Qle_trans with (scaled mr e1); [exact F2 |].
  destruct (Z_lt_le_dec m1 (2 ^ (k - e1))) as [Lt | Ge].
  - rewrite Ek. apply scaled_le. lia.
  - apply (scaled_le _ _ e1) in Ge. rewrite <- Ek in Ge.
    assert (Eq1 : (scaled m1 e1 == scaled mx ex)%Q) by lra.
    assert (Eq2 : (y == scaled mx ex)%Q) by lra.
    specialize (X1 (Hexact Eq2) Eq1).
    unfold mr. rewrite X1, Em1. cbn [round_nearest_even]. lra.
Qed.

End Rounding.

(** ** The values of binary floating-point numbers *)

Lemma scaled_opp (m e : Z) : (scaled (- m) e == - scaled m e)%Q.
Proof. unfold scaled. rewrite inject_Z_opp. ring. Qed.

Lemma scaled_0 (e : Z) : (scaled 0 e == 0)%Q.
Proof. unfold scaled. change (inject_Z 0) with 0%Q. ring. Qed.

Lemma scaled_pos (m e : Z) : (0 < m)%Z -> (0 < scaled m e)%Q.
Proof.
  intros H. rewrite <- (scaled_0 e). by apply scaled_lt.
Qed.

Lemma scaled_nonneg (m e : Z) : (0 <= m)%Z -> (0 <= scaled m e)%Q.
Proof.
  intros H. rewrite <- (scaled_0 e). by apply scaled_le.
Qed.

Lemma SF_value_SF_of (s : bool) (m e : Z) :
  (0 <= m)%Z ->
  (SF_value (SF_of s m e) == if s then - scaled m e else scaled m e)%Q.
Proof.
  intros H. destruct m as [| p | p]; cbn [SF_of SF_value]; try lia.
  - destruct s; rewrite scaled_0; reflexivity.
  - destruct s; [| reflexivity].
    change (Z.neg p) with (- Z.pos p)%Z. apply scaled_opp.
Qed.

Lemma SF_finite_SF_of (s : bool) (m e : Z) :
  (0 <= m)%Z -> SF_finite (SF_of s m e) = true.
Proof. destruct m; simpl; try reflexivity; lia. Qed.

Lemma SF_value_finite_abs (s : bool) (m : positive) (e : Z) :
  (Qabs (SF_value (S754_finite s m e)) == scaled (Z.pos m) e)%Q.
Proof.
  cbn [SF_value]. destruct s.
  - change (Z.neg m) with (- Z.pos m)%Z. rewrite scaled_opp, Qabs_opp.
    apply Qabs_pos, scaled_nonneg. lia.
  - apply Qabs_pos, scaled_nonneg. lia.
Qed.

Section Valid.

Variables prec emax : Z.
Hypothesis prec_pos : (0 < prec)%Z.

Local Abbreviation emin := (SpecFloat.emin prec emax).
Local Abbreviation fexp := (SpecFloat.fexp prec emax).

Lemma bounded_spec (m : positive) (e : Z) :
  bounded prec emax m e = true ->
  fexp (Z.pos (digits2_pos m) + e) = e /\ (e <= emax - prec)%Z.
Proof.
  unfold bounded, canonical_mantissa. intros H.
  apply andb_prop in H as [H1 H2].
  apply Z.eqb_eq in H1. apply Z.leb_le in H2. auto.
Qed.

(** A canonical number below [2^b] sits at an exponent of at most
    [max (b - prec) emin]. *)
Lemma bounded_exponent (m : positive) (e b : Z) :
  bounded prec emax m e = true ->
  (scaled (Z.pos m) e < pow2 b)%Q ->
  (e <= Z.max (b - prec) emin)%Z /\ (e < b)%Z /\ (emin <= e)%Z.
Proof.
  intros Hb Hlt. apply bounded_spec in Hb as [Hc _].
  pose proof (digits_le_of_lt (Z.pos m) e b ltac:(lia) Hlt) as Hd.
  simpl in Hd. unfold SpecFloat.fexp in Hc.
  pose proof (Pos2Z.is_pos (digits2_pos m)). lia.
Qed.

(** Canonical numbers are ordered by their exponents first. *)
Lemma canonical_exponent_lt (m1 m2 : positive) (e1 e2 : Z) :
  bounded prec emax m1 e1 = true -> bounded prec emax m2 e2 = true ->
  (e1 < e2)%Z -> (scaled (Z.pos m1) e1 < scaled (Z.pos m2) e2)%Q.
Proof.
  intros H1 H2 Hlt.
  apply bounded_spec in H1 as [C1 _]. apply bounded_spec in H2 as [C2 _].
  unfold SpecFloat.fexp in C1, C2.
  destruct (digits2_pos_bounds m1) as [_ U1].
  destruct (digits2_pos_bounds m2) as [L2 _].
  assert (D2 : Z.pos (digits2_pos m2) = prec) by lia.
  assert (D1 : (Z.pos (digits2_pos m1) <= prec)%Z) by lia.
  rewrite D2 in L2.
  assert (A : (scaled (Z.pos m1) e1 < pow2 (prec + e1))%Q).
  { rewrite pow2_add, (pow2_Z prec) by lia. unfold scaled.
    apply Qmult_lt_compat_r; [apply pow2_pos |]. rewrite <- Zlt_Qlt.
    apply Z.lt_le_trans with (2 ^ Z.pos (digits2_pos m1))%Z; [exact U1 |].
    apply Z.pow_le_mono_r; lia. }
  assert (B : (pow2 (prec - 1 + e2) <= scaled (Z.pos m2) e2)%Q).
  { rewrite pow2_add, (pow2_Z (prec - 1)) by lia. unfold scaled.
    apply Qmult_le_compat_r; [by rewrite <- Zle_Qle |].
    apply Qlt_le_weak, pow2_pos. }
  pose proof (pow2_le (prec + e1) (prec - 1 + e2) ltac:(lia)). lra.
Qed.

Lemma Qcompare_scaled (m1 m2 e : Z) :
  (scaled m1 e ?= scaled m2 e)%Q = (m1 ?= m2)%Z.
Proof.
  destruct (Z.compare_spec m1 m2) as [-> | H | H].
  - apply (proj1 (Qeq_alt _ _)). reflexivity.
  - apply (proj1 (Qlt_alt _ _)). by apply scaled_lt.
  - apply (proj1 (Qgt_alt _ _)). by apply scaled_lt.
Qed.

Lemma SFcompare_pos (m1 m2 : positive) (e1 e2 : Z) :
  bounded prec emax m1 e1 = true -> bounded prec emax m2 e2 = true ->
  match (e1 ?= e2)%Z with
  | Lt => Lt
  | Gt => Gt
  | Eq => Pos.compare_cont Eq m1 m2
  end = (scaled (Z.pos m1) e1 ?= scaled (Z.pos m2) e2)%Q.
Proof.
  intros H1 H2. destruct (Z.compare_spec e1 e2) as [-> | H | H].
  - rewrite Qcompare_scaled. reflexivity.
  - symmetry. apply (proj1 (Qlt_alt _ _)). by apply canonical_exponent_lt.
  - symmetry. apply (proj1 (Qgt_alt _ _)). by apply canonical_exponent_lt.
Qed.

(** On valid fp.finite numbers, [SFcompare] compares the values. *)
Lemma SFcompare_value (f1 f2 : spec_float) :
  SpecFloat.valid_binary prec emax f1 = true ->
  SpecFloat.valid_binary prec emax f2 = true ->
  SF_finite f1 = true -> SF_finite f2 = true ->
  SFcompare f1 f2 = Some (SF_value f1 ?= SF_value f2)%Q.
Proof.
  destruct f1 as [s1 | s1 | | s1 m1 e1], f2 as [s2 | s2 | | s2 m2 e2];
    try discriminate; cbn [SpecFloat.valid_binary SF_value SFcompare]; intros V1 V2 _ _.
  - reflexivity.
  - f_equal. symmetry. destruct s2.
    + apply (proj1 (Qgt_alt _ _)). change (Z.neg m2) with (- Z.pos m2)%Z.
      rewrite scaled_opp. pose proof (scaled_pos (Z.pos m2) e2 ltac:(lia)). lra.
    + apply (proj1 (Qlt_alt _ _)). apply scaled_pos. lia.
  - f_equal. symmetry. destruct s1.
    + apply (proj1 (Qlt_alt _ _)). change (Z.neg m1) with (- Z.pos m1)%Z.
      rewrite scaled_opp. pose proof (scaled_pos (Z.pos m1) e1 ltac:(lia)). lra.
    + apply (proj1 (Qgt_alt _ _)). apply scaled_pos. lia.
  - f_equal.
    pose proof (scaled_pos (Z.pos m1) e1 ltac:(lia)) as P1.
    pose proof (scaled_pos (Z.pos m2) e2 ltac:(lia)) as P2.
    pose proof (SFcompare_pos m1 m2 e1 e2 V1 V2) as C.
    destruct s1, s2.
    + change (Z.neg m1) with (- Z.pos m1)%Z.
      change (Z.neg m2) with (- Z.pos m2)%Z.
      rewrite !scaled_opp.
      assert (R : ((- scaled (Z.pos m1) e1 ?= - scaled (Z.pos m2) e2)
                   = CompOpp (scaled (Z.pos m1) e1 ?= scaled (Z.pos m2) e2))%Q).
      { destruct (Qcompare_spec (scaled (Z.pos m1) e1) (scaled (Z.pos m2) e2))
          as [E | L | G]; simpl.
        - apply (proj1 (Qeq_alt _ _)). rewrite E. reflexivity.
        - apply (proj1 (Qgt_alt _ _)). lra.
        - apply (proj1 (Qlt_alt _ _)). lra. }
      rewrite R, <- C. by destruct (e1 ?= e2)%Z.
    + symmetry. apply (proj1 (Qlt_alt _ _)).
      change (Z.neg m1) with (- Z.pos m1)%Z. rewrite scaled_opp. lra.
    + symmetry. apply (proj1 (Qgt_alt _ _)).
      change (Z.neg m2) with (- Z.pos m2)%Z. rewrite scaled_opp. lra.
    + exact C.
Qed.

End Valid.

(** ** Binary64 numbers *)

Lemma finite_valid (x : float) :
  fp.finite x = true ->
  SpecFloat.valid_binary prec emax (Prim2SF x) = true
  /\ SF_finite (Prim2SF x) = true.
Proof. intros H. split; [apply Prim2SF_valid | exact H]. Qed.

Lemma finite_not_nan (x : float) : fp.finite x = true -> PrimFloat.is_nan x = false.
Proof.
  unfold fp.finite. intros H.
  unfold PrimFloat.is_nan. rewrite FloatAxioms.eqb_spec. unfold SFeqb.
  destruct (finite_valid x H) as [V F].
  rewrite (SFcompare_value prec emax ltac:(reflexivity) _ _ V V F F).
  rewrite (proj1 (Qeq_alt _ _)) by reflexivity. reflexivity.
Qed.

(** Comparisons of numbers compare the values. *)
Lemma ltb_value (x y : float) :
  fp.finite x = true -> fp.finite y = true ->
  ((x <? y)%float = true <-> (fp.value x < fp.value y)%Q).
Proof.
  intros Hx Hy. destruct (finite_valid x Hx) as [Vx Fx].
  destruct (finite_valid y Hy) as [Vy Fy].
  rewrite FloatAxioms.ltb_spec. unfold SFltb.
  rewrite (SFcompare_value prec emax ltac:(reflexivity) _ _ Vx Vy Fx Fy).
  unfold fp.value. rewrite Qlt_alt.
  destruct (SF_value (Prim2SF x) ?= SF_value (Prim2SF y))%Q; split; congruence.
Qed.

Lemma leb_value (x y : float) :
  fp.finite x = true -> fp.finite y = true ->
  ((x <=? y)%float = true <-> (fp.value x <= fp.value y)%Q).
Proof.
  intros Hx Hy. destruct (finite_valid x Hx) as [Vx Fx].
  destruct (finite_valid y Hy) as [Vy Fy].
  rewrite FloatAxioms.leb_spec. unfold SFleb.
  rewrite (SFcompare_value prec emax ltac:(reflexivity) _ _ Vx Vy Fx Fy).
  unfold fp.value. rewrite Qle_alt.
  destruct (SF_value (Prim2SF x) ?= SF_value (Prim2SF y))%Q; split;
    congruence.
Qed.


Lemma emin_64 : SpecFloat.emin prec emax = (-1074)%Z.
Proof. reflexivity. Qed.

(** What a fp.finite number is made of. *)
Lemma finite_cases (x : float) :
  fp.finite x = true ->
  (exists s, Prim2SF x = S754_zero s)
  \/ (exists s m e, Prim2SF x = S754_finite s m e
                    /\ bounded prec emax m e = true).
Proof.
  intros H. pose proof (Prim2SF_valid x) as V. unfold fp.finite in H.
  destruct (Prim2SF x) as [s | s | | s m e]; try discriminate; eauto 6.
Qed.

Lemma value_zero (x : float) (s : bool) :
  Prim2SF x = S754_zero s -> (fp.value x == 0)%Q.
Proof. unfold fp.value. by intros ->. Qed.

Lemma value_of_SF_of (z : float) (s : bool) (m e : Z) :
  (0 <= m)%Z -> Prim2SF z = SF_of s m e ->
  fp.finite z = true
  /\ (fp.value z == if s then - scaled m e else scaled m e)%Q.
Proof.
  intros Hm E. unfold fp.finite, fp.value. rewrite E.
  split; [by apply SF_finite_SF_of | by apply SF_value_SF_of].
Qed.

Lemma rounds_to_bounds (v p : Q) (k : Z) :
  rounds_to v p k -> (p - pow2 k <= v)%Q /\ (v <= p + pow2 k)%Q.
Proof. intros [H _]. apply Qabs_Qle_condition in H. split; lra. Qed.

(** A result that is exact. *)
Lemma exact_result (v p : Q) (k : Z) : (v == p)%Q -> rounds_to v p k.
Proof.
  intros E. pose proof (pow2_pos k). split; [| split; intros; lra].
  apply Qabs_Qle_condition. lra.
Qed.

(** A result given by its sign and its magnitude. *)
Lemma signed_result (z : float) (s : bool) (m e : Z) (Y p : Q) (k : Z) :
  Prim2SF z = SF_of s m e -> (0 <= m)%Z -> (0 < Y)%Q ->
  (Qabs (scaled m e - Y) <= pow2 k)%Q ->
  (p == if s then - Y else Y)%Q ->
  fp.finite z = true
  /\ rounds_to (fp.value z) p k
  /\ (Qabs (fp.value z) == scaled m e)%Q.
Proof.
  intros E Nm PY Err Hp.
  destruct (value_of_SF_of z s m e Nm E) as [F V].
  pose proof (scaled_nonneg m e Nm) as Pm.
  apply Qabs_Qle_condition in Err.
  split; [exact F |]. split.
  - unfold rounds_to. rewrite V, Hp. destruct s.
    + split; [apply Qabs_Qle_condition; lra |]. split; intros; lra.
    + split; [apply Qabs_Qle_condition; lra |]. split; intros; lra.
  - rewrite V. destruct s; [rewrite Qabs_opp |]; by apply Qabs_pos.
Qed.

(** ** Multiplication *)

Lemma mul_value (x y : float) (bx bY : Z) :
  fp.finite x = true -> fp.finite y = true ->
  (Qabs (fp.value x) < pow2 bx)%Q -> (Qabs (fp.value y) < pow2 bY)%Q ->
  (bx <= 53)%Z -> (bY <= 53)%Z -> (-1074 <= bx + bY)%Z ->
  fp.finite (x * y) = true
  /\ rounds_to (fp.value (x * y)) (fp.value x * fp.value y)
       (Z.max (bx + bY - 52) (-1074) + 1).
Proof.
  intros Fx Fy Bx By Hbx Hby Hb.
  pose proof (FloatAxioms.mul_spec x y) as S. unfold SF64mul in S.
  destruct (finite_cases x Fx) as [[sx Ex] | (sx & mx & ex & Ex & Vx)];
    destruct (finite_cases y Fy) as [[sy Ey] | (sy & my & ey & Ey & Vy)];
    rewrite Ex, Ey in S; cbn [SFmul] in S.
  - assert (Z : (fp.value (x * y) == 0)%Q) by (eapply value_zero; eauto).
    assert (Zx : (fp.value x == 0)%Q) by (eapply value_zero; eauto).
    unfold fp.finite. rewrite S. split; [reflexivity |].
    apply exact_result. rewrite Z, Zx. ring.
  - assert (Z : (fp.value (x * y) == 0)%Q) by (eapply value_zero; eauto).
    assert (Zx : (fp.value x == 0)%Q) by (eapply value_zero; eauto).
    unfold fp.finite. rewrite S. split; [reflexivity |].
    apply exact_result. rewrite Z, Zx. ring.
  - assert (Z : (fp.value (x * y) == 0)%Q) by (eapply value_zero; eauto).
    assert (Zy : (fp.value y == 0)%Q) by (eapply value_zero; eauto).
    unfold fp.finite. rewrite S. split; [reflexivity |].
    apply exact_result. rewrite Z, Zy. ring.
  - (* fp.finite by fp.finite *)
    assert (Ax : (Qabs (fp.value x) == scaled (Z.pos mx) ex)%Q)
      by (unfold fp.value; rewrite Ex; apply SF_value_finite_abs).
    assert (Ay : (Qabs (fp.value y) == scaled (Z.pos my) ey)%Q)
      by (unfold fp.value; rewrite Ey; apply SF_value_finite_abs).
    rewrite Ax in Bx. rewrite Ay in By.
    destruct (bounded_exponent prec emax mx ex bx Vx Bx) as (Ux & Lx & Mx).
    destruct (bounded_exponent prec emax my ey bY Vy By) as (Uy & Ly & My).
    rewrite emin_64 in *.
    assert (Hy : (scaled (Z.pos mx * Z.pos my) (ex + ey)
                  == scaled (Z.pos mx) ex * scaled (Z.pos my) ey)%Q).
    { unfold scaled. rewrite inject_Z_mult, pow2_add. ring. }
    pose proof (scaled_pos (Z.pos mx) ex ltac:(lia)) as Px.
    pose proof (scaled_pos (Z.pos my) ey ltac:(lia)) as Py.
    destruct (binary_round_aux_error prec emax ltac:(reflexivity)
                (xorb sx sy) (Z.pos (mx * my)) (ex + ey) loc_Exact
                (scaled (Z.pos mx * Z.pos my) (ex + ey)) (bx + bY))
      as (m & e & R & [Nm _] & [_ Ue] & Err & _).
    + lia.
    + apply Qle_refl.
    + apply scaled_lt. lia.
    + rewrite Hy, pow2_add.
      apply Qlt_trans with (scaled (Z.pos mx) ex * pow2 bY)%Q.
      * apply Qmult_lt_l; assumption.
      * apply Qmult_lt_r; [apply pow2_pos | assumption].
    + lia.
    + rewrite emin_64. lia.
    + rewrite emin_64. change prec with 53%Z. change emax with 1024%Z. lia.
    + rewrite emin_64 in *. change prec with 53%Z in *.
      rewrite R in S.
      pose proof (pow2_le (Z.max (ex + ey) (Z.max (bx + bY + 1 - 53) (-1074)) + 1)
                    (Z.max (bx + bY - 52) (-1074) + 1) ltac:(lia)) as Hp.
      pose proof (scaled_pos (Z.pos mx * Z.pos my) (ex + ey) ltac:(lia)) as Pp.
      destruct (signed_result (x * y) (xorb sx sy) m e
                  (scaled (Z.pos mx * Z.pos my) (ex + ey))
                  (fp.value x * fp.value y)
                  (Z.max (bx + bY - 52) (-1074) + 1) S Nm)
        as (F & Rr & _); [lra | lra | | by split].
      unfold fp.value. rewrite Ex, Ey. cbn [SF_value].
      destruct sx, sy; cbn [xorb]; rewrite Hy;
        repeat match goal with
               | |- context [Z.neg ?p] =>
                   change (Z.neg p) with (- Z.pos p)%Z
               end;
        rewrite ?scaled_opp; ring.
Qed.

Lemma scaled_lt_digits (m e : Z) :
  (0 < m)%Z -> (scaled m e < pow2 (Zdigits2 m + e))%Q.
Proof.
  intros Hm. destruct (Zdigits2_bounds m Hm) as [_ Hhi].
  rewrite pow2_add, (pow2_Z (Zdigits2 m)) by apply Zdigits2_nonneg.
  unfold scaled. apply Qmult_lt_compat_r; [apply pow2_pos |].
  by rewrite <- Zlt_Qlt.
Qed.

Lemma scaled_mul (m1 e1 m2 e2 : Z) :
  (scaled m1 e1 * scaled m2 e2 == scaled (m1 * m2) (e1 + e2))%Q.
Proof. unfold scaled. rewrite inject_Z_mult, pow2_add. ring. Qed.

(** ** Division *)

Section Division.

Variables prec emax : Z.

Lemma new_location_0 (nb_steps : Z) : new_location nb_steps 0 = loc_Exact.
Proof.
  unfold new_location, new_location_even, new_location_odd.
  by destruct (Z.even nb_steps).
Qed.

Lemma SFdiv_core_binary_spec (m1 m2 : positive) (e1 e2 : Z) :
  exists q e l,
    SFdiv_core_binary prec emax (Z.pos m1) e1 (Z.pos m2) e2 = (q, e, l)
    /\ (0 <= q)%Z
    /\ (e <= SpecFloat.fexp prec emax
               (Zdigits2 (Z.pos m1) + e1 - (Zdigits2 (Z.pos m2) + e2)))%Z
    /\ (scaled q e * scaled (Z.pos m2) e2 <= scaled (Z.pos m1) e1)%Q
    /\ (scaled (Z.pos m1) e1 < scaled (q + 1) e * scaled (Z.pos m2) e2)%Q
    /\ ((scaled (Z.pos m1) e1 == scaled q e * scaled (Z.pos m2) e2)%Q ->
        l = loc_Exact).
Proof.
  unfold SFdiv_core_binary.
  set (e := Z.min (SpecFloat.fexp prec emax
                     (Zdigits2 (Z.pos m1) + e1 - (Zdigits2 (Z.pos m2) + e2)))
                  (e1 - e2)).
  set (s := (e1 - e2 - e)%Z).
  assert (Hs : (0 <= s)%Z) by (unfold s, e; lia).
  set (m' := match s with
             | Z0 => Z.pos m1
             | Z.pos _ => Z.shiftl (Z.pos m1) s
             | Z.neg _ => 0%Z
             end).
  assert (Hm' : m' = (Z.pos m1 * 2 ^ s)%Z).
  { unfold m'. destruct s as [| p | p] eqn:Es; try lia.
    apply Z.shiftl_mul_pow2. lia. }
  pose proof (Z_div_mod m' (Z.pos m2) ltac:(lia)) as D.
  destruct (Z.div_eucl m' (Z.pos m2)) as [q r]. destruct D as [D1 D2].
  assert (Hp : (0 < 2 ^ s)%Z) by (apply Z.pow_pos_nonneg; lia).
  assert (Hq : (0 <= q)%Z) by nia.
  exists q, e, (new_location (Z.pos m2) r).
  split; [reflexivity |]. split; [exact Hq |]. split; [unfold e; lia |].
  assert (E1 : (scaled (Z.pos m1) e1 == scaled m' (e + e2))%Q).
  { rewrite Hm', scaled_shift by exact Hs. unfold s.
    replace (e + e2 + (e1 - e2 - e))%Z with e1 by lia. reflexivity. }
  rewrite !scaled_mul, E1. split; [| split].
  - apply scaled_le. nia.
  - apply scaled_lt. nia.
  - intros Eq. apply scaled_inj in Eq.
    assert (r = 0%Z) by nia. subst r. apply new_location_0.
Qed.

End Division.

Lemma div_value (x y : float) (bx ly : Z) :
  fp.finite x = true -> fp.finite y = true ->
  (Qabs (fp.value x) < pow2 bx)%Q -> (pow2 ly <= Qabs (fp.value y))%Q ->
  (-1074 <= bx - ly)%Z -> (bx - ly <= 1023)%Z ->
  fp.finite (x / y) = true
  /\ rounds_to (fp.value (x / y)) (fp.value x / fp.value y)
       (Z.max (bx - ly - 52) (-1074) + 1)
  /\ (forall k : Z,
        (Qabs (fp.value x) <= pow2 k * Qabs (fp.value y))%Q ->
        (Z.max (bx - ly - 53) (-1074) <= k)%Z ->
        (Qabs (fp.value (x / y)) <= pow2 k)%Q).
Proof.
  intros Fx Fy Bx By Hlo Hhi.
  pose proof (FloatAxioms.div_spec x y) as S. unfold SF64div in S.
  pose proof (pow2_pos ly) as Pl.
  destruct (finite_cases y Fy) as [[sy Ey] | (sy & my & ey & Ey & Vy)].
  { rewrite (value_zero y sy Ey) in By. change (Qabs 0) with 0%Q in By. lra. }
  destruct (finite_cases x Fx) as [[sx Ex] | (sx & mx & ex & Ex & Vx)];
    rewrite Ex, Ey in S; cbn [SFdiv] in S.
  - assert (Z : (fp.value (x / y) == 0)%Q) by (eapply value_zero; eauto).
    assert (Zx : (fp.value x == 0)%Q) by (eapply value_zero; eauto).
    unfold fp.finite. rewrite S. split; [reflexivity |]. split.
    + apply exact_result. rewrite Z, Zx. unfold Qdiv. ring.
    + intros k _ _. rewrite Z. change (Qabs 0) with 0%Q.
      apply Qlt_le_weak, pow2_pos.
  - assert (Ax : (Qabs (fp.value x) == scaled (Z.pos mx) ex)%Q)
      by (unfold fp.value; rewrite Ex; apply SF_value_finite_abs).
    assert (Ay : (Qabs (fp.value y) == scaled (Z.pos my) ey)%Q)
      by (unfold fp.value; rewrite Ey; apply SF_value_finite_abs).
    rewrite Ax in Bx. rewrite Ay in By.
    pose proof (scaled_pos (Z.pos mx) ex ltac:(lia)) as Px.
    pose proof (scaled_pos (Z.pos my) ey ltac:(lia)) as Py.
    destruct (SFdiv_core_binary_spec prec emax mx my ex ey)
      as (q & e & l & Ec & Nq & Ue & Lq & Uq & Xq).
    rewrite Ec in S.
    pose proof (digits_le_of_lt (Z.pos mx) ex bx ltac:(lia) Bx) as Dx.
    pose proof (scaled_lt_digits (Z.pos my) ey ltac:(lia)) as Dy.
    assert (Dy' : (ly < Zdigits2 (Z.pos my) + ey)%Z)
      by (apply pow2_lt_inv; lra).
    unfold SpecFloat.fexp in Ue. rewrite emin_64 in Ue.
    change prec with 53%Z in Ue.
    set (Y := (scaled (Z.pos mx) ex / scaled (Z.pos my) ey)%Q).
    assert (EY : (Y * scaled (Z.pos my) ey == scaled (Z.pos mx) ex)%Q)
      by (unfold Y; field; lra).
    assert (Y1 : (scaled q e <= Y)%Q)
      by (apply Qle_shift_div_l; assumption).
    assert (Y2 : (Y < scaled (q + 1) e)%Q)
      by (apply Qlt_shift_div_r; assumption).
    assert (Y3 : (Y < pow2 (bx - ly))%Q).
    { apply Qlt_shift_div_r; [exact Py |].
      assert (E : (pow2 bx == pow2 (bx - ly) * pow2 ly)%Q).
      { rewrite <- pow2_add. by replace (bx - ly + ly)%Z with bx by lia. }
      pose proof (pow2_pos (bx - ly)).
      apply Qlt_le_trans with (pow2 bx); [exact Bx |]. rewrite E.
      apply Qmult_le_l; assumption. }
    destruct (binary_round_aux_error prec emax ltac:(reflexivity)
                (xorb sx sy) q e l Y (bx - ly) Nq Y1 Y2 Y3)
      as (m & e' & R & [Nm _] & [_ Ue'] & Err & Pk).
    + lia.
    + rewrite emin_64. lia.
    + rewrite emin_64. change prec with 53%Z. change emax with 1024%Z. lia.
    + rewrite emin_64 in *. change prec with 53%Z in *.
      rewrite R in S.
      pose proof (pow2_le (Z.max e (Z.max (bx - ly + 1 - 53) (-1074)) + 1)
                    (Z.max (bx - ly - 52) (-1074) + 1) ltac:(lia)) as Hp.
      assert (PY : (0 < Y)%Q) by (apply Qlt_shift_div_l; lra).
      destruct (signed_result (x / y) (xorb sx sy) m e' Y
                  (fp.value x / fp.value y)
                  (Z.max (bx - ly - 52) (-1074) + 1) S Nm)
        as (F & Rr & Av); [lra | lra | |].
      { unfold fp.value, Y. rewrite Ex, Ey. cbn [SF_value].
        destruct sx, sy; cbn [xorb];
          repeat match goal with
                 | |- context [Z.neg ?p] =>
                     change (Z.neg p) with (- Z.pos p)%Z
                 end;
          rewrite ?scaled_opp; field; lra. }
      split; [exact F |]. split; [exact Rr |].
      intros k Hk Hek. rewrite Ax, Ay in Hk. rewrite Av. apply Pk.
      * apply Qle_shift_div_r; assumption.
      * intros Eq. apply Xq. rewrite <- Eq. by symmetry.
      * lia.
Qed.

(** ** Aligning and normalizing *)

Lemma pos_iter_xO (m d : positive) :
  Z.pos (Pos.iter xO m d) = (Z.pos m * 2 ^ Z.pos d)%Z.
Proof.
  induction d as [| d IH] using Pos.peano_ind.
  - simpl. lia.
  - rewrite Pos.iter_succ, Pos2Z.pos_xO, IH, Pos2Z.inj_succ, Z.pow_succ_r by lia.
    lia.
Qed.

Lemma shl_align_spec (m : positive) (e e' : Z) :
  exists m' e'',
    shl_align m e e' = (m', e'')
    /\ e'' = Z.min e e'
    /\ Z.pos m' = (Z.pos m * 2 ^ (e - e''))%Z.
Proof.
  unfold shl_align. destruct (e' - e)%Z as [| d | d] eqn:E.
  - exists m, e. split; [reflexivity |]. split; [lia |].
    rewrite Z.sub_diag. simpl. lia.
  - exists m, e. split; [reflexivity |]. split; [lia |].
    rewrite Z.sub_diag. simpl. lia.
  - exists (Pos.iter xO m d), e'. split; [reflexivity |]. split; [lia |].
    rewrite pos_iter_xO. f_equal. f_equal. lia.
Qed.

Lemma shl_align_scaled (m m' : positive) (e e' e'' : Z) :
  shl_align m e e' = (m', e'') ->
  e'' = Z.min e e' /\ (scaled (Z.pos m') e'' == scaled (Z.pos m) e)%Q.
Proof.
  intros H. destruct (shl_align_spec m e e') as (m1 & e1 & E & -> & Hm).
  rewrite E in H. inversion H; subst. split; [reflexivity |].
  rewrite Hm, scaled_shift by lia.
  by replace (Z.min e e' + (e - Z.min e e'))%Z with e by lia.
Qed.

Section Normalize.

Variables prec emax : Z.
Hypothesis prec_pos : (0 < prec)%Z.

Local Abbreviation emin := (SpecFloat.emin prec emax).

Lemma binary_round_error (s : bool) (m : positive) (e b : Z) :
  (scaled (Z.pos m) e < pow2 b)%Q -> (emin <= b)%Z ->
  (Z.max (b + 1 - prec) emin <= emax - prec)%Z ->
  exists m' e',
    binary_round prec emax s m e = SF_of s m' e'
    /\ (0 <= m' < 2 ^ prec)%Z
    /\ (emin <= e' <= Z.max (b + 1 - prec) emin)%Z
    /\ (Qabs (scaled m' e' - scaled (Z.pos m) e)
        <= pow2 (Z.max (b + 1 - prec) emin + 1))%Q.
Proof.
  intros Hb Hemin Hno. unfold binary_round.
  destruct (shl_align m e (SpecFloat.fexp prec emax (Z.pos (digits2_pos m) + e)))
    as [mz ez] eqn:A.
  apply shl_align_scaled in A as [Ez Vz].
  pose proof (digits_le_of_lt (Z.pos m) e b ltac:(lia) Hb) as D.
  simpl Zdigits2 in D. unfold SpecFloat.fexp in Ez.
  assert (Hez : (ez <= Z.max (b - prec) emin)%Z) by lia.
  destruct (binary_round_aux_error prec emax prec_pos s (Z.pos mz) ez
              loc_Exact (scaled (Z.pos mz) ez) b)
    as (m' & e' & R & Nm & Ue & Err & _).
  - lia.
  - apply Qle_refl.
  - apply scaled_lt. lia.
  - by rewrite Vz.
  - lia.
  - exact Hemin.
  - lia.
  - exists m', e'. split; [exact R |]. split; [exact Nm |].
    replace (Z.max ez (Z.max (b + 1 - prec) emin))
      with (Z.max (b + 1 - prec) emin) in * by lia.
    split; [exact Ue |]. by rewrite <- Vz.
Qed.

End Normalize.

(** A binary64 result obtained by normalizing the number [z * 2^e]. *)
Lemma normalize_result (w : float) (z e : Z) (szero : bool) (b : Z) (p : Q) :
  Prim2SF w = binary_normalize prec emax z e szero ->
  (p == scaled z e)%Q -> (Qabs p < pow2 b)%Q ->
  (-1074 <= b)%Z -> (b <= 1023)%Z ->
  fp.finite w = true /\ rounds_to (fp.value w) p (Z.max (b - 52) (-1074) + 1).
Proof.
  intros S Hp Hb Hlo Hhi. destruct z as [| m | m]; cbn [binary_normalize] in S.
  - unfold fp.finite. rewrite S. split; [reflexivity |].
    apply exact_result. unfold fp.value. rewrite S, Hp, scaled_0. reflexivity.
  - pose proof (scaled_pos (Z.pos m) e ltac:(lia)) as P.
    rewrite Hp, Qabs_pos in Hb by lra.
    destruct (binary_round_error prec emax ltac:(reflexivity) false m e b Hb)
      as (m' & e' & R & [Nm _] & _ & Err).
    { rewrite emin_64. lia. }
    { rewrite emin_64. change prec with 53%Z. change emax with 1024%Z. lia. }
    rewrite emin_64 in Err. change prec with 53%Z in Err.
    replace (Z.max (b + 1 - 53) (-1074)) with (Z.max (b - 52) (-1074)) in Err
      by lia.
    rewrite R in S.
    destruct (signed_result w false m' e' (scaled (Z.pos m) e) p _ S Nm P Err Hp)
      as (F & Rr & _).
    by split.
  - pose proof (scaled_pos (Z.pos m) e ltac:(lia)) as P.
    assert (Hn : (scaled (Z.neg m) e == - scaled (Z.pos m) e)%Q)
      by (change (Z.neg m) with (- Z.pos m)%Z; apply scaled_opp).
    rewrite Hn in Hp.
    rewrite Hp, Qabs_opp, Qabs_pos in Hb by lra.
    destruct (binary_round_error prec emax ltac:(reflexivity) true m e b Hb)
      as (m' & e' & R & [Nm _] & _ & Err).
    { rewrite emin_64. lia. }
    { rewrite emin_64. change prec with 53%Z. change emax with 1024%Z. lia. }
    rewrite emin_64 in Err. change prec with 53%Z in Err.
    replace (Z.max (b + 1 - 53) (-1074)) with (Z.max (b - 52) (-1074)) in Err
      by lia.
    rewrite R in S.
    destruct (signed_result w true m' e' (scaled (Z.pos m) e) p _ S Nm P Err Hp)
      as (F & Rr & _).
    by split.
Qed.

(** The fp.value of a number as a signed mantissa at a lower exponent. *)
Lemma aligned_value (s : bool) (m : positive) (e ez : Z) :
  (ez <= e)%Z ->
  (scaled (cond_Zopp s (Z.pos (fst (shl_align m e ez)))) ez
   == SF_value (S754_finite s m e))%Q.
Proof.
  intros H. destruct (shl_align m e ez) as [m' e'] eqn:A.
  apply shl_align_scaled in A as [-> V].
  replace (Z.min e ez) with ez in V by lia.
  cbn [fst SF_value cond_Zopp]. destruct s; [| exact V].
  change (Z.neg m) with (- Z.pos m)%Z. rewrite !scaled_opp, V. reflexivity.
Qed.

Lemma scaled_add (m1 m2 e : Z) :
  (scaled (m1 + m2) e == scaled m1 e + scaled m2 e)%Q.
Proof. unfold scaled. rewrite inject_Z_plus. ring. Qed.

(** ** Addition and subtraction *)

Lemma add_value (x y : float) (b : Z) :
  fp.finite x = true -> fp.finite y = true ->
  (Qabs (fp.value x + fp.value y) < pow2 b)%Q ->
  (-1074 <= b)%Z -> (b <= 1023)%Z ->
  fp.finite (x + y) = true
  /\ rounds_to (fp.value (x + y)) (fp.value x + fp.value y)
       (Z.max (b - 52) (-1074) + 1).
Proof.
  intros Fx Fy Hb Hlo Hhi.
  pose proof (FloatAxioms.add_spec x y) as S. unfold SF64add in S.
  destruct (finite_cases x Fx) as [[sx Ex] | (sx & mx & ex & Ex & Vx)];
    destruct (finite_cases y Fy) as [[sy Ey] | (sy & my & ey & Ey & Vy)];
    rewrite Ex, Ey in S; cbn [SFadd] in S.
  - assert (Zx : (fp.value x == 0)%Q) by (eapply value_zero; eauto).
    assert (Zy : (fp.value y == 0)%Q) by (eapply value_zero; eauto).
    assert (Z : (fp.value (x + y) == 0)%Q).
    { unfold fp.value. rewrite S. by destruct sx, sy. }
    split; [unfold fp.finite; rewrite S; by destruct sx, sy |].
    apply exact_result. rewrite Z, Zx, Zy. ring.
  - assert (Zx : (fp.value x == 0)%Q) by (eapply value_zero; eauto).
    split; [unfold fp.finite; rewrite S; reflexivity |].
    apply exact_result. rewrite Zx. unfold fp.value. rewrite S, Ey. ring.
  - assert (Zy : (fp.value y == 0)%Q) by (eapply value_zero; eauto).
    split; [unfold fp.finite; rewrite S; reflexivity |].
    apply exact_result. rewrite Zy. unfold fp.value. rewrite S, Ex. ring.
  - apply (normalize_result _ _ _ _ b _ S); try assumption.
    rewrite scaled_add, !aligned_value by lia.
    unfold fp.value. rewrite Ex, Ey. reflexivity.
Qed.

Lemma scaled_sub (m1 m2 e : Z) :
  (scaled (m1 - m2) e == scaled m1 e - scaled m2 e)%Q.
Proof. unfold scaled, Z.sub. rewrite inject_Z_plus, inject_Z_opp. ring. Qed.

Lemma sub_value (x y : float) (b : Z) :
  fp.finite x = true -> fp.finite y = true ->
  (Qabs (fp.value x - fp.value y) < pow2 b)%Q ->
  (-1074 <= b)%Z -> (b <= 1023)%Z ->
  fp.finite (x - y) = true
  /\ rounds_to (fp.value (x - y)) (fp.value x - fp.value y)
       (Z.max (b - 52) (-1074) + 1).
Proof.
  intros Fx Fy Hb Hlo Hhi.
  pose proof (FloatAxioms.sub_spec x y) as S. unfold SF64sub in S.
  destruct (finite_cases x Fx) as [[sx Ex] | (sx & mx & ex & Ex & Vx)];
    destruct (finite_cases y Fy) as [[sy Ey] | (sy & my & ey & Ey & Vy)];
    rewrite Ex, Ey in S; cbn [SFsub] in S.
  - assert (Zx : (fp.value x == 0)%Q) by (eapply value_zero; eauto).
    assert (Zy : (fp.value y == 0)%Q) by (eapply value_zero; eauto).
    assert (Z : (fp.value (x - y) == 0)%Q).
    { unfold fp.value. rewrite S. by destruct sx, sy. }
    split; [unfold fp.finite; rewrite S; by destruct sx, sy |].
    apply exact_result. rewrite Z, Zx, Zy. ring.
  - assert (Zx : (fp.value x == 0)%Q) by (eapply value_zero; eauto).
    split; [unfold fp.finite; rewrite S; reflexivity |].
    apply exact_result. rewrite Zx. unfold fp.value. rewrite S, Ey.
    cbn [SF_value]. destruct sy; cbn [negb];
      repeat match goal with
             | |- context [Z.neg ?p] => change (Z.neg p) with (- Z.pos p)%Z
             end;
      rewrite ?scaled_opp; ring.
  - assert (Zy : (fp.value y == 0)%Q) by (eapply value_zero; eauto).
    split; [unfold fp.finite; rewrite S; reflexivity |].
    apply exact_result. rewrite Zy. unfold fp.value. rewrite S, Ex. ring.
  - apply (normalize_result _ _ _ _ b _ S); try assumption.
    rewrite scaled_sub, !aligned_value by lia.
    unfold fp.value. rewrite Ex, Ey. reflexivity.
Qed.

(** ** The fp.float32 numbers among the binary64 numbers *)

Lemma digits2_pos_iter_xO (m d : positive) :
  digits2_pos (Pos.iter xO m d) = (digits2_pos m + d)%positive.
Proof.
  induction d as [| d IH] using Pos.peano_ind.
  - simpl. lia.
  - rewrite Pos.iter_succ. cbn [digits2_pos]. rewrite IH. lia.
Qed.

(** A number of at most 53 digits, above the subnormal range, is a
    binary64 number. *)
Lemma binary_round_exact (s : bool) (m : positive) (e : Z) :
  (Z.pos (digits2_pos m) <= 53)%Z ->
  (-1074 <= Z.pos (digits2_pos m) + e - 53)%Z ->
  (Z.pos (digits2_pos m) + e <= 1024)%Z ->
  exists m' e',
    binary_round prec emax s m e = S754_finite s m' e'
    /\ bounded prec emax m' e' = true
    /\ (scaled (Z.pos m') e' == scaled (Z.pos m) e)%Q.
Proof.
  intros Hd Hlo Hhi. unfold binary_round.
  set (d := Z.pos (digits2_pos m)) in *.
  assert (Hf : SpecFloat.fexp prec emax (d + e) = (d + e - 53)%Z).
  { unfold SpecFloat.fexp. rewrite emin_64. change prec with 53%Z. lia. }
  rewrite Hf.
  destruct (shl_align m e (d + e - 53)) as [mz ez] eqn:A.
  assert (Dz : (Z.pos (digits2_pos mz) + ez = d + e)%Z /\ ez = (d + e - 53)%Z).
  { unfold shl_align in A. destruct (d + e - 53 - e)%Z as [| p | p] eqn:E;
      inversion A; subst; try (fold d; lia).
    rewrite digits2_pos_iter_xO, Pos2Z.inj_add. fold d. lia. }
  apply shl_align_scaled in A as [_ Vz]. destruct Dz as [Dz ->].
  assert (Dm : Z.pos (digits2_pos mz) = 53%Z) by lia.
  exists mz, (d + e - 53)%Z.
  assert (Hf2 : SpecFloat.fexp prec emax (Z.pos (digits2_pos mz) + (d + e - 53))
                = (d + e - 53)%Z).
  { rewrite Dz. exact Hf. }
  split; [| split; [| exact Vz]].
  - unfold binary_round_aux, shr_fexp. cbn [Zdigits2 shr_record_of_loc].
    rewrite Hf2, Z.sub_diag. cbn [shr shr_m loc_of_shr_record round_nearest_even].
    cbn [Zdigits2 shr_record_of_loc]. rewrite Hf2, Z.sub_diag. cbn [shr shr_m].
    rewrite (proj2 (Z.leb_le _ _)); [reflexivity |].
    change emax with 1024%Z. change prec with 53%Z. lia.
  - unfold bounded, canonical_mantissa. rewrite Hf2, Z.eqb_refl. simpl.
    apply Z.leb_le. change emax with 1024%Z. change prec with 53%Z. lia.
Qed.

(** Rounding to fp.float32 and back among the binary64 numbers. *)
Lemma float32_value (x : float) (b : Z) :
  fp.finite x = true -> (Qabs (fp.value x) < pow2 b)%Q ->
  (-149 <= b)%Z -> (b <= 127)%Z ->
  fp.finite (fp.float32 x) = true
  /\ rounds_to (fp.value (fp.float32 x)) (fp.value x) (Z.max (b - 23) (-149) + 1).
Proof.
  intros Fx Hb Hlo Hhi. unfold fp.float32.
  destruct (finite_cases x Fx) as [[sx Ex] | (sx & mx & ex & Ex & Vx)];
    rewrite Ex.
  - split; [exact Fx |]. by apply exact_result.
  - assert (Ax : (Qabs (fp.value x) == scaled (Z.pos mx) ex)%Q)
      by (unfold fp.value; rewrite Ex; apply SF_value_finite_abs).
    rewrite Ax in Hb.
    pose proof (scaled_pos (Z.pos mx) ex ltac:(lia)) as P.
    assert (Hv : (fp.value x == if sx then - scaled (Z.pos mx) ex
                             else scaled (Z.pos mx) ex)%Q).
    { unfold fp.value. rewrite Ex. cbn [SF_value]. destruct sx; [| reflexivity].
      change (Z.neg mx) with (- Z.pos mx)%Z. apply scaled_opp. }
    destruct (binary_round_error 24 128 ltac:(reflexivity) sx mx ex b Hb)
      as (m & e & R & [Nm Bm] & [Le Ue] & Err).
    { change (SpecFloat.emin 24 128) with (-149)%Z. lia. }
    { change (SpecFloat.emin 24 128) with (-149)%Z. lia. }
    change (SpecFloat.emin 24 128) with (-149)%Z in *.
    replace (Z.max (b + 1 - 24) (-149)) with (Z.max (b - 23) (-149)) in * by lia.
    rewrite R. destruct m as [| m | m]; try lia; cbn [SF_of fp.widen].
    + (* the result is a zero *)
      assert (S : Prim2SF (SF2Prim (S754_zero sx)) = SF_of sx 0 e)
        by (by rewrite Prim2SF_SF2Prim).
      destruct (signed_result _ sx 0 e (scaled (Z.pos mx) ex) (fp.value x) _
                  S ltac:(lia) P Err Hv) as (F & Rr & _).
      by split.
    + assert (Dm : (Z.pos (digits2_pos m) <= 24)%Z).
      { destruct (digits2_pos_bounds m) as [Hl _].
        destruct (Z_le_gt_dec (Z.pos (digits2_pos m)) 24) as [L | G];
          [exact L | exfalso].
        assert (2 ^ 24 <= 2 ^ (Z.pos (digits2_pos m) - 1))%Z
          by (apply Z.pow_le_mono_r; lia).
        lia. }
      destruct (binary_round_exact sx m e) as (m' & e' & Rw & Vw & Ew);
        [lia | lia | lia |].
      rewrite Rw.
      assert (S : Prim2SF (SF2Prim (S754_finite sx m' e'))
                  = SF_of sx (Z.pos m') e')
        by (by rewrite Prim2SF_SF2Prim).
      rewrite <- Ew in Err.
      destruct (signed_result _ sx (Z.pos m') e' (scaled (Z.pos mx) ex)
                  (fp.value x) _ S ltac:(lia) P Err Hv) as (F & Rr & _).
      by split.
Qed.

(** ** The normalizer in binary64 *)

Lemma maximum_value (a b : float) :
  fp.finite a = true -> fp.finite b = true ->
  fp.finite (fp.maximum a b) = true
  /\ (fp.value (fp.maximum a b) == Qmax (fp.value a) (fp.value b))%Q.
Proof.
  intros Fa Fb. unfold fp.maximum. rewrite (finite_not_nan a Fa).
  destruct (b <? a)%float eqn:E.
  - apply (ltb_value b a Fb Fa) in E. split; [exact Fa |].
    symmetry. apply Q.max_l. lra.
  - split; [exact Fb |]. symmetry. apply Q.max_r.
    apply Qnot_lt_le. intros L. apply (ltb_value b a Fb Fa) in L. congruence.
Qed.

Lemma minimum_value (a b : float) :
  fp.finite a = true -> fp.finite b = true ->
  fp.finite (fp.minimum a b) = true
  /\ (fp.value (fp.minimum a b) == Qmin (fp.value a) (fp.value b))%Q.
Proof.
  intros Fa Fb. unfold fp.minimum. rewrite (finite_not_nan a Fa).
  destruct (a <? b)%float eqn:E.
  - apply (ltb_value a b Fa Fb) in E. split; [exact Fa |].
    symmetry. apply Q.min_l. lra.
  - split; [exact Fb |]. symmetry. apply Q.min_r.
    apply Qnot_lt_le. intros L. apply (ltb_value a b Fa Fb) in L. congruence.
Qed.

Lemma clip_value (a lo hi : float) :
  fp.finite a = true -> fp.finite lo = true -> fp.finite hi = true ->
  fp.finite (fp.clip a lo hi) = true
  /\ (fp.value (fp.clip a lo hi) == Qmin (Qmax (fp.value a) (fp.value lo)) (fp.value hi))%Q.
Proof.
  intros Fa Fl Fh. unfold fp.clip.
  destruct (maximum_value a lo Fa Fl) as [F1 V1].
  destruct (minimum_value (fp.maximum a lo) hi F1 Fh) as [F2 V2].
  split; [exact F2 |]. by rewrite V2, V1.
Qed.

Lemma sub_zero_value (a : float) :
  fp.finite a = true ->
  fp.finite (a - 0) = true /\ (fp.value (a - 0) == fp.value a)%Q.
Proof.
  intros Fa. pose proof (FloatAxioms.sub_spec a 0) as S.
  change (Prim2SF 0) with (S754_zero false) in S. unfold SF64sub in S.
  unfold fp.finite, fp.value in *. rewrite S.
  destruct (Prim2SF a) as [s | s | | s m e]; try discriminate.
  - destruct s; split; reflexivity.
  - split; reflexivity.
Qed.

Lemma value_100 : (fp.value 100 == 100)%Q.
Proof. vm_compute. reflexivity. Qed.

Lemma value_0 : (fp.value 0 == 0)%Q.
Proof. vm_compute. reflexivity. Qed.

Lemma pow2_neg (n : positive) : (pow2 (Z.neg n) == 1 # 2 ^ n)%Q.
Proof.
  unfold pow2. change (Z.neg n) with (- Z.pos n)%Z. rewrite Qpower_opp.
  change 2%Q with (inject_Z 2). rewrite <- Zpower_Qpower by lia.
  change 2%Z with (Z.pos 2). rewrite <- Pos2Z.inj_pow. reflexivity.
Qed.






(** In binary64, normalizing a whole number of [0, 100] twice returns it
    to within 2^-47, and 7, 14, 28, 29, 55, 56, 57 and 58 are the whole
    numbers that do not come back exactly. *)
Example normalize_twice_whole_numbers :
  forallb (fun k : Z =>
             match fp.normalize_twice (fp.of_Z k) with
             | [y] => Qle_bool (Qabs (fp.value y - inject_Z k)) (1 # 2 ^ 47)
             | _ => false
             end)
    (seqZ 0 101) = true
  /\ List.filter (fun k : Z =>
                    match fp.normalize_twice (fp.of_Z k) with
                    | [y] => negb (y =? fp.of_Z k)%float
                    | _ => true
                    end)
       (seqZ 0 101)
     = [7; 14; 28; 29; 55; 56; 57; 58]%Z.
Proof. split; vm_compute; reflexivity. Qed.

(** ** The float32 accumulation of line 237 *)

Lemma value_1 : (fp.value 1 == 1)%Q.
Proof. vm_compute. reflexivity. Qed.

Lemma within_le (x : float) (lo hi : Q) :
  within x lo -> (lo <= hi)%Q -> within x hi.
Proof. intros (F & P & L) H. repeat split; [exact F | exact P | lra]. Qed.

(** A factor for which higher is better: [(clip(a) - lo) / (hi - lo) * 100]. *)
Lemma normalize_direct_within (a lo hi : float) :
  fp.finite a = true -> fp.finite lo = true -> fp.finite hi = true ->
  fp.finite (hi - lo)%float = true ->
  (fp.value (hi - lo)%float == fp.value hi - fp.value lo)%Q ->
  (8 <= fp.value hi - fp.value lo)%Q ->
  (fp.value hi - fp.value lo <= 10000)%Q ->
  within (((fp.clip a lo hi - lo) / (hi - lo)) * 100)%float
    (100 + pow2 (-30)).
Proof.
  intros Fa Fl Fh Fd Vd D8 D1.
  destruct (clip_value a lo hi Fa Fl Fh) as [Fc Vc].
  set (c := fp.clip a lo hi) in *.
  set (vc := Qmin (Qmax (fp.value a) (fp.value lo)) (fp.value hi)) in *.
  assert (Rc : (fp.value lo <= vc)%Q /\ (vc <= fp.value hi)%Q).
  { unfold vc. split; [apply Q.min_glb; [apply Q.le_max_r | lra]
                      | apply Q.le_min_r]. }
  destruct (sub_value c lo 14 Fc Fl) as (Fs & Rs).
  { rewrite Vc, Qabs_pos by lra. change (pow2 14) with 16384%Q. lra. }
  { lia. } { lia. }
  change (Z.max (14 - 52) (-1074) + 1)%Z with (-37)%Z in Rs.
  destruct Rs as (Es & Ss & _). rewrite Vc in Es, Ss.
  set (s := (c - lo)%float) in *.
  assert (Ps : (0 <= fp.value s)%Q) by (apply Ss; lra).
  apply Qabs_Qle_condition in Es.
  assert (P37 : (pow2 (-37) == 1 # 137438953472)%Q) by reflexivity.
  assert (P40 : (pow2 (-40) == 1 # 1099511627776)%Q) by reflexivity.
  assert (P43 : (pow2 (-43) == 1 # 8796093022208)%Q) by reflexivity.
  assert (P30 : (pow2 (-30) == 1 # 1073741824)%Q) by reflexivity.
  set (d := (hi - lo)%float) in *.
  destruct (div_value s d 14 3 Fs Fd) as (Ft & Rt & _).
  { rewrite Qabs_pos by exact Ps. change (pow2 14) with 16384%Q. lra. }
  { rewrite Vd, Qabs_pos by lra. change (pow2 3) with 8%Q. lra. }
  { lia. } { lia. }
  change (Z.max (14 - 3 - 52) (-1074) + 1)%Z with (-40)%Z in Rt.
  destruct Rt as (Et & St & _).
  set (t := (s / d)%float) in *.
  assert (Q0 : (0 <= fp.value s / fp.value d)%Q)
    by (apply Qle_shift_div_l; lra).
  assert (Q1 : (fp.value s / fp.value d <= 1 + (1 # 1099511627776))%Q)
    by (apply Qle_shift_div_r; lra).
  assert (Pt : (0 <= fp.value t)%Q) by (apply St; exact Q0).
  apply Qabs_Qle_condition in Et.
  destruct (mul_value t 100 1 7 Ft eq_refl) as (Fr & Rr).
  { rewrite Qabs_pos by exact Pt. change (pow2 1) with 2%Q. lra. }
  { rewrite value_100. change (pow2 7) with 128%Q. reflexivity. }
  { lia. } { lia. } { lia. }
  change (Z.max (1 + 7 - 52) (-1074) + 1)%Z with (-43)%Z in Rr.
  destruct Rr as (Er & Sr & _). rewrite value_100 in Er, Sr.
  apply Qabs_Qle_condition in Er.
  split; [exact Fr |]. split; [apply Sr; lra | lra].
Qed.

(** A factor for which lower is better, clipped from 0:
    [(1 - (clip(a) - 0) / (hi - 0)) * 100]. *)
Lemma normalize_inverted_within (a hi : float) :
  fp.finite a = true -> fp.finite hi = true ->
  (8 <= fp.value hi)%Q -> (fp.value hi <= 10000)%Q ->
  within ((1 - (fp.clip a 0 hi - 0) / (hi - 0)) * 100)%float
    (100 + pow2 (-30)).
Proof.
  intros Fa Fh D8 D1.
  destruct (clip_value a 0 hi Fa eq_refl Fh) as [Fc Vc].
  rewrite value_0 in Vc.
  set (c := fp.clip a 0 hi) in *.
  set (vc := Qmin (Qmax (fp.value a) 0) (fp.value hi)) in *.
  assert (Rc : (0 <= vc)%Q /\ (vc <= fp.value hi)%Q).
  { unfold vc. split; [apply Q.min_glb; [apply Q.le_max_r | lra]
                      | apply Q.le_min_r]. }
  destruct (sub_zero_value c Fc) as [Fs Vs]. rewrite Vc in Vs.
  destruct (sub_zero_value hi Fh) as [Fd Vd].
  set (s := (c - 0)%float) in *. set (d := (hi - 0)%float) in *.
  assert (P43 : (pow2 (-43) == 1 # 8796093022208)%Q) by reflexivity.
  assert (P50 : (pow2 (-50) == 1 # 1125899906842624)%Q) by reflexivity.
  assert (P30 : (pow2 (-30) == 1 # 1073741824)%Q) by reflexivity.
  destruct (div_value s d 14 3 Fs Fd) as (Ft & Rt & Mt).
  { rewrite Vs, Qabs_pos by tauto. change (pow2 14) with 16384%Q. lra. }
  { rewrite Vd, Qabs_pos by lra. change (pow2 3) with 8%Q. lra. }
  { lia. } { lia. }
  destruct Rt as (_ & St & _).
  set (t := (s / d)%float) in *.
  assert (Q0 : (0 <= fp.value s / fp.value d)%Q)
    by (apply Qle_shift_div_l; lra).
  assert (Pt : (0 <= fp.value t)%Q) by (apply St; exact Q0).
  assert (Lt : (fp.value t <= 1)%Q).
  { specialize (Mt 0%Z). rewrite (Qabs_pos (fp.value t)) in Mt by exact Pt.
    change (pow2 0) with 1%Q in Mt. apply Mt; [| lia].
    rewrite !Qabs_pos by lra. lra. }
  destruct (sub_value 1 t 1 eq_refl Ft) as (Fu & Ru).
  { rewrite value_1, Qabs_pos by lra. change (pow2 1) with 2%Q. lra. }
  { lia. } { lia. }
  change (Z.max (1 - 52) (-1074) + 1)%Z with (-50)%Z in Ru.
  destruct Ru as (Eu & Su & _). rewrite value_1 in Eu, Su.
  set (u := (1 - t)%float) in *.
  assert (Pu : (0 <= fp.value u)%Q) by (apply Su; lra).
  apply Qabs_Qle_condition in Eu.
  destruct (mul_value u 100 1 7 Fu eq_refl) as (Fr & Rr).
  { rewrite Qabs_pos by exact Pu. change (pow2 1) with 2%Q. lra. }
  { rewrite value_100. change (pow2 7) with 128%Q. reflexivity. }
  { lia. } { lia. } { lia. }
  change (Z.max (1 + 7 - 52) (-1074) + 1)%Z with (-43)%Z in Rr.
  destruct Rr as (Er & Sr & _). rewrite value_100 in Er, Sr.
  apply Qabs_Qle_condition in Er.
  split; [exact Fr |]. split; [apply Sr; lra | lra].
Qed.

Lemma normalize_array_direct (arr : list float) (lo hi : float) :
  fp.normalize_array arr lo hi false
  = map (fun a => ((fp.clip a lo hi - lo) / (hi - lo) * 100)%float) arr.
Proof. unfold fp.normalize_array. rewrite !map_map. reflexivity. Qed.

Lemma normalize_array_inverted (arr : list float) (lo hi : float) :
  fp.normalize_array arr lo hi true
  = map (fun a => ((1 - (fp.clip a lo hi - lo) / (hi - lo)) * 100)%float) arr.
Proof. unfold fp.normalize_array. rewrite !map_map. reflexivity. Qed.

Lemma normalize_factors_within (weights : list (string * float))
    (ghi slope grid_dist road_dist : list float) (k : string)
    (layer : list float) :
  Forall (fun a => fp.finite a = true) ghi ->
  Forall (fun a => fp.finite a = true) slope ->
  Forall (fun a => fp.finite a = true) grid_dist ->
  Forall (fun a => fp.finite a = true) road_dist ->
  fp.normalize_factors weights ghi slope grid_dist road_dist !! k
  = Some layer ->
  In k ["road_dist"; "grid_dist"; "slope"; "ghi"]
  /\ Forall (fun n => within n (100 + pow2 (-30))) layer.
Proof.
  intros Fg Fs Fd Fr.
  assert (Hg : Forall (fun n => within n (100 + pow2 (-30)))
                 (fp.normalize_array ghi 1000 2500 false)).
  { rewrite normalize_array_direct. apply List.Forall_map.
    eapply List.Forall_impl; [| exact Fg]. intros a Fa.
    apply normalize_direct_within; try reflexivity; try exact Fa;
      vm_compute; try reflexivity; discriminate. }
  assert (Hi : forall arr hi,
             Forall (fun a => fp.finite a = true) arr ->
             fp.finite hi = true -> (8 <= fp.value hi)%Q ->
             (fp.value hi <= 10000)%Q ->
             Forall (fun n => within n (100 + pow2 (-30)))
               (fp.normalize_array arr 0 hi true)).
  { intros arr hi Fa Fh H8 H1. rewrite normalize_array_inverted.
    apply List.Forall_map. eapply List.Forall_impl; [| exact Fa].
    intros a Fx. by apply normalize_inverted_within. }
  assert (Hs := Hi slope 10%float Fs eq_refl ltac:(vm_compute; discriminate)
                  ltac:(vm_compute; discriminate)).
  assert (Hd := Hi grid_dist 10000%float Fd eq_refl
                  ltac:(vm_compute; discriminate)
                  ltac:(vm_compute; discriminate)).
  assert (Hr := Hi road_dist 5000%float Fr eq_refl
                  ltac:(vm_compute; discriminate)
                  ltac:(vm_compute; discriminate)).
  clear Hi. unfold fp.normalize_factors, fp.normalize_step.
  destruct (dict_contains "ghi" weights);
    destruct (dict_contains "slope" weights);
    destruct (dict_contains "grid_dist" weights);
    destruct (dict_contains "road_dist" weights);
    intros H;
    repeat (apply lookup_insert_Some in H as [[<- <-] | [_ H]];
            [split; [simpl; tauto | assumption] |]);
    by rewrite lookup_empty in H.
Qed.

(** One step of the accumulation for one pixel:
    [float32(acc + n * (w / 100.0))]. *)
Lemma accumulate_within (acc n w : float) (B : Q) :
  within acc B -> within n (100 + pow2 (-30)) ->
  fp.finite w = true -> (0 <= fp.value w)%Q -> (B + fp.value w <= 101)%Q ->
  within (fp.float32 (acc + n * (w / 100)))%float
    (B + fp.value w + pow2 (-14)).
Proof.
  intros (Fa & Pa & La) (Fn & Pn & Ln) Fw Pw Hw.
  assert (P30 : (pow2 (-30) == 1 # 1073741824)%Q) by reflexivity.
  assert (P50 : (pow2 (-50) == 1 # 1125899906842624)%Q) by reflexivity.
  assert (P43 : (pow2 (-43) == 1 # 8796093022208)%Q) by reflexivity.
  assert (P44 : (pow2 (-44) == 1 # 17592186044416)%Q) by reflexivity.
  assert (P15 : (pow2 (-15) == 1 # 32768)%Q) by reflexivity.
  assert (P14 : (pow2 (-14) == 1 # 16384)%Q) by reflexivity.
  rewrite P30 in Ln.
  destruct (div_value w 100 7 6 Fw eq_refl) as (Fq & Rq & _).
  { rewrite Qabs_pos by exact Pw. change (pow2 7) with 128%Q. lra. }
  { rewrite value_100. change (pow2 6) with 64%Q. discriminate. }
  { lia. } { lia. }
  change (Z.max (7 - 6 - 52) (-1074) + 1)%Z with (-50)%Z in Rq.
  destruct Rq as (Eq & Sq & _). rewrite value_100 in Eq, Sq.
  set (q := (w / 100)%float) in *.
  set (z := (fp.value w / 100)%Q) in *.
  assert (Ez : (fp.value w == z * 100)%Q) by (unfold z; field).
  assert (Pq : (0 <= fp.value q)%Q) by (apply Sq; lra).
  apply Qabs_Qle_condition in Eq.
  destruct (mul_value n q 7 1 Fn Fq) as (Fp & Rp).
  { rewrite Qabs_pos by exact Pn. change (pow2 7) with 128%Q. lra. }
  { rewrite Qabs_pos by exact Pq. change (pow2 1) with 2%Q. lra. }
  { lia. } { lia. } { lia. }
  change (Z.max (7 + 1 - 52) (-1074) + 1)%Z with (-43)%Z in Rp.
  destruct Rp as (Ep & Sp & _).
  set (p := (n * q)%float) in *.
  assert (M0 : (0 <= fp.value n * fp.value q)%Q)
    by (apply Qmult_le_0_compat; assumption).
  assert (M1 : (fp.value n * fp.value q
                <= (100 + (1 # 1073741824)) * (z + (1 # 1125899906842624)))%Q).
  { apply Qle_trans with ((100 + (1 # 1073741824)) * fp.value q)%Q.
    - apply Qmult_le_compat_r; [exact Ln | exact Pq].
    - rewrite !(Qmult_comm (100 + (1 # 1073741824))).
      apply Qmult_le_compat_r; [lra | discriminate]. }
  assert (Pp : (0 <= fp.value p)%Q) by (apply Sp; exact M0).
  apply Qabs_Qle_condition in Ep.
  assert (Lp : (fp.value p <= fp.value w + (1 # 536870912))%Q) by lra.
  destruct (add_value acc p 7 Fa Fp) as (Fs & Rs).
  { rewrite Qabs_pos by lra. change (pow2 7) with 128%Q. lra. }
  { lia. } { lia. }
  change (Z.max (7 - 52) (-1074) + 1)%Z with (-44)%Z in Rs.
  destruct Rs as (Es & Ss & _).
  set (s := (acc + p)%float) in *.
  assert (Ps : (0 <= fp.value s)%Q) by (apply Ss; lra).
  apply Qabs_Qle_condition in Es.
  destruct (float32_value s 7 Fs) as (Fr & Rr).
  { rewrite Qabs_pos by exact Ps. change (pow2 7) with 128%Q. lra. }
  { lia. } { lia. }
  change (Z.max (7 - 23) (-149) + 1)%Z with (-15)%Z in Rr.
  destruct Rr as (Er & Sr & _).
  apply Qabs_Qle_condition in Er.
  split; [exact Fr |]. split; [apply Sr; exact Ps | lra].
Qed.

Lemma Forall_zip_with_both {A B C : Type} (P : A -> Prop) (R : B -> Prop)
    (T : C -> Prop) (f : A -> B -> C) (a : list A) (b : list B) :
  (forall x y, P x -> R y -> T (f x y)) ->
  Forall P a -> Forall R b -> Forall T (zip_with f a b).
Proof.
  intros Hf Ha. revert b. induction Ha as [| x a Hx Ha IH]; intros b Hb.
  - constructor.
  - destruct Hb as [| y b Hy Hb]; simpl; constructor; auto.
Qed.

Lemma weight_sum_cons (w : Q) (rest : list Q) :
  (py_sum (w :: rest) == w + py_sum rest)%Q.
Proof. rewrite !py_sum_np_sum. reflexivity. Qed.

Lemma weight_sum_nonneg (values : list Q) :
  Forall (fun w => (0 <= w)%Q) values -> (0 <= py_sum values)%Q.
Proof.
  induction 1 as [| w rest Hw _ IH]; [discriminate |].
  rewrite weight_sum_cons. lra.
Qed.

(** The whole loop of lines 235-238, with [B] a bound on what the map holds
    at the start: each item that goes through adds its weight and at most
    2^-14 of rounding. *)
Lemma weighted_overlay_within (normalized_layers : gmap string (list float))
    (items : list (string * float)) (final_map out : list float) (B : Q) :
  (forall k layer, normalized_layers !! k = Some layer ->
     Forall (fun n => within n (100 + pow2 (-30))) layer) ->
  Forall (fun kv : string * float =>
            fp.finite (snd kv) = true /\ (0 <= fp.value (snd kv))%Q) items ->
  Forall (fun a => within a B) final_map ->
  (0 <= B)%Q ->
  (B + py_sum (map snd (stored_weights items))
   + inject_Z (Z.of_nat (length (contributing items normalized_layers)))
     * pow2 (-14)
   <= 100 + 4 * pow2 (-14))%Q ->
  fp.weighted_overlay items normalized_layers final_map = Ok out ->
  length out = length final_map
  /\ Forall (fun a => within a (100 + 4 * pow2 (-14))) out.
Proof.
  intros Hl Hw. revert final_map B.
  assert (P14 : (pow2 (-14) == 1 # 16384)%Q) by reflexivity.
  induction Hw as [| [k w] rest [Fw Pw] Hrest IH]; intros fm B Hfm PB Hsum.
  - simpl. intros H. inversion H; subst. split; [reflexivity |].
    eapply List.Forall_impl; [| exact Hfm]. intros a Ha.
    apply within_le with B; [exact Ha |].
    unfold stored_weights, contributing in Hsum.
    cbn [map List.filter length Z.of_nat] in Hsum.
    change (py_sum []) with 0%Q in Hsum.
    change (inject_Z (Z.of_nat 0)) with 0%Q in Hsum.
    rewrite P14 in Hsum |- *. lra.
  - simpl in Fw, Pw.
    assert (Prest : (0 <= py_sum (map snd (stored_weights rest)))%Q).
    { apply weight_sum_nonneg. unfold stored_weights. rewrite map_map.
      apply List.Forall_map. eapply List.Forall_impl; [| exact Hrest].
      intros kv [_ H]. exact H. }
    assert (Pc : (0 <= inject_Z (Z.of_nat
                     (length (contributing rest normalized_layers))))%Q).
    { change 0%Q with (inject_Z 0). rewrite <- Zle_Qle. lia. }
    assert (Esum : (py_sum (map snd (stored_weights ((k, w) :: rest)))
                    == fp.value w + py_sum (map snd (stored_weights rest)))%Q).
    { unfold stored_weights. cbn [map fst snd]. apply weight_sum_cons. }
    rewrite Esum in Hsum. clear Esum.
    unfold contributing in Hsum. cbn [List.filter fst] in Hsum.
    fold (contributing rest normalized_layers) in Hsum.
    cbn [fp.weighted_overlay].
    destruct (normalized_layers !! k) as [layer |] eqn:Hk.
    + cbn [length] in Hsum. rewrite Nat2Z.inj_succ in Hsum.
      unfold Z.succ in Hsum. rewrite inject_Z_plus in Hsum.
      change (inject_Z 1) with 1%Q in Hsum.
      set (c := inject_Z (Z.of_nat
                 (length (contributing rest normalized_layers)))) in *.
      assert (Pcd : (0 <= c * pow2 (-14))%Q)
        by (apply Qmult_le_0_compat; [exact Pc | rewrite P14; discriminate]).
      intros H. apply bind_Ok in H as (fm' & Hadd & H).
      unfold fp.iadd_float32 in Hadd.
      destruct (decide (length fm = length (fp.scale layer (w / 100)%float)))
        as [Hlen |]; [| discriminate].
      inversion Hadd; subst fm'; clear Hadd.
      apply (IH _ (B + fp.value w + pow2 (-14))%Q) in H.
      * destruct H as [L P]. split; [| exact P].
        rewrite L. apply length_zip_with_same. exact Hlen.
      * unfold fp.scale.
        apply (Forall_zip_with_both (fun a => within a B)
                 (fun y => exists n, within n (100 + pow2 (-30))
                                     /\ y = (n * (w / 100))%float)).
        -- intros x y Hx (n & Hn & ->).
           apply accumulate_within; try assumption. lra.
        -- exact Hfm.
        -- apply List.Forall_map. eapply List.Forall_impl; [| exact (Hl _ _ Hk)].
           intros n Hn. exists n. split; [exact Hn | reflexivity].
      * lra.
      * lra.
    + intros H. apply (IH _ B) in H; [exact H | exact Hfm | exact PB |].
      lra.
Qed.

Lemma contributing_keys (items : list (string * float))
    (normalized_layers : gmap string (list float)) (names : list string) :
  NoDup (map fst items) ->
  (forall k layer, normalized_layers !! k = Some layer -> In k names) ->
  length (contributing items normalized_layers) <= length names.
Proof.
  intros Hnd Hk. apply NoDup_ListNoDup in Hnd.
  rewrite <- (length_map fst (contributing items normalized_layers)).
  apply List.NoDup_incl_length.
  - unfold contributing. induction items as [| kv rest IH]; [constructor |].
    simpl in Hnd. apply List.NoDup_cons_iff in Hnd as [Hin Hnd].
    simpl. destruct (normalized_layers !! fst kv); [| by apply IH].
    simpl. constructor; [| by apply IH].
    intros Hc. apply Hin. apply List.in_map_iff in Hc as (kv' & E & Hc).
    apply List.filter_In in Hc as [Hc _].
    rewrite <- E. by apply List.in_map.
  - intros k Hin. unfold contributing in Hin.
    apply List.in_map_iff in Hin as (kv & <- & Hin).
    apply List.filter_In in Hin as [_ Hin].
    destruct (normalized_layers !! fst kv) as [layer |] eqn:E;
      [| discriminate].
    eapply Hk; eauto.
Qed.

(** C6 (amended).  Take weights with distinct names, each a finite
    non-negative binary64 number, whose values sum to 100, and four bands of
    finite numbers.  Then every pixel of the float32 map of lines 233-242
    that the exclusion mask leaves alone holds a finite score of at least 0
    and at most 100 + 2^-12: each of the at most four accumulations of line
    237 adds its weighted factor and at most 2^-14 of rounding. *)
Theorem float32_scores_bounded (weights : list (string * float))
    (ghi_data slope_data grid_dist_data road_dist_data : list float)
    (constraint_mask : list bool) (final_map : list float) (i : nat) :
  NoDup (map fst weights) ->
  Forall (fun kv : string * float =>
            fp.finite (snd kv) = true /\ (0 <=? snd kv)%float = true)
    weights ->
  (py_sum (map snd (stored_weights weights)) == 100)%Q ->
  Forall (fun a => fp.finite a = true) ghi_data ->
  Forall (fun a => fp.finite a = true) slope_data ->
  Forall (fun a => fp.finite a = true) grid_dist_data ->
  Forall (fun a => fp.finite a = true) road_dist_data ->
  fp.final_map weights ghi_data slope_data grid_dist_data road_dist_data
    constraint_mask = Ok final_map ->
  i < length final_map -> nth i constraint_mask false = false ->
  fp.finite (nth i final_map 0%float) = true
  /\ (0 <= fp.value (nth i final_map 0%float))%Q
  /\ (fp.value (nth i final_map 0%float) <= 100 + (1 # 4096))%Q.
Proof.
  intros Hnd Hw Hsum Fg Fs Fd Fr Hrun Hi Hm.
  unfold fp.final_map in Hrun.
  apply bind_Ok in Hrun as (fm & Hov & Hset).
  set (layers := fp.normalize_factors weights ghi_data slope_data
                   grid_dist_data road_dist_data) in *.
  assert (P14 : (pow2 (-14) == 1 # 16384)%Q) by reflexivity.
  assert (Hc : length (contributing weights layers) <= 4).
  { apply (contributing_keys weights layers
             ["road_dist"; "grid_dist"; "slope"; "ghi"] Hnd).
    intros k layer Hk.
    by apply (normalize_factors_within _ _ _ _ _ _ _ Fg Fs Fd Fr) in Hk
      as [Hk _]. }
  apply (weighted_overlay_within layers weights _ _ 0%Q) in Hov
    as [Lfm Hfm].
  - unfold fp.setmask in Hset.
    destruct (decide (length fm = length constraint_mask)) as [Hlen |];
      [| discriminate].
    inversion Hset; subst final_map; clear Hset.
    rewrite length_zip_with_same in Hi by exact Hlen.
    rewrite (nth_zip_with _ _ _ 0%float false) by (try exact Hlen; exact Hi).
    rewrite Hm.
    rewrite List.Forall_forall in Hfm.
    destruct (Hfm (nth i fm 0%float)) as (F & P & L);
      [apply nth_In; exact Hi |].
    split; [exact F |]. split; [exact P |].
    rewrite P14 in L. assert ((1 # 4096) == 4 * (1 # 16384))%Q by reflexivity.
    lra.
  - intros k layer Hk.
    by apply (normalize_factors_within _ _ _ _ _ _ _ Fg Fs Fd Fr) in Hk
      as [_ Hk].
  - eapply List.Forall_impl; [| exact Hw]. intros [k w] [Fw Pw].
    simpl in *. split; [exact Fw |].
    apply (leb_value 0 w eq_refl Fw) in Pw. by rewrite value_0 in Pw.
  - unfold fp.zeros. apply Forall_replicate.
    split; [reflexivity | split; rewrite value_0; discriminate].
  - discriminate.
  - rewrite Hsum.
    assert ((inject_Z (Z.of_nat (length (contributing weights layers)))
             <= 4)%Q).
    { change 4%Q with (inject_Z 4). rewrite <- Zle_Qle. lia. }
    rewrite P14. lra.
Qed.

Lemma float32_scores_bounded_witness :
  fp.final_map DemoRounding.weights DemoRounding.ghi_data
    DemoRounding.slope_data DemoRounding.grid_dist_data
    DemoRounding.road_dist_data [false] = Ok [0x1.900002p+6%float]
  /\ fp.finite 0x1.900002p+6%float = true
  /\ (0 <= fp.value 0x1.900002p+6%float)%Q
  /\ (fp.value 0x1.900002p+6%float <= 100 + (1 # 4096))%Q.
Proof.
  split; [vm_compute; reflexivity |].
  apply (float32_scores_bounded DemoRounding.weights DemoRounding.ghi_data
           DemoRounding.slope_data DemoRounding.grid_dist_data
           DemoRounding.road_dist_data [false] [0x1.900002p+6%float] 0%nat).
  - apply (bool_decide_unpack _). vm_compute. exact I.
  - repeat constructor.
  - vm_compute. reflexivity.
  - repeat constructor.
  - repeat constructor.
  - repeat constructor.
  - repeat constructor.
  - vm_compute. reflexivity.
  - simpl. lia.
  - reflexivity.
Defined.

(** C6 fails as stated: with the weights 77.24633407592773,
    17.355632781982422 and 5.398033142089844, which are positive and sum to
    100, a pixel where the three factors are at their best is stored as
    100.00000762939453.  The first two sums, 77.24633407592773 and
    94.60197067260742, each lie halfway between two float32 numbers and are
    stored as the upper ones, 77.246337890625 and 94.60197448730469; the
    third sum is then 100.00000762939453, a float32 number. *)
Lemma scores_within_0_100_counterexample :
  ~ scores_within_0_100 DemoRounding.weights DemoRounding.ghi_data
      DemoRounding.slope_data DemoRounding.grid_dist_data
      DemoRounding.road_dist_data [false].
Proof.
  intros Hclaim.
  assert (Hw : Forall (fun kv : string * float => (0 <=? snd kv)%float = true)
                 DemoRounding.weights) by (repeat constructor).
  assert (Hsum : (py_sum (map snd (stored_weights DemoRounding.weights))
                  == 100)%Q) by (vm_compute; reflexivity).
  destruct (Hclaim Hw Hsum [0x1.900002p+6%float] eq_refl 0%nat) as [_ Hle];
    [simpl; lia | reflexivity |].
  vm_compute in Hle. discriminate Hle.
Qed.

(** The steps of that accumulation. *)
Example float32_accumulation_steps :
  (0 + 100 * (0x1.34fc3fp+6 / 100))%float = 0x1.34fc3fp+6%float
  /\ fp.float32 0x1.34fc3fp+6%float = 0x1.34fc4p+6%float
  /\ (0x1.34fc4p+6 + 100 * (0x1.15b0acp+4 / 100))%float
     = 0x1.7a686bp+6%float
  /\ fp.float32 0x1.7a686bp+6%float = 0x1.7a686cp+6%float
  /\ (0x1.7a686cp+6 + 100 * (0x1.59796p+2 / 100))%float
     = 0x1.900002p+6%float
  /\ fp.float32 0x1.900002p+6%float = 0x1.900002p+6%float.
Proof. repeat split; vm_compute; reflexivity. Qed.

(** ** Binary64 comparisons *)














(** ** Claims about admission *)






(** The other way round: 56.87, 23.69 and 19.43 sum to less than 99.99, and
    the request is admitted, for their binary64 sum is 99.99000000000001. *)
Example admission_outside_tolerance :
  ~ within_tolerance (stored_weights (new_weights_json DemoAdmission.below))
  /\ exists job,
       adm_result (create_and_queue_job DemoAdmission.empty_store [] 1 1
                     DemoAdmission.below) = Ok job.
Proof.
  split.
  - unfold within_tolerance. rewrite <- Qle_bool_iff. vm_compute. discriminate.
  - eexists. vm_compute. reflexivity.
Qed.



(** The specification's scenario: weights summing to 99 are rejected. *)
Example admission_rejects_99 :
  adm_result (create_and_queue_job DemoAdmission.empty_store [] 1 1
                DemoAdmission.short)
  = Raise (ValueError_weights 99%float)
  /\ adm_db (create_and_queue_job DemoAdmission.empty_store [] 1 1
               DemoAdmission.short)
     = DemoAdmission.empty_store.
Proof. split; reflexivity. Qed.



(** ** Claims about the worker task *)

Lemma status_in_commit (db : Session) (job_id : Z) (job : AnalysisJob.t) :
  status_in (commit db job_id job) job_id = Some (AnalysisJob.status job).
Proof. unfold status_in, commit. simpl. by rewrite lookup_insert_eq. Qed.

Section WorkerClaims.

Variable clip_raster_to_aoi : string -> Geometry -> list Q.
Variable calculate_slope_from_dem : list Q -> list Q.

Local Abbreviation deliver :=
  (run_mcda_analysis clip_raster_to_aoi calculate_slope_from_dem).

(** C3 (amended).  A delivery whose job id is not in the store commits
    nothing.  A delivery whose job exists commits RUNNING first, whatever
    status the job had, and then COMPLETE or FAILED: the transition to
    RUNNING is not guarded by the current status. *)
Theorem delivery_sets_running_unguarded (db : Session) (job_id : Z) :
  match analysis_jobs db !! job_id with
  | None => commits (deliver db job_id) = []
  | Some job =>
      exists db2,
        commits (deliver db job_id)
        = [commit db job_id (set_running job); db2]
        /\ status_in (commit db job_id (set_running job)) job_id
           = Some RUNNING
        /\ (status_in db2 job_id = Some COMPLETE
            \/ status_in db2 job_id = Some FAILED)
  end.
Proof.
  unfold run_mcda_analysis.
  destruct (analysis_jobs db !! job_id) as [job |]; [| reflexivity].
  destruct (process_mcda_job _ _ _ _) as [result | e]; simpl;
    eexists; (split; [reflexivity |]);
    rewrite !status_in_commit; destruct job; simpl; auto.
Qed.

End WorkerClaims.

(** C3 fails as stated, on a duplicate delivery: the first delivery takes
    the job from PENDING to COMPLETE, the second finds it COMPLETE and still
    commits RUNNING, then COMPLETE again. *)
Lemma pending_guarded_counterexample :
  status_in (Demo.store Demo.job4) 1 = Some PENDING
  /\ status_in Demo.delivered_once 1 = Some COMPLETE
  /\ status_history
       (run_mcda_analysis Demo.clip4 Demo.slope4 Demo.delivered_once 1) 1
     = [Some RUNNING; Some COMPLETE]
  /\ ~ pending_guarded Demo.clip4 Demo.slope4 Demo.delivered_once 1.
Proof.
  assert (Hst : status_in Demo.delivered_once 1 = Some COMPLETE)
    by (vm_compute; reflexivity).
  split; [vm_compute; reflexivity |]. split; [exact Hst |].
  split; [vm_compute; reflexivity |].
  intros Hclaim. unfold status_in in Hst.
  destruct (analysis_jobs Demo.delivered_once !! 1%Z) as [job |] eqn:E;
    [| discriminate Hst].
  simpl in Hst. inversion Hst as [Hjob].
  assert (Hne : AnalysisJob.status job <> PENDING) by (rewrite Hjob; discriminate).
  specialize (Hclaim job E Hne). vm_compute in Hclaim. discriminate Hclaim.
Qed.

(** * Further properties *)

(** ** The normalizer on arbitrary input *)












(** ** More about the constraint mask and the overlay *)

(** X5.  Declaring further constraints never readmits a pixel: a pixel
    excluded under [c] is excluded under every [c'] that declares at least
    the constraints of [c] with the same values. *)
Theorem more_constraints_exclude_more (c c' : Constraints)
    (ghi slope lulc grid_dist : list Q) (mask mask' : list bool) :
  declares_at_least c c' ->
  compile_constraints c ghi slope lulc grid_dist = Ok mask ->
  compile_constraints c' ghi slope lulc grid_dist = Ok mask' ->
  forall i, i < length ghi ->
    nth i mask false = true -> nth i mask' false = true.
Proof.
  intros (Ds & Dl & Dg) H H' i Hi.
  apply compile_constraints_Ok in H as [_ P].
  apply compile_constraints_Ok in H' as [_ P'].
  rewrite (P i Hi), (P' i Hi), !constraint_fires_iff.
  intros [(v & Hv & Hlt) | [(cs & x & Hcs & Hin & Hx) | (v & Hv & Hlt)]].
  - left. exists v. auto.
  - right; left. exists cs, x. auto.
  - right; right. exists v. auto.
Qed.

Lemma more_constraints_exclude_more_witness :
  declares_at_least
    {| slope_gt := Some 10%Q; lulc_exclude := None; grid_dist_gt := None |}
    Demo.constraints4
  /\ compile_constraints
       {| slope_gt := Some 10%Q; lulc_exclude := None; grid_dist_gt := None |}
       [2500; 1750; 1000; -9999]%Q [0; 5; 15; -9999]%Q [30; 30; 30; 50]%Q
       [0; 5000; 0; -9999]%Q
     = Ok [false; false; true; false]
  /\ compile_constraints Demo.constraints4
       [2500; 1750; 1000; -9999]%Q [0; 5; 15; -9999]%Q [30; 30; 30; 50]%Q
       [0; 5000; 0; -9999]%Q
     = Ok [false; false; true; true]
  /\ (nth 2 [false; false; true; false] false = true ->
      nth 2 [false; false; true; true] false = true).
Proof.
  assert (D : declares_at_least
                {| slope_gt := Some 10%Q; lulc_exclude := None;
                   grid_dist_gt := None |} Demo.constraints4).
  { repeat split; simpl; intros ? H; inversion H; reflexivity. }
  assert (E : compile_constraints
                {| slope_gt := Some 10%Q; lulc_exclude := None;
                   grid_dist_gt := None |}
                [2500; 1750; 1000; -9999]%Q [0; 5; 15; -9999]%Q
                [30; 30; 30; 50]%Q [0; 5000; 0; -9999]%Q
              = Ok [false; false; true; false]) by (vm_compute; reflexivity).
  assert (E' : compile_constraints Demo.constraints4
                 [2500; 1750; 1000; -9999]%Q [0; 5; 15; -9999]%Q
                 [30; 30; 30; 50]%Q [0; 5000; 0; -9999]%Q
               = Ok [false; false; true; true]) by (vm_compute; reflexivity).
  split; [exact D |]. split; [exact E |]. split; [exact E' |].
  apply (more_constraints_exclude_more _ _ _ _ _ _ _ _ D E E' 2%nat).
  simpl. lia.
Defined.

Lemma dict_contains_recognized_items (k : string) (weights : list (string * Q)) :
  is_recognized k = true ->
  dict_contains k (recognized_items weights) = dict_contains k weights.
Proof.
  intros Hk. unfold dict_contains, recognized_items.
  induction weights as [| [k' w] rest IH]; simpl; [reflexivity |].
  destruct (is_recognized k') eqn:Hk'; simpl; [by rewrite IH |].
  rewrite IH. destruct (String.eqb_spec k k') as [-> | _]; [congruence | reflexivity].
Qed.

Lemma normalize_factors_recognized_items (weights : list (string * Q))
    (ghi slope grid_dist road_dist : list Q) :
  normalize_factors (recognized_items weights) ghi slope grid_dist road_dist
  = normalize_factors weights ghi slope grid_dist road_dist.
Proof.
  unfold normalize_factors, normalize_step.
  by rewrite !dict_contains_recognized_items.
Qed.

Lemma normalize_factors_unrecognized (weights : list (string * Q))
    (ghi slope grid_dist road_dist : list Q) (k : string) :
  is_recognized k = false ->
  normalize_factors weights ghi slope grid_dist road_dist !! k = None.
Proof.
  intros Hk.
  destruct (normalize_factors weights ghi slope grid_dist road_dist !! k)
    as [layer |] eqn:E; [| reflexivity].
  apply normalize_factors_lookup in E
    as [_ [[-> _] | [[-> _] | [[-> _] | [-> _]]]]]; discriminate Hk.
Qed.

Lemma weighted_overlay_recognized_items (weights : list (string * Q))
    (normalized_layers : gmap string (list Q)) (final_map : list Q) :
  (forall k, is_recognized k = false -> normalized_layers !! k = None) ->
  weighted_overlay (recognized_items weights) normalized_layers final_map
  = weighted_overlay weights normalized_layers final_map.
Proof.
  intros Hnone. revert final_map.
  induction weights as [| [k w] rest IH]; intros fm; simpl; [reflexivity |].
  destruct (is_recognized k) eqn:Hk; simpl.
  - destruct (normalized_layers !! k) as [layer |]; [| apply IH].
    destruct (np.iadd fm _) as [fm' | e]; simpl; [apply IH | reflexivity].
  - rewrite (Hnone k Hk). apply IH.
Qed.

Lemma overlay_and_score_recognized_items (job : AnalysisJob.t) (r : Rasters) :
  overlay_and_score
    (with_weights job (recognized_items (AnalysisJob.weights_json job))) r
  = overlay_and_score job r.
Proof.
  destruct job as [i p a st w c ru rt e s]. unfold overlay_and_score. simpl.
  rewrite normalize_factors_recognized_items.
  rewrite weighted_overlay_recognized_items
    by (intros k Hk; by apply normalize_factors_unrecognized).
  reflexivity.
Qed.

Section OverlayFacts.

Variable clip_raster_to_aoi : string -> Geometry -> list Q.
Variable calculate_slope_from_dem : list Q -> list Q.

Local Abbreviation run :=
  (process_mcda_job clip_raster_to_aoi calculate_slope_from_dem).
Local Abbreviation rasters :=
  (load_rasters clip_raster_to_aoi calculate_slope_from_dem).

(** X6.  Weights on names the engine does not know have no effect: the
    job gives the same map, the same statistics, the same result URL or the
    same error as the job with those entries removed. *)
Theorem unknown_weights_have_no_effect (db : Session) (job : AnalysisJob.t) :
  run db (with_weights job (recognized_items (AnalysisJob.weights_json job)))
  = run db job.
Proof.
  unfold process_mcda_job.
  replace (AnalysisJob.aoi_id (with_weights job _)) with (AnalysisJob.aoi_id job)
    by (by destruct job).
  destruct (areas_of_interest db !! AnalysisJob.aoi_id job) as [aoi |];
    [| reflexivity].
  cbv zeta. destruct (AreaOfInterest.area_km2 aoi); [| reflexivity].
  apply overlay_and_score_recognized_items.
Qed.

End OverlayFacts.

Lemma overlay_and_score_no_factor (job : AnalysisJob.t) (r : Rasters)
    (out : McdaOutput) :
  recognized_items (AnalysisJob.weights_json job) = [] ->
  overlay_and_score job r = Ok out ->
  exists mask,
    compile_constraints (AnalysisJob.constraints_json job)
      (ghi_data r) (slope_data r) (lulc_data r) (grid_dist_data r) = Ok mask
    /\ length (final_map out) = length (ghi_data r)
    /\ forall i, i < length (final_map out) ->
         nth i (final_map out) 0%Q
         = if nth i mask false then nodata_val else 0%Q.
Proof.
  intros Hnone H. rewrite <- overlay_and_score_recognized_items, Hnone in H.
  destruct job as [j p a st w c ru rt e s]. unfold overlay_and_score in H.
  simpl in *.
  apply bind_Ok in H as (mask & Hmask & H). simpl in H.
  apply bind_Ok in H as (fm & Hset & H).
  apply bind_Ok in H as (u & _ & H).
  inversion H; subst out; clear H. simpl.
  destruct (compile_constraints_Ok _ _ _ _ _ _ Hmask) as [Lmask _].
  apply setmask_Ok in Hset as [Lset ->].
  unfold np.zeros in Lset. rewrite length_replicate in Lset.
  exists mask. split; [exact Hmask |].
  rewrite length_zip_with_same
    by (unfold np.zeros; rewrite length_replicate; lia).
  unfold np.zeros at 1 2. rewrite length_replicate. split; [reflexivity |].
  intros i Hi.
  rewrite (nth_zip_with _ _ _ 0%Q false)
    by (unfold np.zeros; rewrite length_replicate; lia).
  by rewrite nth_zeros.
Qed.

Section OverlayValues.

Variable clip_raster_to_aoi : string -> Geometry -> list Q.
Variable calculate_slope_from_dem : list Q -> list Q.

Local Abbreviation run :=
  (process_mcda_job clip_raster_to_aoi calculate_slope_from_dem).
Local Abbreviation rasters :=
  (load_rasters clip_raster_to_aoi calculate_slope_from_dem).

(** X7.  A job whose weights name no factor the engine knows (an empty
    mapping included) gets a map that is 0 at every pixel outside the mask and
    -9999 inside it. *)
Theorem no_known_factor_gives_zero_map (db : Session) (job : AnalysisJob.t)
    (out : McdaOutput) :
  recognized_items (AnalysisJob.weights_json job) = [] ->
  run db job = Ok out ->
  exists aoi mask,
    areas_of_interest db !! AnalysisJob.aoi_id job = Some aoi
    /\ compile_constraints (AnalysisJob.constraints_json job)
         (ghi_data (rasters (AreaOfInterest.geom aoi)))
         (slope_data (rasters (AreaOfInterest.geom aoi)))
         (lulc_data (rasters (AreaOfInterest.geom aoi)))
         (grid_dist_data (rasters (AreaOfInterest.geom aoi))) = Ok mask
    /\ length (final_map out)
       = length (ghi_data (rasters (AreaOfInterest.geom aoi)))
    /\ forall i, i < length (final_map out) ->
         nth i (final_map out) 0%Q
         = if nth i mask false then nodata_val else 0%Q.
Proof.
  intros Hnone Hrun.
  apply process_mcda_job_Ok in Hrun as (aoi & Haoi & Hrun).
  destruct (overlay_and_score_no_factor _ _ _ Hnone Hrun)
    as (mask & Hmask & L & P).
  exists aoi, mask. auto.
Qed.

End OverlayValues.

Lemma no_known_factor_gives_zero_map_witness :
  recognized_items
    (AnalysisJob.weights_json
       (Demo.job [("albedo", 100%Q)] Demo.constraints4 PENDING)) = []
  /\ exists out,
       process_mcda_job Demo.clip4 Demo.slope4
         (Demo.store (Demo.job [("albedo", 100%Q)] Demo.constraints4 PENDING))
         (Demo.job [("albedo", 100%Q)] Demo.constraints4 PENDING) = Ok out
       /\ exists mask,
            mask = [false; false; true; true]
            /\ forall i, i < length (final_map out) ->
                 nth i (final_map out) 0%Q
                 = if nth i mask false then nodata_val else 0%Q.
Proof.
  assert (Hnone : recognized_items
                    (AnalysisJob.weights_json
                       (Demo.job [("albedo", 100%Q)] Demo.constraints4 PENDING))
                  = []) by reflexivity.
  split; [exact Hnone |].
  destruct (process_mcda_job Demo.clip4 Demo.slope4
              (Demo.store (Demo.job [("albedo", 100%Q)] Demo.constraints4 PENDING))
              (Demo.job [("albedo", 100%Q)] Demo.constraints4 PENDING))
    as [out | e] eqn:E; [| vm_compute in E; discriminate].
  exists out. split; [reflexivity |].
  destruct (no_known_factor_gives_zero_map Demo.clip4 Demo.slope4 _ _ _ Hnone E)
    as (aoi & mask & Haoi & Hmask & _ & P).
  exists mask. split; [| exact P].
  vm_compute in Haoi. inversion Haoi; subst aoi.
  vm_compute in Hmask. inversion Hmask. reflexivity.
Defined.

(** ** More about the statistics *)

Lemma select_ne_masked_le (a : list Q) (m : list bool) (v : Q) :
  length a = length m ->
  length (np.select_ne (zip_with (fun x (b : bool) => if b then v else x) a m) v)
  <= length (List.filter negb m).
Proof.
  revert m. induction a as [| x a IH]; intros [| b m] Hlen; simpl in *; try lia.
  specialize (IH m ltac:(lia)). unfold np.select_ne in *. simpl.
  destruct b; simpl.
  - rewrite (proj2 (Qeq_bool_iff v v)) by reflexivity. simpl. exact IH.
  - destruct (Qeq_bool x v); simpl; lia.
Qed.

Lemma max_fold_ge_init (t : list Q) (x : Q) : (x <= fold_left Qmax t x)%Q.
Proof.
  revert x. induction t as [| y t IH]; intros x; simpl; [apply Qle_refl |].
  apply Qle_trans with (Qmax x y); [apply Q.le_max_l | apply IH].
Qed.

Lemma min_fold_le_init (t : list Q) (x : Q) : (fold_left Qmin t x <= x)%Q.
Proof.
  revert x. induction t as [| y t IH]; intros x; simpl; [apply Qle_refl |].
  apply Qle_trans with (Qmin x y); [apply IH | apply Q.le_min_l].
Qed.

Lemma min_fold_ge (t : list Q) (x lo : Q) :
  (lo <= x)%Q -> Forall (fun y => (lo <= y)%Q) t ->
  (lo <= fold_left Qmin t x)%Q.
Proof.
  intros Hx Ht. revert x Hx. induction Ht as [| y t Hy _ IH]; intros x Hx;
    simpl; [exact Hx |].
  apply IH. by apply Q.min_glb.
Qed.

Lemma statistics_counts_le (job : AnalysisJob.t) (r : Rasters) (out : McdaOutput) :
  overlay_and_score job r = Ok out ->
  valid_pixels (statistics out) + excluded_pixels (statistics out)
  <= total_pixels (statistics out)
  /\ exists mask,
       statistics out
       = calculate_statistics (ghi_data r) (final_map out) mask.
Proof.
  intros Hrun.
  destruct (overlay_and_score_Ok _ _ _ Hrun) as (mask & Hmask & Lmask & _ & Hst & _).
  split; [| by exists mask].
  unfold overlay_and_score in Hrun. rewrite Hmask in Hrun. simpl in Hrun.
  apply bind_Ok in Hrun as (fm & Hfm & Hrun).
  apply bind_Ok in Hrun as (fm' & Hset & Hrun).
  apply bind_Ok in Hrun as (u & _ & Hrun).
  inversion Hrun; subst out; clear Hrun. simpl.
  apply setmask_Ok in Hset as [Lset ->].
  pose proof (select_ne_masked_le fm mask nodata_val Lset).
  pose proof (count_true_complement mask). lia.
Qed.

Lemma unmasked_score_nonneg (job : AnalysisJob.t) (r : Rasters)
    (out : McdaOutput) (mask : list bool) :
  overlay_and_score job r = Ok out ->
  compile_constraints (AnalysisJob.constraints_json job)
    (ghi_data r) (slope_data r) (lulc_data r) (grid_dist_data r) = Ok mask ->
  Forall (fun kv : string * Q => (0 <= snd kv)%Q) (AnalysisJob.weights_json job) ->
  forall i, i < length (final_map out) -> nth i mask false = false ->
    (0 <= nth i (final_map out) 0)%Q.
Proof.
  intros Hrun Hmask Hw i Hi Hfree.
  apply overlay_and_score_Ok in Hrun as (mask' & Hmask' & _ & Lfm & _ & P).
  rewrite Hmask in Hmask'. inversion Hmask'; subst mask'; clear Hmask'.
  rewrite Lfm in Hi. specialize (P i Hi). rewrite Hfree in P.
  destruct (overlay_score_range (AnalysisJob.weights_json job)
              (normalize_factors (AnalysisJob.weights_json job)
                 (ghi_data r) (slope_data r) (grid_dist_data r)
                 (road_dist_data r)) i Hw) as [H0 _].
  { intros k layer Hk. by eapply normalize_factors_range. }
  by rewrite P.
Qed.

Lemma valid_scores_nonneg (job : AnalysisJob.t) (r : Rasters)
    (out : McdaOutput) :
  overlay_and_score job r = Ok out ->
  Forall (fun kv : string * Q => (0 <= snd kv)%Q) (AnalysisJob.weights_json job) ->
  Forall (fun y => (0 <= y)%Q) (np.select_ne (final_map out) nodata_val).
Proof.
  intros Hrun Hw.
  destruct (overlay_and_score_Ok _ _ _ Hrun)
    as (mask & Hmask & Lmask & Lfm & _ & P).
  pose proof (unmasked_score_nonneg job r out mask Hrun Hmask Hw) as Hrange.
  unfold np.select_ne. apply List.Forall_forall. intros y Hy.
  apply filter_In in Hy as [Hin Hne].
  apply (In_nth _ _ 0%Q) in Hin as (i & Hi & <-).
  destruct (nth i mask false) eqn:Hm.
  - specialize (P i ltac:(lia)). rewrite Hm in P. rewrite P in Hne.
    discriminate Hne.
  - by apply Hrange.
Qed.

Section StatisticsFacts.

Variable clip_raster_to_aoi : string -> Geometry -> list Q.
Variable calculate_slope_from_dem : list Q -> list Q.

Local Abbreviation run :=
  (process_mcda_job clip_raster_to_aoi calculate_slope_from_dem).

(** X9.  Whatever the weights, the statistics of a finished job satisfy
    valid_pixels + excluded_pixels <= total_pixels: an excluded pixel is
    never counted as valid. *)
Theorem valid_and_excluded_within_total (db : Session) (job : AnalysisJob.t)
    (out : McdaOutput) :
  run db job = Ok out ->
  valid_pixels (statistics out) + excluded_pixels (statistics out)
  <= total_pixels (statistics out).
Proof.
  intros Hrun. apply process_mcda_job_Ok in Hrun as (aoi & _ & Hrun).
  by apply statistics_counts_le in Hrun as [H _].
Qed.

(** X10.  When every pixel of the grid is excluded, no pixel is valid and
    mean, max, min and standard deviation are reported as 0. *)
Theorem all_excluded_statistics_zero (db : Session) (job : AnalysisJob.t)
    (out : McdaOutput) :
  run db job = Ok out ->
  excluded_pixels (statistics out) = total_pixels (statistics out) ->
  valid_pixels (statistics out) = 0
  /\ mean_suitability (statistics out) = 0%Q
  /\ max_suitability (statistics out) = 0%Q
  /\ min_suitability (statistics out) = 0%Q
  /\ std_suitability (statistics out) = np.sqrt 0.
Proof.
  intros Hrun Hall. apply process_mcda_job_Ok in Hrun as (aoi & _ & Hrun).
  apply statistics_counts_le in Hrun as [Hle [mask Hst]].
  assert (Hv : valid_pixels (statistics out) = 0) by lia.
  rewrite Hst in Hv |- *. unfold calculate_statistics in *. simpl in *.
  rewrite Hv. simpl. auto.
Qed.

(** X11.  With non-negative weights, the statistics of a job with at
    least one valid pixel satisfy 0 <= min <= max: no valid score is
    negative. *)
Theorem statistics_min_max_ordered (db : Session) (job : AnalysisJob.t)
    (out : McdaOutput) :
  run db job = Ok out ->
  Forall (fun kv : string * Q => (0 <= snd kv)%Q)
    (AnalysisJob.weights_json job) ->
  0 < valid_pixels (statistics out) ->
  (0 <= min_suitability (statistics out))%Q
  /\ (min_suitability (statistics out) <= max_suitability (statistics out))%Q.
Proof.
  intros Hrun Hw Hvalid.
  apply process_mcda_job_Ok in Hrun as (aoi & _ & Hrun).
  pose proof (valid_scores_nonneg _ _ _ Hrun Hw) as Hrange.
  apply statistics_counts_le in Hrun as [_ [mask Hst]].
  rewrite Hst in Hvalid |- *. unfold calculate_statistics in *.
  cbn [valid_pixels max_suitability min_suitability] in *.
  destruct (np.select_ne (final_map out) nodata_val) as [| y valid_data];
    [simpl in Hvalid; lia |].
  cbn [length Nat.eqb negb np.min np.max].
  apply Forall_cons in Hrange as [Hy Ht]. split.
  - by apply min_fold_ge.
  - apply Qle_trans with y; [apply min_fold_le_init | apply max_fold_ge_init].
Qed.

End StatisticsFacts.

Lemma valid_and_excluded_within_total_witness :
  exists out,
    process_mcda_job Demo.clip4 Demo.slope4 (Demo.store Demo.job4) Demo.job4
    = Ok out
    /\ valid_pixels (statistics out) + excluded_pixels (statistics out)
       <= total_pixels (statistics out).
Proof.
  destruct (process_mcda_job Demo.clip4 Demo.slope4 (Demo.store Demo.job4)
              Demo.job4) as [out | e] eqn:E;
    [| vm_compute in E; discriminate].
  exists out. split; [reflexivity |].
  exact (valid_and_excluded_within_total Demo.clip4 Demo.slope4 _ _ _ E).
Defined.

Lemma all_excluded_statistics_zero_witness :
  exists out,
    process_mcda_job Demo.clip4 Demo.slope4
      (Demo.store Demo.job4)
      (Demo.job [("ghi", 100%Q)]
         {| slope_gt := None; lulc_exclude := Some [30; 50]%Q;
            grid_dist_gt := None |} PENDING)
    = Ok out
    /\ excluded_pixels (statistics out) = total_pixels (statistics out)
    /\ valid_pixels (statistics out) = 0
    /\ mean_suitability (statistics out) = 0%Q
    /\ max_suitability (statistics out) = 0%Q
    /\ min_suitability (statistics out) = 0%Q
    /\ std_suitability (statistics out) = np.sqrt 0.
Proof.
  destruct (process_mcda_job Demo.clip4 Demo.slope4 (Demo.store Demo.job4)
              (Demo.job [("ghi", 100%Q)]
                 {| slope_gt := None; lulc_exclude := Some [30; 50]%Q;
                    grid_dist_gt := None |} PENDING)) as [out | e] eqn:E;
    [| vm_compute in E; discriminate].
  assert (Hall : excluded_pixels (statistics out) = total_pixels (statistics out))
    by (vm_compute in E; inversion E; reflexivity).
  exists out. split; [reflexivity |]. split; [exact Hall |].
  exact (all_excluded_statistics_zero Demo.clip4 Demo.slope4 _ _ _ E Hall).
Defined.

Lemma statistics_min_max_ordered_witness :
  Forall (fun kv : string * Q => (0 <= snd kv)%Q)
    (AnalysisJob.weights_json Demo.job4)
  /\ exists out,
       process_mcda_job Demo.clip4 Demo.slope4 (Demo.store Demo.job4) Demo.job4
       = Ok out
       /\ 0 < valid_pixels (statistics out)
       /\ (0 <= min_suitability (statistics out))%Q
       /\ (min_suitability (statistics out)
           <= max_suitability (statistics out))%Q.
Proof.
  assert (Hw : Forall (fun kv : string * Q => (0 <= snd kv)%Q)
                 (AnalysisJob.weights_json Demo.job4))
    by (repeat constructor; discriminate).
  split; [exact Hw |].
  destruct (process_mcda_job Demo.clip4 Demo.slope4 (Demo.store Demo.job4)
              Demo.job4) as [out | e] eqn:E;
    [| vm_compute in E; discriminate].
  assert (Hvalid : 0 < valid_pixels (statistics out))
    by (vm_compute in E; inversion E; simpl; lia).
  exists out. split; [reflexivity |]. split; [exact Hvalid |].
  exact (statistics_min_max_ordered Demo.clip4 Demo.slope4 _ _ _ E Hw Hvalid).
Defined.

(** ** The result URL *)

Lemma string_app_cons (a : Ascii.ascii) (s t : string) :
  String a s ++ t = String a (s ++ t).
Proof. reflexivity. Qed.

Lemma string_length_app (s t : string) :
  String.length (s ++ t) = String.length s + String.length t.
Proof.
  induction s as [| a s IH]; [reflexivity |].
  rewrite string_app_cons. simpl. by rewrite IH.
Qed.

Lemma string_app_inj_r (s1 s2 t : string) : s1 ++ t = s2 ++ t -> s1 = s2.
Proof.
  revert s2. induction s1 as [| a s1 IH]; intros [| b s2] H.
  - reflexivity.
  - apply (f_equal String.length) in H.
    rewrite !string_length_app in H. simpl in H. lia.
  - apply (f_equal String.length) in H.
    rewrite !string_length_app in H. simpl in H. lia.
  - rewrite !string_app_cons in H. inversion H; subst. f_equal. by apply IH.
Qed.

Lemma overlay_and_score_url (job : AnalysisJob.t) (r : Rasters) (out : McdaOutput) :
  overlay_and_score job r = Ok out ->
  geotiff_url out
  = "s3://" ++ S3_RESULTS_BUCKET ++ "/results/mcda_result_"
      ++ pretty (AnalysisJob.id job) ++ ".tif"
  /\ tiles_url out = None.
Proof.
  unfold overlay_and_score. intros H.
  apply bind_Ok in H as (mask & _ & H).
  apply bind_Ok in H as (fm & _ & H).
  apply bind_Ok in H as (fm' & _ & H).
  apply bind_Ok in H as (u & _ & H).
  by inversion H.
Qed.

Section ResultUrl.

Variable clip_raster_to_aoi : string -> Geometry -> list Q.
Variable calculate_slope_from_dem : list Q -> list Q.

Local Abbreviation run :=
  (process_mcda_job clip_raster_to_aoi calculate_slope_from_dem).

(** X12.  The result URL is a function of the job id alone, and an
    injective one: two finished runs, in whatever stores, share their result
    URL exactly when they ran jobs with the same id.  No tile URL is ever
    returned. *)
Theorem result_url_identifies_job (db db' : Session) (job job' : AnalysisJob.t)
    (out out' : McdaOutput) :
  run db job = Ok out ->
  run db' job' = Ok out' ->
  (geotiff_url out = geotiff_url out'
   <-> AnalysisJob.id job = AnalysisJob.id job')
  /\ tiles_url out = None.
Proof.
  intros H H'.
  apply process_mcda_job_Ok in H as (aoi & _ & H).
  apply process_mcda_job_Ok in H' as (aoi' & _ & H').
  apply overlay_and_score_url in H as [-> Ht].
  apply overlay_and_score_url in H' as [-> _].
  split; [| exact Ht]. split.
  - intros E. do 3 apply String.app_inj in E.
    apply string_app_inj_r in E. by apply pretty_Z_inj in E.
  - by intros ->.
Qed.

End ResultUrl.

Lemma result_url_identifies_job_witness :
  exists out out',
    process_mcda_job Demo.clip4 Demo.slope4 (Demo.store Demo.job4) Demo.job4
    = Ok out
    /\ process_mcda_job Demo.clip4 Demo.slope4 (Demo.store Demo.job4)
         (AnalysisJob.mk 2 1 1 PENDING Demo.weights4 Demo.no_constraints
            None None None None)
       = Ok out'
    /\ (geotiff_url out = geotiff_url out' <-> 1%Z = 2%Z)
    /\ geotiff_url out
       = "s3://solar-platform-results/results/mcda_result_1.tif".
Proof.
  destruct (process_mcda_job Demo.clip4 Demo.slope4 (Demo.store Demo.job4)
              Demo.job4) as [out | e] eqn:E;
    [| vm_compute in E; discriminate].
  destruct (process_mcda_job Demo.clip4 Demo.slope4 (Demo.store Demo.job4)
              (AnalysisJob.mk 2 1 1 PENDING Demo.weights4 Demo.no_constraints
                 None None None None)) as [out' | e'] eqn:E';
    [| vm_compute in E'; discriminate].
  exists out, out'. split; [reflexivity |]. split; [reflexivity |].
  split.
  - exact (proj1 (result_url_identifies_job _ _ _ _ _ _ _ _ E E')).
  - vm_compute in E. inversion E. reflexivity.
Defined.

(** ** More about the worker task *)

Lemma job_parameters_set_running (job : AnalysisJob.t) :
  job_parameters (set_running job) = job_parameters job.
Proof. by destruct job. Qed.

Lemma job_parameters_set_complete (job : AnalysisJob.t) (result : McdaOutput) :
  job_parameters (set_complete job result) = job_parameters job.
Proof. by destruct job. Qed.

Lemma job_parameters_set_failed (job : AnalysisJob.t) (e : PyExc) :
  job_parameters (set_failed job e) = job_parameters job.
Proof. by destruct job. Qed.

Section WorkerFacts.

Variable clip_raster_to_aoi : string -> Geometry -> list Q.
Variable calculate_slope_from_dem : list Q -> list Q.

Local Abbreviation run :=
  (process_mcda_job clip_raster_to_aoi calculate_slope_from_dem).
Local Abbreviation deliver :=
  (run_mcda_analysis clip_raster_to_aoi calculate_slope_from_dem).

(** The engine reads the AOI table and the job's parameters, nothing else. *)
Lemma process_mcda_job_reads (db db' : Session) (job job' : AnalysisJob.t) :
  areas_of_interest db = areas_of_interest db' ->
  job_parameters job = job_parameters job' ->
  run db job = run db' job'.
Proof.
  destruct job as [i p a st w c ru rt e s], job' as [i' p' a' st' w' c' ru' rt' e' s'].
  unfold job_parameters. simpl. intros Haoi Hpar. inversion Hpar; subst.
  unfold process_mcda_job, overlay_and_score. simpl. by rewrite Haoi.
Qed.

(** X13.  A delivery touches one row only: in every store it commits, the
    other jobs, the AOI table and the id sequence are as they were before, and
    the row of the delivered id keeps its id, project, AOI, weights and
    constraints. *)
Theorem delivery_touches_one_row (db : Session) (job_id : Z) :
  Forall
    (fun db' =>
       areas_of_interest db' = areas_of_interest db
       /\ analysis_jobs_id_seq db' = analysis_jobs_id_seq db
       /\ (forall k, k <> job_id ->
             analysis_jobs db' !! k = analysis_jobs db !! k)
       /\ (job_parameters <$> analysis_jobs db' !! job_id)
          = (job_parameters <$> analysis_jobs db !! job_id))
    (commits (deliver db job_id)).
Proof.
  unfold run_mcda_analysis.
  destruct (analysis_jobs db !! job_id) as [job |] eqn:Hjob; [| constructor].
  assert (H1 : forall job',
             job_parameters job' = job_parameters job ->
             areas_of_interest (commit db job_id job') = areas_of_interest db
             /\ analysis_jobs_id_seq (commit db job_id job')
                = analysis_jobs_id_seq db
             /\ (forall k, k <> job_id ->
                   analysis_jobs (commit db job_id job') !! k
                   = analysis_jobs db !! k)
             /\ (job_parameters <$> analysis_jobs (commit db job_id job') !! job_id)
                = Some (job_parameters job)).
  { intros job' Hp. unfold commit. simpl. repeat split.
    - intros k Hk. by rewrite lookup_insert_ne.
    - rewrite lookup_insert_eq. simpl. by rewrite Hp. }
  assert (H2 : forall job' job'',
             job_parameters job'' = job_parameters job ->
             areas_of_interest (commit (commit db job_id job') job_id job'')
             = areas_of_interest db
             /\ analysis_jobs_id_seq (commit (commit db job_id job') job_id job'')
                = analysis_jobs_id_seq db
             /\ (forall k, k <> job_id ->
                   analysis_jobs (commit (commit db job_id job') job_id job'') !! k
                   = analysis_jobs db !! k)
             /\ (job_parameters
                   <$> analysis_jobs (commit (commit db job_id job') job_id job'')
                       !! job_id)
                = Some (job_parameters job)).
  { intros job' job'' Hp. unfold commit. simpl. repeat split.
    - intros k Hk. by rewrite !lookup_insert_ne.
    - rewrite lookup_insert_eq. simpl. by rewrite Hp. }
  destruct (process_mcda_job _ _ _ _) as [result | e]; simpl;
    repeat constructor;
    first [ apply H1; apply job_parameters_set_running
          | apply H2;
            rewrite ?job_parameters_set_complete, ?job_parameters_set_failed;
            apply job_parameters_set_running ].
Qed.

(** X14.  What a delivery leaves in the store for a job it finds.  If the
    engine returns, the task returns, and the job is COMPLETE with the
    engine's URL, tile URL and statistics, its error log left as it was.  If
    the engine raises, the task raises the same exception, and the job is
    FAILED with that exception as error log, its result URL, tile URL and
    statistics left as they were. *)
Theorem delivery_final_row (db : Session) (job_id : Z) (job : AnalysisJob.t) :
  analysis_jobs db !! job_id = Some job ->
  exists final,
    analysis_jobs (store_after db (deliver db job_id)) !! job_id = Some final
    /\ job_parameters final = job_parameters job
    /\ match run (commit db job_id (set_running job)) (set_running job) with
       | Ok result =>
           outcome (deliver db job_id) = Ok ()
           /\ AnalysisJob.status final = COMPLETE
           /\ AnalysisJob.result_url final = Some (geotiff_url result)
           /\ AnalysisJob.result_tiles_url final = tiles_url result
           /\ AnalysisJob.stats_json final = Some (statistics result)
           /\ AnalysisJob.error_log final = AnalysisJob.error_log job
       | Raise e =>
           outcome (deliver db job_id) = Raise e
           /\ AnalysisJob.status final = FAILED
           /\ AnalysisJob.error_log final = Some e
           /\ AnalysisJob.result_url final = AnalysisJob.result_url job
           /\ AnalysisJob.result_tiles_url final
              = AnalysisJob.result_tiles_url job
           /\ AnalysisJob.stats_json final = AnalysisJob.stats_json job
       end.
Proof.
  intros Hjob. unfold run_mcda_analysis, store_after. rewrite Hjob.
  destruct (process_mcda_job _ _ _ _) as [result | e]; simpl;
    eexists; (split; [apply lookup_insert_eq |]);
    destruct job; simpl; auto 10.
Qed.

End WorkerFacts.

Lemma commit_commit (db : Session) (job_id : Z) (job job' : AnalysisJob.t) :
  commit (commit db job_id job) job_id job' = commit db job_id job'.
Proof. unfold commit. simpl. by rewrite insert_insert_eq. Qed.

Lemma set_running_set_running (job : AnalysisJob.t) :
  set_running (set_running job) = set_running job.
Proof. by destruct job. Qed.

Lemma set_complete_again (job : AnalysisJob.t) (result : McdaOutput) :
  set_complete (set_running (set_complete (set_running job) result)) result
  = set_complete (set_running job) result.
Proof. by destruct job. Qed.

Lemma set_failed_again (job : AnalysisJob.t) (e : PyExc) :
  set_failed (set_running (set_failed (set_running job) e)) e
  = set_failed (set_running job) e.
Proof. by destruct job. Qed.

Section Redelivery.

Variable clip_raster_to_aoi : string -> Geometry -> list Q.
Variable calculate_slope_from_dem : list Q -> list Q.

Local Abbreviation run :=
  (process_mcda_job clip_raster_to_aoi calculate_slope_from_dem).
Local Abbreviation deliver :=
  (run_mcda_analysis clip_raster_to_aoi calculate_slope_from_dem).

Lemma deliver_found (db : Session) (job_id : Z) (job : AnalysisJob.t) :
  analysis_jobs db !! job_id = Some job ->
  deliver db job_id
  = match run (commit db job_id (set_running job)) (set_running job) with
    | Ok result =>
        {| commits :=
             [commit db job_id (set_running job);
              commit (commit db job_id (set_running job)) job_id
                (set_complete (set_running job) result)];
           outcome := Ok () |}
    | Raise e =>
        {| commits :=
             [commit db job_id (set_running job);
              commit (commit db job_id (set_running job)) job_id
                (set_failed (set_running job) e)];
           outcome := Raise e |}
    end.
Proof. intros Hjob. unfold run_mcda_analysis. by rewrite Hjob. Qed.

Lemma store_after_deliver_found (db : Session) (job_id : Z)
    (job : AnalysisJob.t) :
  analysis_jobs db !! job_id = Some job ->
  store_after db (deliver db job_id)
  = commit db job_id
      match run (commit db job_id (set_running job)) (set_running job) with
      | Ok result => set_complete (set_running job) result
      | Raise e => set_failed (set_running job) e
      end.
Proof.
  intros Hjob. rewrite (deliver_found _ _ _ Hjob). unfold store_after.
  destruct (process_mcda_job _ _ _ _); simpl; apply commit_commit.
Qed.

(** X15.  Delivering the same id a second time changes nothing in the end:
    the store after the second delivery is the store after the first, and the
    second delivery ends as the first did. *)
Theorem redelivery_reaches_same_store (db : Session) (job_id : Z) :
  store_after (store_after db (deliver db job_id))
    (deliver (store_after db (deliver db job_id)) job_id)
  = store_after db (deliver db job_id)
  /\ outcome (deliver (store_after db (deliver db job_id)) job_id)
     = outcome (deliver db job_id).
Proof.
  destruct (analysis_jobs db !! job_id) as [job |] eqn:Hjob.
  - rewrite (store_after_deliver_found _ _ _ Hjob).
    set (final :=
           match run (commit db job_id (set_running job)) (set_running job) with
           | Ok result => set_complete (set_running job) result
           | Raise e => set_failed (set_running job) e
           end).
    assert (Hfinal : analysis_jobs (commit db job_id final) !! job_id = Some final)
      by apply lookup_insert_eq.
    assert (Hrun : run (commit (commit db job_id final) job_id (set_running final))
                     (set_running final)
                   = run (commit db job_id (set_running job)) (set_running job)).
    { apply process_mcda_job_reads; [reflexivity |].
      rewrite !job_parameters_set_running. unfold final.
      destruct (process_mcda_job _ _ _ _);
        by rewrite ?job_parameters_set_complete, ?job_parameters_set_failed,
             ?job_parameters_set_running. }
    rewrite (store_after_deliver_found _ _ _ Hfinal).
    rewrite (deliver_found _ _ _ Hfinal), (deliver_found _ _ _ Hjob).
    rewrite Hrun, commit_commit. unfold final.
    destruct (process_mcda_job _ _ _ _) as [result | e]; simpl.
    + by rewrite set_complete_again.
    + by rewrite set_failed_again.
  - unfold run_mcda_analysis, store_after. rewrite Hjob. simpl.
    by rewrite Hjob.
Qed.

(** X16.  A job whose AOI is not in the store is marked FAILED: the
    delivery commits RUNNING, then FAILED with the "AOI not found" error as
    error log, and raises that error. *)
Theorem delivery_without_aoi_fails (db : Session) (job_id : Z)
    (job : AnalysisJob.t) :
  analysis_jobs db !! job_id = Some job ->
  areas_of_interest db !! AnalysisJob.aoi_id job = None ->
  outcome (deliver db job_id) = Raise (ValueError_aoi (AnalysisJob.aoi_id job))
  /\ status_history (deliver db job_id) job_id = [Some RUNNING; Some FAILED]
  /\ (AnalysisJob.error_log
        <$> analysis_jobs (store_after db (deliver db job_id)) !! job_id)
     = Some (Some (ValueError_aoi (AnalysisJob.aoi_id job))).
Proof.
  intros Hjob Haoi.
  assert (Hrun : run (commit db job_id (set_running job)) (set_running job)
                 = Raise (ValueError_aoi (AnalysisJob.aoi_id job))).
  { unfold process_mcda_job.
    replace (AnalysisJob.aoi_id (set_running job)) with (AnalysisJob.aoi_id job)
      by (by destruct job).
    simpl. by rewrite Haoi. }
  rewrite (store_after_deliver_found _ _ _ Hjob).
  rewrite (deliver_found _ _ _ Hjob), Hrun. unfold status_history. simpl.
  rewrite !status_in_commit. unfold commit. simpl. rewrite lookup_insert_eq.
  by destruct job.
Qed.

End Redelivery.

(** ** Queries, deletion and the key sequence *)

Section AfterDelivery.

Variable clip_raster_to_aoi : string -> Geometry -> list Q.
Variable calculate_slope_from_dem : list Q -> list Q.

Local Abbreviation run :=
  (process_mcda_job clip_raster_to_aoi calculate_slope_from_dem).
Local Abbreviation deliver :=
  (run_mcda_analysis clip_raster_to_aoi calculate_slope_from_dem).

(** X17.  What the two queries answer after a delivery.  If the task
    returned, the status query reports COMPLETE with no message (an error log
    left by an earlier failure is not shown) and the results query returns the
    engine's URL and statistics.  If the task raised, the status query reports
    FAILED with the raised exception as message and the results query returns
    nothing. *)
Theorem queries_after_delivery (db : Session) (job_id : Z) (job : AnalysisJob.t) :
  analysis_jobs db !! job_id = Some job ->
  match run (commit db job_id (set_running job)) (set_running job) with
  | Ok result =>
      outcome (deliver db job_id) = Ok ()
      /\ get_job_status (store_after db (deliver db job_id)) job_id
         = Some (JobStatusDict.mk (AnalysisJob.id job) COMPLETE None None)
      /\ get_job_results (store_after db (deliver db job_id)) job_id
         = Some (JobResultsDict.mk (AnalysisJob.id job) COMPLETE
                   (Some (geotiff_url result)) (tiles_url result)
                   (Some (statistics result)) None)
  | Raise e =>
      outcome (deliver db job_id) = Raise e
      /\ get_job_status (store_after db (deliver db job_id)) job_id
         = Some (JobStatusDict.mk (AnalysisJob.id job) FAILED None (Some e))
      /\ get_job_results (store_after db (deliver db job_id)) job_id = None
  end.
Proof.
  intros Hjob. rewrite (store_after_deliver_found _ _ _ _ _ Hjob).
  rewrite (deliver_found _ _ _ _ _ Hjob).
  unfold get_job_status, get_job_results, commit. simpl.
  rewrite lookup_insert_eq.
  destruct (process_mcda_job _ _ _ _) as [result | e]; destruct job; simpl; auto.
Qed.

End AfterDelivery.

Lemma ids_below_seq_commit (db : Session) (job_id : Z) (job job' : AnalysisJob.t) :
  analysis_jobs db !! job_id = Some job ->
  ids_below_seq db -> ids_below_seq (commit db job_id job').
Proof.
  intros Hjob Hinv k j. unfold commit. simpl.
  destruct (decide (k = job_id)) as [-> | Hne].
  - intros _. by eapply Hinv.
  - rewrite lookup_insert_ne by done. apply Hinv.
Qed.

(** X18.  Every operation keeps the primary keys of the job table below
    the next key of the sequence: admission, each commit of a delivery, and
    deletion. *)
Theorem ids_below_seq_preserved (db : Session) :
  ids_below_seq db ->
  (forall queue project_id aoi_id data,
     ids_below_seq
       (adm_db (create_and_queue_job db queue project_id aoi_id data)))
  /\ (forall clip_raster_to_aoi calculate_slope_from_dem job_id,
        Forall ids_below_seq
          (commits (run_mcda_analysis clip_raster_to_aoi
                      calculate_slope_from_dem db job_id)))
  /\ (forall job_id, ids_below_seq (fst (delete_job db job_id))).
Proof.
  intros Hinv. repeat split.
  - intros queue project_id aoi_id data. unfold create_and_queue_job.
    destruct (PrimFloat.ltb _ _); simpl; [exact Hinv |].
    intros k j. simpl.
    destruct (decide (k = analysis_jobs_id_seq db)) as [-> | Hne].
    + intros _. lia.
    + rewrite lookup_insert_ne by done. intros Hk.
      specialize (Hinv k j Hk). lia.
  - intros clip slope job_id. unfold run_mcda_analysis.
    destruct (analysis_jobs db !! job_id) as [job |] eqn:Hjob; [| constructor].
    assert (H1 : ids_below_seq (commit db job_id (set_running job)))
      by (by eapply ids_below_seq_commit).
    destruct (process_mcda_job _ _ _ _); simpl; repeat constructor;
      try exact H1; rewrite commit_commit; by eapply ids_below_seq_commit.
  - intros job_id. unfold delete_job.
    destruct (analysis_jobs db !! job_id); simpl; [| exact Hinv].
    intros k j. simpl. intros Hk.
    apply lookup_delete_Some in Hk as [_ Hk]. by eapply Hinv.
Qed.

(** X19.  While the keys in use lie below the sequence, admission never
    overwrites a job: every row of the store is still there, unchanged, after
    the call, the AOI table is untouched, and the id of an admitted job was
    not in use before. *)
Theorem admission_keeps_existing_jobs (db : Session) (queue : list Z)
    (project_id aoi_id : Z) (data : AnalysisJobCreate) :
  ids_below_seq db ->
  (forall k job, analysis_jobs db !! k = Some job ->
     analysis_jobs
       (adm_db (create_and_queue_job db queue project_id aoi_id data)) !! k
     = Some job)
  /\ areas_of_interest
       (adm_db (create_and_queue_job db queue project_id aoi_id data))
     = areas_of_interest db
  /\ (forall job,
        adm_result (create_and_queue_job db queue project_id aoi_id data)
        = Ok job ->
        analysis_jobs db !! AnalysisJob.id job = None).
Proof.
  intros Hinv. unfold create_and_queue_job.
  destruct (PrimFloat.ltb _ _); simpl; repeat split; try done.
  - intros k job Hk. rewrite lookup_insert_ne; [exact Hk |].
    specialize (Hinv k job Hk). lia.
  - intros job Hjob. inversion Hjob; subst; clear Hjob. simpl.
    destruct (analysis_jobs db !! analysis_jobs_id_seq db) as [j |] eqn:E;
      [| reflexivity].
    specialize (Hinv _ _ E). lia.
Qed.

(** X20.  Deleting a job.  The call returns True exactly when the job was
    in the store.  Afterwards the job is gone, every other row, the AOI table
    and the key sequence are unchanged (so the key is not handed out again),
    both queries answer nothing for the id, and a delivery of the id, still
    queued at the broker, commits nothing and returns. *)
Theorem delete_job_removes (db : Session) (job_id : Z) :
  (snd (delete_job db job_id) = true <-> is_Some (analysis_jobs db !! job_id))
  /\ analysis_jobs (fst (delete_job db job_id)) !! job_id = None
  /\ (forall k, k <> job_id ->
        analysis_jobs (fst (delete_job db job_id)) !! k
        = analysis_jobs db !! k)
  /\ areas_of_interest (fst (delete_job db job_id)) = areas_of_interest db
  /\ analysis_jobs_id_seq (fst (delete_job db job_id))
     = analysis_jobs_id_seq db
  /\ get_job_status (fst (delete_job db job_id)) job_id = None
  /\ get_job_results (fst (delete_job db job_id)) job_id = None
  /\ forall clip_raster_to_aoi calculate_slope_from_dem,
       run_mcda_analysis clip_raster_to_aoi calculate_slope_from_dem
         (fst (delete_job db job_id)) job_id
       = {| commits := []; outcome := Ok () |}.
Proof.
  assert (Hgone : analysis_jobs (fst (delete_job db job_id)) !! job_id = None).
  { unfold delete_job.
    destruct (analysis_jobs db !! job_id) eqn:E; simpl;
      [apply lookup_delete_eq | exact E]. }
  split.
  { unfold delete_job. destruct (analysis_jobs db !! job_id); simpl.
    - split; eauto.
    - split; [discriminate | intros [? ?]; discriminate]. }
  split; [exact Hgone |].
  split.
  { intros k Hk. unfold delete_job.
    destruct (analysis_jobs db !! job_id); simpl; [| reflexivity].
    by rewrite lookup_delete_ne. }
  split; [unfold delete_job; by destruct (analysis_jobs db !! job_id) |].
  split; [unfold delete_job; by destruct (analysis_jobs db !! job_id) |].
  unfold get_job_status, get_job_results, run_mcda_analysis.
  rewrite Hgone. auto.
Qed.

Section Lifecycle.

Variable clip_raster_to_aoi : string -> Geometry -> list Q.
Variable calculate_slope_from_dem : list Q -> list Q.

Local Abbreviation deliver :=
  (run_mcda_analysis clip_raster_to_aoi calculate_slope_from_dem).

(** X21.  From admission to the end.  Right after a successful admission
    the status query reports the job PENDING with no message and the results
    query returns nothing; the id put on the queue is the id of that job, and
    its delivery commits RUNNING and then COMPLETE or FAILED. *)
Theorem admitted_job_lifecycle (db : Session) (queue : list Z)
    (project_id aoi_id : Z) (data : AnalysisJobCreate) (job : AnalysisJob.t) :
  adm_result (create_and_queue_job db queue project_id aoi_id data) = Ok job ->
  get_job_status
    (adm_db (create_and_queue_job db queue project_id aoi_id data))
    (AnalysisJob.id job)
  = Some (JobStatusDict.mk (AnalysisJob.id job) PENDING None None)
  /\ get_job_results
       (adm_db (create_and_queue_job db queue project_id aoi_id data))
       (AnalysisJob.id job) = None
  /\ List.last (adm_queue (create_and_queue_job db queue project_id aoi_id data))
       0%Z = AnalysisJob.id job
  /\ (status_history
        (deliver (adm_db (create_and_queue_job db queue project_id aoi_id data))
           (AnalysisJob.id job)) (AnalysisJob.id job)
      = [Some RUNNING; Some COMPLETE]
      \/ status_history
           (deliver (adm_db (create_and_queue_job db queue project_id aoi_id data))
              (AnalysisJob.id job)) (AnalysisJob.id job)
         = [Some RUNNING; Some FAILED]).
Proof.
  unfold create_and_queue_job.
  destruct (PrimFloat.ltb _ _); simpl; [discriminate |].
  intros Hjob. inversion Hjob; subst; clear Hjob. simpl.
  unfold get_job_status, get_job_results. simpl. rewrite lookup_insert_eq. simpl.
  repeat split.
  - by rewrite last_last.
  - unfold status_history, run_mcda_analysis. simpl. rewrite lookup_insert_eq.
    destruct (process_mcda_job _ _ _ _); simpl; rewrite !status_in_commit;
      simpl; auto.
Qed.

End Lifecycle.

(** ** The further properties on the concrete jobs *)

Lemma demo_store_job (j : AnalysisJob.t) :
  analysis_jobs (Demo.store j) !! 1%Z = Some j.
Proof. unfold Demo.store. simpl. apply lookup_singleton_eq. Qed.

Lemma demo_store_ids_below_seq (j : AnalysisJob.t) : ids_below_seq (Demo.store j).
Proof.
  intros k job H. unfold Demo.store in *. simpl in *.
  apply lookup_singleton_Some in H as [<- _]. lia.
Qed.

Lemma delivery_final_row_witness :
  analysis_jobs (Demo.store Demo.job4) !! 1%Z = Some Demo.job4
  /\ exists final,
       analysis_jobs
         (store_after (Demo.store Demo.job4)
            (run_mcda_analysis Demo.clip4 Demo.slope4 (Demo.store Demo.job4) 1))
         !! 1%Z = Some final
       /\ AnalysisJob.status final = COMPLETE
       /\ AnalysisJob.result_url final
          = Some "s3://solar-platform-results/results/mcda_result_1.tif"
       /\ AnalysisJob.weights_json final = Demo.weights4.
Proof.
  pose proof (demo_store_job Demo.job4) as Hjob.
  split; [exact Hjob |].
  destruct (delivery_final_row Demo.clip4 Demo.slope4 _ _ _ Hjob)
    as (final & Hfinal & Hpar & Hrow).
  exists final. split; [exact Hfinal |].
  destruct (process_mcda_job Demo.clip4 Demo.slope4
              (commit (Demo.store Demo.job4) 1 (set_running Demo.job4))
              (set_running Demo.job4)) as [result | e] eqn:E;
    [| vm_compute in E; discriminate].
  destruct Hrow as (_ & Hst & Hurl & _).
  split; [exact Hst |]. split.
  - rewrite Hurl. vm_compute in E. inversion E. reflexivity.
  - unfold job_parameters in Hpar. by inversion Hpar.
Defined.

Lemma delivery_without_aoi_fails_witness :
  status_history
    (run_mcda_analysis Demo.clip4 Demo.slope4
       {| analysis_jobs := {[ 1%Z := Demo.job4 ]}; analysis_jobs_id_seq := 2;
          areas_of_interest := ∅ |} 1) 1
  = [Some RUNNING; Some FAILED]
  /\ outcome
       (run_mcda_analysis Demo.clip4 Demo.slope4
          {| analysis_jobs := {[ 1%Z := Demo.job4 ]}; analysis_jobs_id_seq := 2;
             areas_of_interest := ∅ |} 1)
     = Raise (ValueError_aoi 1).
Proof.
  destruct (delivery_without_aoi_fails Demo.clip4 Demo.slope4
              {| analysis_jobs := {[ 1%Z := Demo.job4 ]};
                 analysis_jobs_id_seq := 2; areas_of_interest := ∅ |}
              1 Demo.job4) as (Hout & Hhist & _).
  - simpl. apply lookup_singleton_eq.
  - simpl. apply lookup_empty.
  - split; [exact Hhist | exact Hout].
Defined.

Lemma queries_after_delivery_witness :
  analysis_jobs (Demo.store Demo.job4) !! 1%Z = Some Demo.job4
  /\ exists result,
       process_mcda_job Demo.clip4 Demo.slope4
         (commit (Demo.store Demo.job4) 1 (set_running Demo.job4))
         (set_running Demo.job4) = Ok result
       /\ get_job_status
            (store_after (Demo.store Demo.job4)
               (run_mcda_analysis Demo.clip4 Demo.slope4
                  (Demo.store Demo.job4) 1)) 1
          = Some (JobStatusDict.mk 1 COMPLETE None None)
       /\ get_job_results
            (store_after (Demo.store Demo.job4)
               (run_mcda_analysis Demo.clip4 Demo.slope4
                  (Demo.store Demo.job4) 1)) 1
          = Some (JobResultsDict.mk 1 COMPLETE (Some (geotiff_url result))
                    (tiles_url result) (Some (statistics result)) None).
Proof.
  pose proof (demo_store_job Demo.job4) as Hjob.
  split; [exact Hjob |].
  pose proof (queries_after_delivery Demo.clip4 Demo.slope4 _ _ _ Hjob) as H.
  destruct (process_mcda_job Demo.clip4 Demo.slope4
              (commit (Demo.store Demo.job4) 1 (set_running Demo.job4))
              (set_running Demo.job4)) as [result | e] eqn:E;
    [| vm_compute in E; discriminate].
  destruct H as (_ & Hs & Hr).
  exists result. split; [reflexivity |]. split; [exact Hs | exact Hr].
Defined.

Lemma ids_below_seq_preserved_witness :
  ids_below_seq (Demo.store Demo.job4)
  /\ ids_below_seq
       (adm_db (create_and_queue_job (Demo.store Demo.job4) [1%Z] 1 1
                  DemoAdmission.unknown))
  /\ ids_below_seq (fst (delete_job (Demo.store Demo.job4) 1)).
Proof.
  pose proof (demo_store_ids_below_seq Demo.job4) as Hinv.
  destruct (ids_below_seq_preserved _ Hinv) as (Ha & _ & Hd).
  split; [exact Hinv |]. split; [apply Ha | apply Hd].
Defined.

Lemma admission_keeps_existing_jobs_witness :
  ids_below_seq (Demo.store Demo.job4)
  /\ analysis_jobs
       (adm_db (create_and_queue_job (Demo.store Demo.job4) [1%Z] 1 1
                  DemoAdmission.unknown)) !! 1%Z
     = Some Demo.job4
  /\ analysis_jobs (Demo.store Demo.job4) !! 2%Z = None.
Proof.
  pose proof (demo_store_ids_below_seq Demo.job4) as Hinv.
  destruct (admission_keeps_existing_jobs (Demo.store Demo.job4) [1%Z] 1 1
              DemoAdmission.unknown Hinv) as (Hkeep & _ & Hfresh).
  split; [exact Hinv |]. split.
  - apply Hkeep. apply demo_store_job.
  - exact (Hfresh _ eq_refl).
Defined.

Lemma admitted_job_lifecycle_witness :
  exists job,
    adm_result (create_and_queue_job (Demo.store Demo.job4) [1%Z] 1 1
                  DemoAdmission.unknown) = Ok job
    /\ AnalysisJob.id job = 2%Z
    /\ get_job_status
         (adm_db (create_and_queue_job (Demo.store Demo.job4) [1%Z] 1 1
                    DemoAdmission.unknown)) 2
       = Some (JobStatusDict.mk 2 PENDING None None)
    /\ get_job_results
         (adm_db (create_and_queue_job (Demo.store Demo.job4) [1%Z] 1 1
                    DemoAdmission.unknown)) 2
       = None.
Proof.
  eexists. split; [reflexivity |]. split; [reflexivity |].
  destruct (admitted_job_lifecycle Demo.clip4 Demo.slope4
              (Demo.store Demo.job4) [1%Z] 1 1 DemoAdmission.unknown _ eq_refl)
    as (Hs & Hr & _).
  split; [exact Hs | exact Hr].
Defined.
